(** * Anima avatar chat: the lip-sync engine of [app.js]

    A shallow embedding of the browser client.  The repository holds two
    variants of the script: [src/app.js] (scale effect, shared audio graph,
    object URL kept and revoked) and [src/unnamed/part_000] (mouth overlay,
    audio graph rebuilt on each call).  Both are embedded; functions that
    differ between them take a [Variant].

    JavaScript numbers are IEEE 754 binary64 values, which is what Rocq's
    primitive [float] is, so arithmetic is embedded operation by operation.
    The script is event driven: its top-level state and the closures created
    by its handlers form a [World], and each browser task (a DOM event, a
    settled promise, a display frame) is one [Event] that [step] runs to
    completion. *)

From Stdlib Require Import List ZArith Bool String Ascii Lia Floats.
From Stdlib Require Uint63.
From Stdlib.Strings Require Import Byte.
Import ListNotations.

Set Warnings "-inexact-float".

Local Open Scope float_scope.

(** ** JavaScript numbers *)

(** [Math.min(a, b)]: NaN if either argument is NaN; -0 counts as smaller
    than +0. *)
Definition Math_min (a b : float) : float :=
  if is_nan a || is_nan b then nan
  else if a <? b then a
  else if b <? a then b
  else if get_sign a then a else b.

(** [Math.max(a, b)]: NaN if either argument is NaN; +0 counts as larger
    than -0. *)
Definition Math_max (a b : float) : float :=
  if is_nan a || is_nan b then nan
  else if a <? b then b
  else if b <? a then a
  else if get_sign a then b else a.

(** [Math.PI], the binary64 value nearest to pi. *)
Definition Math_PI : float := 0x1.921fb54442d18p+1.

(** A non-negative integer as a number. *)
Definition int_of (n : nat) : PrimInt63.int := Uint63.of_Z (Z.of_nat n).
Definition number (n : nat) : float := PrimFloat.of_uint63 (int_of n).

(** The number a [Uint8Array] element reads as. *)
Definition number_of_byte (b : byte) : float := number (Byte.to_nat b).

(** ** Data model *)

Module Box.
Record t := { x : float; y : float; width : float; height : float }.
End Box.

Module Point.
Record t := { x : float; y : float }.
End Point.

(** A decoded [Image] element: the object URL it was loaded from and its
    intrinsic size. *)
Module Image.
Record t := { src : nat; width : float; height : float }.
End Image.

(** The detector's result, [detectSingleFace(..).withFaceLandmarks()]:
    [faceDetection.detection.box] and [faceDetection.landmarks.getMouth()]. *)
Record FaceDetection := { box : Box.t }.
Record FaceLandmarks := { getMouth : list Point.t }.
Record WithFaceLandmarks :=
  { detection : FaceDetection; landmarks : FaceLandmarks }.

(** What the 2D context was asked to paint since the bitmap was last
    cleared.  The bitmap is the platform's rasterisation of this list; a
    call with an infinite or NaN argument is listed too, and paints
    nothing. *)
Inductive DrawOp :=
| DrawImage (image : Image.t) (sx sy sw sh dx dy dw dh : float)
| FillEllipse (globalAlpha : float) (fillStyle : string)
              (x y radiusX radiusY rotation startAngle endAngle : float).

Module Canvas.
Record t := { width : float; height : float; ops : list DrawOp }.
(** Assigning [width] or [height] clears the bitmap. *)
Definition set_width (v : float) (c : t) : t :=
  {| width := v; height := height c; ops := [] |}.
Definition set_height (v : float) (c : t) : t :=
  {| width := width c; height := v; ops := [] |}.
Definition draw (o : DrawOp) (c : t) : t :=
  {| width := width c; height := height c; ops := ops c ++ [o] |}.
End Canvas.

Record ChatEntry := { role : string; content : string }.

Inductive AudioContextState := suspended | running.

Inductive PromiseState := Pending | Fulfilled | Rejected.

(** How far one call of [playAudioWithLipSync] has got. *)
Inductive Progress :=
| Threw            (* the executor threw before installing its handlers *)
| AwaitingResume   (* suspended at [await audioContext.resume()] *)
| PlayRequested    (* handlers installed, [audioPlayer.play()] pending *)
| PlaySettled.     (* the promise of [audioPlayer.play()] has settled *)

(** The closure of one call of [playAudioWithLipSync]: its local bindings
    and the promise it returned. *)
Record Session := {
  audioUrl : option nat;
  animationId : option nat;
  dataArray : list byte;
  promise : PromiseState;
  progress : Progress
}.

(** [audioPlayer]: its source and the session whose closure each handler
    property holds. *)
Record AudioElement := {
  audio_src : option nat;
  onplay : option nat;
  onended : option nat;
  onerror : option nat
}.

(** One run of the [avatarInput] change handler, suspended at an [await]. *)
Inductive UploadStage := AwaitLoad | AwaitDetect | UploadDone.
Record UploadTask := { img : Image.t; upload_stage : UploadStage }.

(** One run of the [chatForm] submit handler, suspended at an [await]. *)
Inductive ChatStage := AwaitFetch | AwaitPlay (sid : nat) | ChatDone.
Record ChatTask := { message : string; chat_stage : ChatStage }.

(** The script's top-level [let] bindings. *)
Record Globals := {
  chatHistory : list ChatEntry;
  avatarImage : option Image.t;
  faceDetection : option WithFaceLandmarks;
  isModelLoaded : bool;
  audioContext : option AudioContextState
}.

(** The DOM elements the script touches.  The chat message list is left
    out: nothing reads it back. *)
Record Dom := {
  avatarCanvas : Canvas.t;
  speaking : bool;              (* avatarContainer has class 'speaking' *)
  placeholderHidden : bool;     (* avatarPlaceholder has class 'hidden' *)
  canvasHidden : bool;          (* avatarCanvas has class 'hidden' *)
  avatarStatus : string * string;
  inputDisabled : bool;         (* messageInput and sendButton *)
  audioPlayer : AudioElement
}.

(** Platform tables: live object URLs and the animation-frame callbacks
    (handle, session whose [animateLipSync] is scheduled); and whether a
    call of [part_000]'s [playAudioWithLipSync] has connected [audioPlayer]
    to a MediaElementAudioSourceNode.  ([app.js] connects the element once,
    when it makes its one [audioContext], and keeps the node in a global;
    nothing in that variant reads this flag.) *)
Record Platform := {
  objectURLs : list nat;
  nextObjectURL : nat;
  frameCallbacks : list (nat * nat);
  nextHandle : nat;
  mediaElementSource : bool
}.

Record Closures := {
  sessions : list Session;
  uploads : list UploadTask;
  chats : list ChatTask
}.

Record World := {
  globals : Globals;
  dom : Dom;
  platform : Platform;
  closures : Closures
}.

(** *** Field updates *)

Definition with_globals (f : Globals -> Globals) (w : World) : World :=
  {| globals := f (globals w); dom := dom w;
     platform := platform w; closures := closures w |}.
Definition with_dom (f : Dom -> Dom) (w : World) : World :=
  {| globals := globals w; dom := f (dom w);
     platform := platform w; closures := closures w |}.
Definition with_platform (f : Platform -> Platform) (w : World) : World :=
  {| globals := globals w; dom := dom w;
     platform := f (platform w); closures := closures w |}.
Definition with_closures (f : Closures -> Closures) (w : World) : World :=
  {| globals := globals w; dom := dom w;
     platform := platform w; closures := f (closures w) |}.

Definition set_chatHistory (h : list ChatEntry) : World -> World :=
  with_globals (fun g =>
    {| chatHistory := h; avatarImage := avatarImage g;
       faceDetection := faceDetection g; isModelLoaded := isModelLoaded g;
       audioContext := audioContext g |}).
Definition set_avatarImage (i : option Image.t) : World -> World :=
  with_globals (fun g =>
    {| chatHistory := chatHistory g; avatarImage := i;
       faceDetection := faceDetection g; isModelLoaded := isModelLoaded g;
       audioContext := audioContext g |}).
Definition set_faceDetection (d : option WithFaceLandmarks) : World -> World :=
  with_globals (fun g =>
    {| chatHistory := chatHistory g; avatarImage := avatarImage g;
       faceDetection := d; isModelLoaded := isModelLoaded g;
       audioContext := audioContext g |}).
Definition set_isModelLoaded (b : bool) : World -> World :=
  with_globals (fun g =>
    {| chatHistory := chatHistory g; avatarImage := avatarImage g;
       faceDetection := faceDetection g; isModelLoaded := b;
       audioContext := audioContext g |}).
Definition set_audioContext (c : option AudioContextState) : World -> World :=
  with_globals (fun g =>
    {| chatHistory := chatHistory g; avatarImage := avatarImage g;
       faceDetection := faceDetection g; isModelLoaded := isModelLoaded g;
       audioContext := c |}).

Definition with_avatarCanvas (f : Canvas.t -> Canvas.t) : World -> World :=
  with_dom (fun d =>
    {| avatarCanvas := f (avatarCanvas d); speaking := speaking d;
       placeholderHidden := placeholderHidden d; canvasHidden := canvasHidden d;
       avatarStatus := avatarStatus d; inputDisabled := inputDisabled d;
       audioPlayer := audioPlayer d |}).
Definition set_speaking (b : bool) : World -> World :=
  with_dom (fun d =>
    {| avatarCanvas := avatarCanvas d; speaking := b;
       placeholderHidden := placeholderHidden d; canvasHidden := canvasHidden d;
       avatarStatus := avatarStatus d; inputDisabled := inputDisabled d;
       audioPlayer := audioPlayer d |}).
Definition set_placeholderHidden (b : bool) : World -> World :=
  with_dom (fun d =>
    {| avatarCanvas := avatarCanvas d; speaking := speaking d;
       placeholderHidden := b; canvasHidden := canvasHidden d;
       avatarStatus := avatarStatus d; inputDisabled := inputDisabled d;
       audioPlayer := audioPlayer d |}).
Definition set_canvasHidden (b : bool) : World -> World :=
  with_dom (fun d =>
    {| avatarCanvas := avatarCanvas d; speaking := speaking d;
       placeholderHidden := placeholderHidden d; canvasHidden := b;
       avatarStatus := avatarStatus d; inputDisabled := inputDisabled d;
       audioPlayer := audioPlayer d |}).
Definition set_inputDisabled (b : bool) : World -> World :=
  with_dom (fun d =>
    {| avatarCanvas := avatarCanvas d; speaking := speaking d;
       placeholderHidden := placeholderHidden d; canvasHidden := canvasHidden d;
       avatarStatus := avatarStatus d; inputDisabled := b;
       audioPlayer := audioPlayer d |}).
Definition with_audioPlayer (f : AudioElement -> AudioElement)
  : World -> World :=
  with_dom (fun d =>
    {| avatarCanvas := avatarCanvas d; speaking := speaking d;
       placeholderHidden := placeholderHidden d; canvasHidden := canvasHidden d;
       avatarStatus := avatarStatus d; inputDisabled := inputDisabled d;
       audioPlayer := f (audioPlayer d) |}).

(** [setAvatarStatus(text, type)] *)
Definition setAvatarStatus (text type : string) : World -> World :=
  with_dom (fun d =>
    {| avatarCanvas := avatarCanvas d; speaking := speaking d;
       placeholderHidden := placeholderHidden d; canvasHidden := canvasHidden d;
       avatarStatus := (text, ("avatar-status " ++ type)%string);
       inputDisabled := inputDisabled d; audioPlayer := audioPlayer d |}).

(** [setInputEnabled(enabled)] *)
Definition setInputEnabled (enabled : bool) : World -> World :=
  set_inputDisabled (negb enabled).

Definition with_sessions (f : list Session -> list Session) : World -> World :=
  with_closures (fun c =>
    {| sessions := f (sessions c); uploads := uploads c; chats := chats c |}).
Definition with_uploads (f : list UploadTask -> list UploadTask)
  : World -> World :=
  with_closures (fun c =>
    {| sessions := sessions c; uploads := f (uploads c); chats := chats c |}).
Definition with_chats (f : list ChatTask -> list ChatTask) : World -> World :=
  with_closures (fun c =>
    {| sessions := sessions c; uploads := uploads c; chats := f (chats c) |}).

(** What a call leaves behind: it returned, or it threw. *)
Inductive Completion := Normal (w : World) | Throw (w : World).

Definition world_of (c : Completion) : World :=
  match c with Normal w | Throw w => w end.

(** ** Avatar handling *)

Definition all_finite (l : list float) : bool := forallb is_finite l.

Definition size : float := 200.

(** The crop around the face computed by [drawAvatar]:
    [(sx, sy, sw, sh)]. *)
Definition crop (b : Box.t) : float * float * float * float :=
  let padding := Box.width b * 0.5 in
  let sx := Math_max 0 (Box.x b - padding) in
  let sy := Math_max 0 (Box.y b - padding) in
  let sw := Box.width b + padding * 2 in
  let sh := Box.height b + padding * 2 in
  (sx, sy, sw, sh).

(** [drawAvatar(speakingIntensity)] of [app.js]. *)
Definition drawAvatar_app (speakingIntensity : float) (w : World)
  : Completion :=
  match avatarImage (globals w), faceDetection (globals w) with
  | Some image, Some fd =>
      let w := with_avatarCanvas (Canvas.set_width size) w in
      let w := with_avatarCanvas (Canvas.set_height size) w in
      let '(sx, sy, sw, sh) := crop (box (detection fd)) in
      let scale := 1 + speakingIntensity * 0.02 in
      let offset := size * (scale - 1) / 2 in
      Normal (with_avatarCanvas
                (Canvas.draw (DrawImage image sx sy sw sh
                                        (- offset) (- offset)
                                        (size * scale) (size * scale))) w)
  | _, _ => Normal w
  end.

(** [drawAvatar(mouthOpen)] of [part_000].  Reading [.x] of a missing
    [mouth[i]] throws a TypeError, and [ctx.ellipse] throws an
    IndexSizeError on a negative radius when all its arguments are
    finite. *)
Definition drawAvatar_overlay (mouthOpen : float) (w : World) : Completion :=
  match avatarImage (globals w), faceDetection (globals w) with
  | Some image, Some fd =>
      let w := with_avatarCanvas (Canvas.set_width size) w in
      let w := with_avatarCanvas (Canvas.set_height size) w in
      let '(sx, sy, sw, sh) := crop (box (detection fd)) in
      let w := with_avatarCanvas
                 (Canvas.draw (DrawImage image sx sy sw sh 0 0 size size)) w in
      if 0 <? mouthOpen then
        let mouth := getMouth (landmarks fd) in
        let scaleX := size / sw in
        let scaleY := size / sh in
        match nth_error mouth 14, nth_error mouth 18,
              nth_error mouth 6, nth_error mouth 0 with
        | Some m14, Some m18, Some m6, Some m0 =>
            let mouthCenterX :=
              ((Point.x m14 + Point.x m18) / 2 - sx) * scaleX in
            let mouthCenterY :=
              ((Point.y m14 + Point.y m18) / 2 - sy) * scaleY in
            let mouthWidth := (Point.x m6 - Point.x m0) * scaleX in
            let radiusX := mouthWidth * 0.4 in
            let radiusY := mouthOpen * 10 in
            if all_finite [mouthCenterX; mouthCenterY; radiusX; radiusY]
               && ((radiusX <? 0) || (radiusY <? 0))
            then Throw w
            else
              Normal (with_avatarCanvas
                        (Canvas.draw
                           (FillEllipse 0.7 "#1a0a0a"
                                        mouthCenterX mouthCenterY
                                        radiusX radiusY
                                        0 0 (Math_PI * 2))) w)
        | _, _, _, _ => Throw w
        end
      else Normal w
  | _, _ => Normal w
  end.

Inductive Variant := AppJs | Part000.

Definition drawAvatar (v : Variant) : float -> World -> Completion :=
  match v with
  | AppJs => drawAvatar_app
  | Part000 => drawAvatar_overlay
  end.

(** ** Platform services *)

(** *** [atob]: the forgiving-base64 decoder of the HTML standard *)

Definition is_ascii_whitespace (c : ascii) : bool :=
  let n := nat_of_ascii c in
  (n =? 9)%nat || (n =? 10)%nat || (n =? 12)%nat || (n =? 13)%nat
  || (n =? 32)%nat.

(** The 6-bit value of a character of the base64 alphabet. *)
Definition base64_value (c : ascii) : option N :=
  let n := N_of_ascii c in
  if (65 <=? n)%N && (n <=? 90)%N then Some (n - 65)%N
  else if (97 <=? n)%N && (n <=? 122)%N then Some (n - 71)%N
  else if (48 <=? n)%N && (n <=? 57)%N then Some (n + 4)%N
  else if (n =? 43)%N then Some 62%N
  else if (n =? 47)%N then Some 63%N
  else None.

Fixpoint base64_values (l : list ascii) : option (list N) :=
  match l with
  | [] => Some []
  | c :: l' =>
      match base64_value c, base64_values l' with
      | Some v, Some vs => Some (v :: vs)
      | _, _ => None
      end
  end.

Definition low_byte (n : N) : byte :=
  match Byte.of_N (n mod 256) with Some b => b | None => x00 end.

(** Four sextets give three bytes; a trailing group of three gives two
    bytes and one of two gives one byte, the spare bits being dropped. *)
Fixpoint decode_sextets (l : list N) : list byte :=
  match l with
  | a :: b :: c :: d :: rest =>
      low_byte (a * 4 + b / 16)
      :: low_byte (b * 16 + c / 4)
      :: low_byte (c * 64 + d) :: decode_sextets rest
  | [a; b; c] => [low_byte (a * 4 + b / 16); low_byte (b * 16 + c / 4)]
  | [a; b] => [low_byte (a * 4 + b / 16)]
  | _ => []
  end.

Definition strip_padding (l : list ascii) : list ascii :=
  if (List.length l mod 4 =? 0)%nat then
    match rev l with
    | "="%char :: "="%char :: r => rev r
    | "="%char :: r => rev r
    | _ => l
    end
  else l.

(** [atob(data)]: [None] stands for the InvalidCharacterError it throws. *)
Definition atob (data : string) : option (list byte) :=
  let l := filter (fun c => negb (is_ascii_whitespace c))
                  (list_ascii_of_string data) in
  let l := strip_padding l in
  if (List.length l mod 4 =? 1)%nat then None
  else option_map decode_sextets (base64_values l).

(** *** Object URLs *)

Definition with_objectURLs (f : list nat -> list nat) : World -> World :=
  with_platform (fun p =>
    {| objectURLs := f (objectURLs p); nextObjectURL := nextObjectURL p;
       frameCallbacks := frameCallbacks p; nextHandle := nextHandle p;
       mediaElementSource := mediaElementSource p |}).

(** [URL.createObjectURL(blob)]: a URL no earlier call returned. *)
Definition createObjectURL (w : World) : nat * World :=
  let u := nextObjectURL (platform w) in
  (u, with_platform (fun p =>
        {| objectURLs := u :: objectURLs p; nextObjectURL := S u;
           frameCallbacks := frameCallbacks p;
           nextHandle := nextHandle p;
           mediaElementSource := mediaElementSource p |}) w).

(** [URL.revokeObjectURL(url)] *)
Definition revokeObjectURL (url : option nat) : World -> World :=
  match url with
  | Some u => with_objectURLs (filter (fun u' => negb (u' =? u)%nat))
  | None => fun w => w
  end.

(** *** Animation frames *)

(** [requestAnimationFrame(animateLipSync)] from the closure of session
    [sid]: the callback joins the list under a fresh handle. *)
Definition requestAnimationFrame (sid : nat) (w : World) : nat * World :=
  let h := nextHandle (platform w) in
  (h, with_platform (fun p =>
        {| objectURLs := objectURLs p; nextObjectURL := nextObjectURL p;
           frameCallbacks := frameCallbacks p ++ [(h, sid)];
           nextHandle := S h;
           mediaElementSource := mediaElementSource p |}) w).

Definition set_frameCallbacks (l : list (nat * nat)) : World -> World :=
  with_platform (fun p =>
    {| objectURLs := objectURLs p; nextObjectURL := nextObjectURL p;
       frameCallbacks := l; nextHandle := nextHandle p;
       mediaElementSource := mediaElementSource p |}).

(** [cancelAnimationFrame(id)]; with [id] still [undefined] no callback
    has that handle and nothing is removed. *)
Definition cancelAnimationFrame (id : option nat) (w : World) : World :=
  match id with
  | Some h =>
      set_frameCallbacks
        (filter (fun cb => negb (fst cb =? h)%nat)
                (frameCallbacks (platform w))) w
  | None => w
  end.

(** *** Media element sources *)

(** [audioContext.createMediaElementSource(audioPlayer)]: an element can
    be given a source node once; asking again, from any context, throws an
    InvalidStateError, which [None] stands for. *)
Definition createMediaElementSource (w : World) : option World :=
  if mediaElementSource (platform w) then None
  else
    Some (with_platform (fun p =>
            {| objectURLs := objectURLs p; nextObjectURL := nextObjectURL p;
               frameCallbacks := frameCallbacks p;
               nextHandle := nextHandle p;
               mediaElementSource := true |}) w).

(** *** Promises *)

(** Calling [resolve()]: settles a pending promise, and does nothing to a
    settled one. *)
Definition settle (outcome : PromiseState) (p : PromiseState) : PromiseState :=
  match p with Pending => outcome | _ => p end.

(** ** Sessions *)

Fixpoint update_nth {A} (n : nat) (f : A -> A) (l : list A) : list A :=
  match l, n with
  | [], _ => []
  | a :: l', O => f a :: l'
  | a :: l', S n' => a :: update_nth n' f l'
  end.

Definition session (sid : nat) (w : World) : option Session :=
  nth_error (sessions (closures w)) sid.

Definition update_session (sid : nat) (f : Session -> Session)
  : World -> World :=
  with_sessions (update_nth sid f).

Definition set_animationId (id : option nat) (s : Session) : Session :=
  {| audioUrl := audioUrl s; animationId := id; dataArray := dataArray s;
     promise := promise s; progress := progress s |}.
Definition set_dataArray (d : list byte) (s : Session) : Session :=
  {| audioUrl := audioUrl s; animationId := animationId s; dataArray := d;
     promise := promise s; progress := progress s |}.
Definition set_progress (p : Progress) (s : Session) : Session :=
  {| audioUrl := audioUrl s; animationId := animationId s;
     dataArray := dataArray s; promise := promise s; progress := p |}.
Definition settle_promise (outcome : PromiseState) (s : Session) : Session :=
  {| audioUrl := audioUrl s; animationId := animationId s;
     dataArray := dataArray s; promise := settle outcome (promise s);
     progress := progress s |}.

(** [resolve()] in the closure of session [sid]. *)
Definition resolve (sid : nat) : World -> World :=
  update_session sid (settle_promise Fulfilled).

Definition set_src (u : option nat) (a : AudioElement) : AudioElement :=
  {| audio_src := u; onplay := onplay a; onended := onended a;
     onerror := onerror a |}.
Definition set_onplay (h : option nat) (a : AudioElement) : AudioElement :=
  {| audio_src := audio_src a; onplay := h; onended := onended a;
     onerror := onerror a |}.
Definition set_onended (h : option nat) (a : AudioElement) : AudioElement :=
  {| audio_src := audio_src a; onplay := onplay a; onended := h;
     onerror := onerror a |}.
Definition set_onerror (h : option nat) (a : AudioElement) : AudioElement :=
  {| audio_src := audio_src a; onplay := onplay a; onended := onended a;
     onerror := h |}.

(** ** Audio and lip sync *)

(** [analyser.frequencyBinCount] for [fftSize = 256]. *)
Definition frequencyBinCount : nat := 128.

(** [analyser.getByteFrequencyData(dataArray)] when the analyser holds
    [freq]: the array is overwritten from the front, and elements beyond
    the analyser's data keep their values. *)
Fixpoint getByteFrequencyData (freq arr : list byte) : list byte :=
  match arr, freq with
  | [], _ => []
  | _ :: _, [] => arr
  | _ :: arr', f :: freq' => f :: getByteFrequencyData freq' arr'
  end.

(** [dataArray[i]] in an addition: an index past the end reads
    [undefined], which adds as NaN. *)
Definition element (d : list byte) (i : nat) : float :=
  match nth_error d i with
  | Some b => number_of_byte b
  | None => nan
  end.

(** The body of [animateLipSync] between reading the analyser and drawing:
    the [for] loop that accumulates [sum], then [average] and the
    intensity. *)
Definition sum_bins (d : list byte) : float :=
  fold_left (fun sum i => sum + element d i) (seq 0 20) 0.

Definition average (d : list byte) : float := sum_bins d / 20.

Definition speakingIntensity (d : list byte) : float :=
  Math_min (average d / 50) 2.

(** [animationId = requestAnimationFrame(animateLipSync)], reached only
    when the draw before it returned. *)
Definition then_schedule (sid : nat) (c : Completion) : Completion :=
  match c with
  | Throw w => Throw w
  | Normal w =>
      let '(h, w) := requestAnimationFrame sid w in
      Normal (update_session sid (set_animationId (Some h)) w)
  end.

(** [animateLipSync()] in the closure of session [sid], with [freq] in the
    analyser. *)
Definition animateLipSync (v : Variant) (sid : nat) (freq : list byte)
  (w : World) : Completion :=
  match session sid w with
  | None => Normal w
  | Some s =>
      let d := getByteFrequencyData freq (dataArray s) in
      let w := update_session sid (set_dataArray d) w in
      then_schedule sid (drawAvatar v (speakingIntensity d) w)
  end.

(** [audioPlayer.onended] as assigned by session [sid]. *)
Definition ended_handler (v : Variant) (sid : nat) (w : World) : Completion :=
  match session sid w with
  | None => Normal w
  | Some s =>
      let w := cancelAnimationFrame (animationId s) w in
      let w := set_speaking false w in
      match drawAvatar v 0 w with
      | Throw w => Throw w
      | Normal w =>
          let w := match v with
                   | AppJs => revokeObjectURL (audioUrl s) w
                   | Part000 => w
                   end in
          Normal (resolve sid w)
      end
  end.

(** [audioPlayer.onerror] as assigned by session [sid]. *)
Definition error_handler (v : Variant) (sid : nat) (w : World) : Completion :=
  match session sid w with
  | None => Normal w
  | Some s =>
      let w := cancelAnimationFrame (animationId s) w in
      let w := set_speaking false w in
      let w := match v with
               | AppJs => revokeObjectURL (audioUrl s) w
               | Part000 => w
               end in
      Normal (resolve sid w)
  end.

(** The [catch] callback on [audioPlayer.play()] of session [sid]. *)
Definition play_catch (sid : nat) (w : World) : World :=
  let w := set_speaking false w in
  resolve sid w.

Definition new_session (url : option nat) (p : PromiseState) (g : Progress)
  : Session :=
  {| audioUrl := url; animationId := None; dataArray := [];
     promise := p; progress := g |}.

Definition push_session (s : Session) : World -> World :=
  with_sessions (fun l => l ++ [s]).

(** The part of [playAudioWithLipSync] both variants share, from
    [avatarContainer.classList.add('speaking')] to [audioPlayer.play()]. *)
Definition install_and_play (sid : nat) (w : World) : World :=
  let w := set_speaking true w in
  let w := update_session sid
             (set_dataArray (repeat x00 frequencyBinCount)) w in
  let w := with_audioPlayer (set_onplay (Some sid)) w in
  let w := with_audioPlayer (set_onended (Some sid)) w in
  let w := with_audioPlayer (set_onerror (Some sid)) w in
  update_session sid (set_progress PlayRequested) w.

(** [app.js] from [audioPlayer.src = audioUrl] on: what runs at once when
    the context is not suspended, and after the [await] otherwise. *)
Definition after_resume (sid : nat) (w : World) : World :=
  match session sid w with
  | None => w
  | Some s =>
      let w := with_audioPlayer (set_src (audioUrl s)) w in
      install_and_play sid w
  end.

(** [playAudioWithLipSync(base64Audio)] of [app.js], up to its first
    suspension.  The executor is an [async] function: when [atob] throws,
    the rejection goes to the executor's own promise, and the promise
    returned to the caller is left pending.  [created] is the state a newly
    built [AudioContext] reports. *)
Definition playAudioWithLipSync_app (created : AudioContextState)
  (base64Audio : string) (w : World) : World :=
  let sid := List.length (sessions (closures w)) in
  match atob base64Audio with
  | None => push_session (new_session None Pending Threw) w
  | Some byteArray =>
      let '(audioUrl, w) := createObjectURL w in
      let w := match audioContext (globals w) with
               | None => set_audioContext (Some created) w
               | Some _ => w
               end in
      let w := push_session
                 (new_session (Some audioUrl) Pending AwaitingResume) w in
      match audioContext (globals w) with
      | Some suspended => w
      | _ => after_resume sid w
      end
  end.

(** [playAudioWithLipSync(base64Audio)] of [part_000].  The executor is an
    ordinary function: what it throws rejects the promise.  [atob] can
    throw; and since every call builds an audio graph of its own, so can
    [createMediaElementSource], on every call after the first that got that
    far.  By then the object URL, which is bound to no name, is in
    [audioPlayer.src]; the handlers, the highlight and [audioPlayer.play()]
    come later and are not reached. *)
Definition playAudioWithLipSync_overlay (base64Audio : string) (w : World)
  : World :=
  let sid := List.length (sessions (closures w)) in
  match atob base64Audio with
  | None => push_session (new_session None Rejected Threw) w
  | Some byteArray =>
      let '(url, w) := createObjectURL w in
      let w := with_audioPlayer (set_src (Some url)) w in
      match createMediaElementSource w with
      | None => push_session (new_session None Rejected Threw) w
      | Some w =>
          let w := push_session (new_session None Pending PlayRequested) w in
          install_and_play sid w
      end
  end.

Definition playAudioWithLipSync (v : Variant) (created : AudioContextState)
  : string -> World -> World :=
  match v with
  | AppJs => playAudioWithLipSync_app created
  | Part000 => playAudioWithLipSync_overlay
  end.

(** ** Avatar upload *)

Definition set_upload_stage (g : UploadStage) (t : UploadTask) : UploadTask :=
  {| img := img t; upload_stage := g |}.

(** The [change] handler of [avatarInput] up to [await new Promise(..)]:
    [file] tells whether [e.target.files[0]] exists. *)
Definition avatar_change (file : bool) (w : World) : World :=
  if negb file then w
  else if negb (isModelLoaded (globals w)) then
    setAvatarStatus "Aguarde os modelos carregarem..." "error" w
  else
    let w := setAvatarStatus "Processando imagem..." "loading" w in
    let '(url, w) := createObjectURL w in
    with_uploads
      (fun l => l ++ [{| img := {| Image.src := url; Image.width := 0;
                                  Image.height := 0 |};
                         upload_stage := AwaitLoad |}]) w.

(** The [catch] block of the handler. *)
Definition upload_catch (task : nat) (w : World) : World :=
  let w := with_uploads (update_nth task (set_upload_stage UploadDone)) w in
  setAvatarStatus "Erro ao processar imagem" "error" w.

(** [img.onload] fires with the decoded size: the handler goes on to
    [await faceapi.detectSingleFace(..).withFaceLandmarks()]. *)
Definition image_loaded (task : nat) (width height : float) (w : World)
  : World :=
  match nth_error (uploads (closures w)) task with
  | Some {| img := i; upload_stage := AwaitLoad |} =>
      with_uploads
        (update_nth task (fun _ =>
           {| img := {| Image.src := Image.src i; Image.width := width;
                        Image.height := height |};
              upload_stage := AwaitDetect |})) w
  | _ => w
  end.

(** [img.onerror] fires: the awaited promise rejects. *)
Definition image_failed (task : nat) (w : World) : World :=
  match nth_error (uploads (closures w)) task with
  | Some {| upload_stage := AwaitLoad |} => upload_catch task w
  | _ => w
  end.

(** The detector answers: the handler from [if (!detection)] to its end. *)
Definition detected (v : Variant) (task : nat)
  (found : option WithFaceLandmarks) (w : World) : World :=
  match nth_error (uploads (closures w)) task with
  | Some {| img := i; upload_stage := AwaitDetect |} =>
      match found with
      | None =>
          let w := with_uploads
                     (update_nth task (set_upload_stage UploadDone)) w in
          setAvatarStatus "Nenhum rosto detectado. Tente outra foto." "error" w
      | Some d =>
          let w := set_faceDetection (Some d) w in
          let w := set_avatarImage (Some i) w in
          match drawAvatar v 0 w with
          | Throw w => upload_catch task w
          | Normal w =>
              let w := set_placeholderHidden true w in
              let w := set_canvasHidden false w in
              let w := with_uploads
                         (update_nth task (set_upload_stage UploadDone)) w in
              setAvatarStatus "Avatar configurado! ✓" "success" w
          end
      end
  | _ => w
  end.

(** The detector throws. *)
Definition detect_failed (task : nat) (w : World) : World :=
  match nth_error (uploads (closures w)) task with
  | Some {| upload_stage := AwaitDetect |} => upload_catch task w
  | _ => w
  end.

(** ** Chat *)

(** [l.slice(-n)]: the last [n] elements, all of them when there are
    fewer. *)
Definition slice_last {A} (n : nat) (l : list A) : list A :=
  skipn (List.length l - n) l.

(** The "Update history" block of the submit handler. *)
Definition update_history (message text : string) (h : list ChatEntry)
  : list ChatEntry :=
  let h := h ++ [{| role := "user"; content := message |}] in
  let h := h ++ [{| role := "assistant"; content := text |}] in
  if (20 <? List.length h)%nat then slice_last 20 h else h.

(** What the awaited [fetch] and [response.json()] came to: a failure of
    any kind lands in the [catch] block. *)
Inductive FetchResult :=
| FetchFailed
| FetchOk (text : string) (audio_base64 : option string).

Definition set_chat_stage (g : ChatStage) (t : ChatTask) : ChatTask :=
  {| message := message t; chat_stage := g |}.

(** The submit handler up to [await fetch(..)]; [message] is the trimmed
    input value. *)
Definition submit (message : string) (w : World) : World :=
  if (message =? "")%string then w
  else
    let w := setInputEnabled false w in
    with_chats (fun l => l ++ [{| message := message;
                                  chat_stage := AwaitFetch |}]) w.

(** The [finally] block. *)
Definition chat_finally (task : nat) (w : World) : World :=
  let w := with_chats (update_nth task (set_chat_stage ChatDone)) w in
  setInputEnabled true w.

(** A value as an [if] condition sees it: a missing or empty string is
    falsy. *)
Definition truthy (s : option string) : bool :=
  match s with
  | Some s => negb (s =? "")%string
  | None => false
  end.

(** The submit handler from the settled [fetch] to its next [await]. *)
Definition fetch_settled (v : Variant) (created : AudioContextState)
  (task : nat) (r : FetchResult) (w : World) : World :=
  match nth_error (chats (closures w)) task with
  | Some {| message := message; chat_stage := AwaitFetch |} =>
      match r with
      | FetchFailed => chat_finally task w
      | FetchOk text audio_base64 =>
          let w := set_chatHistory
                     (update_history message text (chatHistory (globals w)))
                     w in
          if truthy audio_base64 then
            let sid := List.length (sessions (closures w)) in
            let w := playAudioWithLipSync v created
                       (match audio_base64 with Some b => b | None => "" end)
                       w in
            with_chats (update_nth task (set_chat_stage (AwaitPlay sid))) w
          else chat_finally task w
      end
  | _ => w
  end.

Definition is_pending (p : PromiseState) : bool :=
  match p with Pending => true | _ => false end.

(** Is this run of the submit handler waiting on a promise that has
    settled? *)
Definition play_awaited_settled (w : World) (t : ChatTask) : bool :=
  match chat_stage t with
  | AwaitPlay sid =>
      match session sid w with
      | Some s => negb (is_pending (promise s))
      | None => false
      end
  | _ => false
  end.

(** The microtask checkpoint after a task: every submit handler whose
    awaited [playAudioWithLipSync] promise has settled runs to its end (a
    rejection through [catch], and all through [finally]). *)
Definition microtasks (w : World) : World :=
  if existsb (play_awaited_settled w) (chats (closures w)) then
    let w' := with_chats
                (map (fun t => if play_awaited_settled w t
                               then set_chat_stage ChatDone t else t)) w in
    setInputEnabled true w'
  else w.

(** ** The event loop *)

Inductive Event :=
| DOMContentLoaded
| ModelsLoaded (ok : bool)
| AvatarChange (file : bool)
| ImageLoaded (upload : nat) (width height : float)
| ImageFailed (upload : nat)
| Detected (upload : nat) (found : option WithFaceLandmarks)
| DetectFailed (upload : nat)
| Submit (message : string)
| FetchSettled (chat : nat) (r : FetchResult) (created : AudioContextState)
| ContextState (state : AudioContextState)
| ResumeSettled (sid : nat)
| MediaPlay (freq : list byte)
| MediaEnded
| MediaError
| PlayPromise (sid : nat) (fulfilled : bool)
| AnimationFrame (freq : nat -> list byte).

(** The callbacks of one display frame, in the order they were
    requested; an exception ends only the callback that threw. *)
Definition run_frame (v : Variant) (freq : nat -> list byte) (w : World)
  : World :=
  let callbacks := frameCallbacks (platform w) in
  let w := set_frameCallbacks [] w in
  fold_left
    (fun w cb => world_of (animateLipSync v (snd cb) (freq (snd cb)) w))
    callbacks w.

(** One task, without its microtask checkpoint. *)
Definition run_task (v : Variant) (e : Event) (w : World) : World :=
  match e with
  | DOMContentLoaded => setAvatarStatus "Carregando modelos..." "loading" w
  | ModelsLoaded true =>
      setAvatarStatus "Pronto! Adicione uma foto." "success"
                      (set_isModelLoaded true w)
  | ModelsLoaded false => setAvatarStatus "Erro ao carregar modelos" "error" w
  | AvatarChange file => avatar_change file w
  | ImageLoaded t width height => image_loaded t width height w
  | ImageFailed t => image_failed t w
  | Detected t d => detected v t d w
  | DetectFailed t => detect_failed t w
  | Submit message => submit message w
  | FetchSettled t r created => fetch_settled v created t r w
  | ContextState st =>
      match audioContext (globals w) with
      | Some _ => set_audioContext (Some st) w
      | None => w
      end
  | ResumeSettled sid =>
      match v, session sid w with
      | AppJs, Some {| progress := AwaitingResume |} =>
          after_resume sid (set_audioContext (Some running) w)
      | _, _ => w
      end
  | MediaPlay freq =>
      match onplay (audioPlayer (dom w)) with
      | Some sid => world_of (animateLipSync v sid freq w)
      | None => w
      end
  | MediaEnded =>
      match onended (audioPlayer (dom w)) with
      | Some sid => world_of (ended_handler v sid w)
      | None => w
      end
  | MediaError =>
      match onerror (audioPlayer (dom w)) with
      | Some sid => world_of (error_handler v sid w)
      | None => w
      end
  | PlayPromise sid fulfilled =>
      match session sid w with
      | Some {| progress := PlayRequested |} =>
          let w := update_session sid (set_progress PlaySettled) w in
          if fulfilled then w else play_catch sid w
      | _ => w
      end
  | AnimationFrame freq => run_frame v freq w
  end.

Definition step (v : Variant) (e : Event) (w : World) : World :=
  microtasks (run_task v e w).

Definition run (v : Variant) (trace : list Event) (w : World) : World :=
  fold_left (fun w e => step v e w) trace w.

(** The page once the script has been evaluated. *)
Definition initial : World :=
  {| globals := {| chatHistory := []; avatarImage := None;
                   faceDetection := None; isModelLoaded := false;
                   audioContext := None |};
     dom := {| avatarCanvas := {| Canvas.width := 300; Canvas.height := 150;
                                  Canvas.ops := [] |};
               speaking := false; placeholderHidden := false;
               canvasHidden := true; avatarStatus := (""%string, ""%string);
               inputDisabled := false;
               audioPlayer := {| audio_src := None; onplay := None;
                                 onended := None; onerror := None |} |};
     platform := {| objectURLs := []; nextObjectURL := 0;
                    frameCallbacks := []; nextHandle := 1;
                    mediaElementSource := false |};
     closures := {| sessions := []; uploads := []; chats := [] |} |}.

(** ** Exactness of byte sums, by table

    Every partial sum of twenty bytes is an integer below 5101, far inside
    the range where binary64 addition of integers is exact.  [add_exact_rows]
    checks the additions that can occur one by one. *)

Definition int_one : PrimInt63.int := Eval vm_compute in int_of 1.

(** [f] holds of the [n] integers from [a] on. *)
Fixpoint all_from (f : PrimInt63.int -> bool) (n : nat) (a : PrimInt63.int)
  : bool :=
  match n with
  | O => true
  | S n' => f a && all_from f n' (PrimInt63.add a int_one)
  end.

Definition add_exact (a b : PrimInt63.int) : bool :=
  Leibniz.eqb (of_uint63 a + of_uint63 b) (of_uint63 (PrimInt63.add a b)).

Definition add_exact_row (a : PrimInt63.int) : bool :=
  all_from (add_exact a) 256 (int_of 0).

(** The intensity computed from the total [t] is the cap. *)
Definition capped (t : PrimInt63.int) : bool :=
  Leibniz.eqb (Math_min (of_uint63 t / 20 / 50) 2) 2.

(** ** Reference quantities for the properties *)

(** The energy of the low band as an integer: the total of the first
    twenty bins. *)
Definition low_band_total (d : list byte) : nat :=
  list_sum (map Byte.to_nat (firstn 20 d)).

Definition map_completion (f : World -> World) (c : Completion) : Completion :=
  match c with
  | Normal w => Normal (f w)
  | Throw w => Throw (f w)
  end.

(** ** Sample data *)

Definition photo : Image.t :=
  {| Image.src := 0; Image.width := 400; Image.height := 300 |}.

Definition point (x y : float) : Point.t := {| Point.x := x; Point.y := y |}.

(** Twenty mouth points of a smiling face: the corners ([mouth[0]],
    [mouth[6]]) sit higher than the inner lips ([mouth[14]],
    [mouth[18]]). *)
Definition smile : list Point.t :=
  map (fun i =>
         if (i =? 0)%nat then point 100 140
         else if (i =? 6)%nat then point 160 140
         else if (i =? 14)%nat then point 130 150
         else if (i =? 18)%nat then point 130 160
         else point 130 150)
      (seq 0 20).

Definition face : WithFaceLandmarks :=
  {| detection := {| box := {| Box.x := 80; Box.y := 60;
                               Box.width := 100; Box.height := 120 |} |};
     landmarks := {| getMouth := smile |} |}.

(** A face at the right edge of [photo]. *)
Definition edge_face : WithFaceLandmarks :=
  {| detection := {| box := {| Box.x := 300; Box.y := 60;
                               Box.width := 100; Box.height := 120 |} |};
     landmarks := {| getMouth := smile |} |}.

Definition with_avatar (i : Image.t) (d : WithFaceLandmarks) (w : World)
  : World :=
  set_avatarImage (Some i) (set_faceDetection (Some d) w).

(** The last thing painted. *)
Definition last_op (w : World) : option DrawOp :=
  last (map Some (Canvas.ops (avatarCanvas (dom w)))) None.

(** A chat exchange whose reply carries a well-formed payload, up to the
    point where [audioPlayer.play()] has been called. *)
Definition one_reply : list Event :=
  [Submit "hi"; FetchSettled 0 (FetchOk "yo" (Some "AAAA"%string)) running].

(** The page with the sample avatar installed and one clip requested. *)
Definition clip_requested (v : Variant) : World :=
  run v one_reply (with_avatar photo face initial).

(** Analyser data with every bin at 100, and with every bin at 0. *)
Definition loud : list byte := repeat x64 frequencyBinCount.
Definition silent : list byte := repeat x00 frequencyBinCount.

(** Analyser data with every bin at 255, and with every bin at 50. *)
Definition blast : list byte := repeat xff frequencyBinCount.
Definition murmur : list byte := repeat x32 frequencyBinCount.

Definition midpoint (p q : Point.t) : Point.t :=
  point ((Point.x p + Point.x q) / 2) ((Point.y p + Point.y q) / 2).

(** A point of the photo in canvas coordinates, under the crop around the
    face box [b]. *)
Definition to_canvas (b : Box.t) (p : Point.t) : Point.t :=
  let '(sx, sy, sw, sh) := crop b in
  point ((Point.x p - sx) * (size / sw)) ((Point.y p - sy) * (size / sh)).

(** The two entries one exchange appends to the history. *)
Definition exchange (message text : string) : list ChatEntry :=
  [{| role := "user"; content := message |};
   {| role := "assistant"; content := text |}].

(** Both of [avatarImage] and [faceDetection] are set, or neither is. *)
Definition both_or_neither (w : World) : Prop :=
  avatarImage (globals w) = None <-> faceDetection (globals w) = None.

Definition same_avatar (w w' : World) : Prop :=
  avatarImage (globals w') = avatarImage (globals w)
  /\ faceDetection (globals w') = faceDetection (globals w).

(** What an event does to [avatarImage], [faceDetection] and, when it
    installs a new avatar, to the canvas. *)
Definition avatar_effect (v : Variant) (e : Event) (w w' : World) : Prop :=
  match e with
  | Detected upload (Some d) =>
      match nth_error (uploads (closures w)) upload with
      | Some {| img := i; upload_stage := AwaitDetect |} =>
          avatarImage (globals w') = Some i
          /\ faceDetection (globals w') = Some d
          /\ avatarCanvas (dom w')
             = avatarCanvas (dom (world_of (drawAvatar v 0
                                              (with_avatar i d w))))
      | _ => same_avatar w w'
      end
  | _ => same_avatar w w'
  end.

(** ** Reachability of sessions *)

(** The parts of the state through which a session's closure is reached:
    the sessions themselves, the handler properties of [audioPlayer] and the
    scheduled callbacks. *)
Definition machinery (w : World) :=
  (sessions (closures w),
   (onplay (audioPlayer (dom w)), onended (audioPlayer (dom w)),
    onerror (audioPlayer (dom w))),
   frameCallbacks (platform w)).

(** What may change in a session over time: a data array of
    [frequencyBinCount] bytes keeps that size, and a settled promise keeps
    its outcome. *)
Definition keeps (s s' : Session) : Prop :=
  (List.length (dataArray s) = frequencyBinCount ->
   List.length (dataArray s') = frequencyBinCount)
  /\ (promise s <> Pending -> promise s' = promise s).

(** Sessions are never dropped, and each changes only as [keeps] allows. *)
Definition extends (l l' : list Session) : Prop :=
  forall sid s, nth_error l sid = Some s ->
                exists s', nth_error l' sid = Some s' /\ keeps s s'.

Definition sessions_extend (w w' : World) : Prop :=
  extends (sessions (closures w)) (sessions (closures w')).

(** [h] holds no session, or one that exists and has its data array. *)
Definition known (w : World) (h : option nat) : Prop :=
  forall sid, h = Some sid ->
              exists s, session sid w = Some s
                        /\ List.length (dataArray s) = frequencyBinCount.

(** Every handler and every scheduled callback belongs to a session that
    exists and has its data array. *)
Definition well_formed (w : World) : Prop :=
  known w (onplay (audioPlayer (dom w)))
  /\ known w (onended (audioPlayer (dom w)))
  /\ known w (onerror (audioPlayer (dom w)))
  /\ Forall (fun cb => known w (Some (snd cb))) (frameCallbacks (platform w)).

(** Nothing can call into the closure of session [sid]. *)
Definition idle (sid : nat) (w : World) : Prop :=
  onplay (audioPlayer (dom w)) <> Some sid
  /\ onended (audioPlayer (dom w)) <> Some sid
  /\ onerror (audioPlayer (dom w)) <> Some sid
  /\ Forall (fun cb => snd cb <> sid) (frameCallbacks (platform w)).

(** Session [sid] threw in its executor, left its promise pending, and
    nothing can call into it. *)
Definition stuck (sid : nat) (w : World) : Prop :=
  (exists s, session sid w = Some s /\ promise s = Pending
             /\ progress s = Threw)
  /\ idle sid w.

(** Can [drawAvatar] return for every intensity?  The overlay needs the
    four mouth points it reads, with [mouth[6]] not left of [mouth[0]]. *)
Definition can_draw (v : Variant) (w : World) : bool :=
  match v, avatarImage (globals w), faceDetection (globals w) with
  | Part000, Some _, Some fd =>
      let mouth := getMouth (landmarks fd) in
      let '(sx, sy, sw, sh) := crop (box (detection fd)) in
      match nth_error mouth 14, nth_error mouth 18,
            nth_error mouth 6, nth_error mouth 0 with
      | Some _, Some _, Some m6, Some m0 =>
          negb ((Point.x m6 - Point.x m0) * (size / sw) * 0.4 <? 0)
      | _, _, _, _ => false
      end
  | _, _, _ => true
  end.

(** One loop is running, for session [sid], and nothing else is
    scheduled. *)
Definition one_loop (sid : nat) (w : World) : Prop :=
  exists h, frameCallbacks (platform w) = [(h, sid)].

(** Two loops are running, for the sessions [sid] and [sid'] (which may
    be one and the same), and nothing else is scheduled. *)
Definition two_loops (sid sid' : nat) (w : World) : Prop :=
  exists h h', frameCallbacks (platform w) = [(h, sid); (h', sid')].

(** The state in which a loop of session [sid] can keep going. *)
Definition loop_ready (v : Variant) (sid : nat) (w : World) : Prop :=
  can_draw v w = true /\ session sid w <> None.

(** The sample clip played until the platform signals [signal]. *)
Definition played (v : Variant) (signal : Event) : World :=
  run v (one_reply ++ [MediaPlay loud; signal])
      (with_avatar photo face initial).

(** The loop of session [sid] can run next: the 'play' handler would start
    it, or its callback is pending. *)
Definition scheduled (sid : nat) (w : World) : Prop :=
  onplay (audioPlayer (dom w)) = Some sid
  \/ In sid (map snd (frameCallbacks (platform w))).

(** ** Geometry of the painted operations

    Where the platform puts things, independently of how it filters
    pixels. *)

(** The point of the source image that [drawImage] shows at the canvas
    point [(px, py)]: the source rectangle is mapped linearly onto the
    destination rectangle. *)
Definition source_point (o : DrawOp) (px py : float) : option (float * float) :=
  match o with
  | DrawImage _ sx sy sw sh dx dy dw dh =>
      Some (sx + (px - dx) * sw / dw, sy + (py - dy) * sh / dh)
  | FillEllipse _ _ _ _ _ _ _ _ _ => None
  end.

(** Is the canvas point [(px, py)] inside a filled, unrotated, full
    ellipse? *)
Definition inside_ellipse (o : DrawOp) (px py : float) : bool :=
  match o with
  | FillEllipse _ _ x y radiusX radiusY _ _ _ =>
      let u := (px - x) / radiusX in
      let v := (py - y) / radiusY in
      u * u + v * v <=? 1
  | DrawImage _ _ _ _ _ _ _ _ _ => false
  end.

(** The first thing painted since the canvas was cleared. *)
Definition first_op (w : World) : option DrawOp :=
  hd_error (Canvas.ops (avatarCanvas (dom w))).

(** ** Reference quantities for the further properties *)

Local Close Scope float_scope.

(** The history that a list of exchanges (message, reply) makes. *)
Definition exchanges (l : list (string * string)) : list ChatEntry :=
  flat_map (fun p => exchange (fst p) (snd p)) l.

(** While the models are not loaded, no upload has started and no avatar
    is set. *)
Definition models_first (w : World) : Prop :=
  isModelLoaded (globals w) = false ->
  uploads (closures w) = [] /\ avatarImage (globals w) = None
  /\ faceDetection (globals w) = None.

(** Has this run of the submit handler still to reach its [finally]
    block? *)
Definition in_flight (t : ChatTask) : bool :=
  match chat_stage t with ChatDone => false | _ => true end.

(** The input is disabled only while some submit handler is in flight. *)
Definition input_released (w : World) : Prop :=
  inputDisabled (dom w) = true ->
  existsb in_flight (chats (closures w)) = true.

(** The canvas holds the face crop of [image]: 200 by 200, with the image
    painted first. *)
Definition shows (image : Image.t) (fd : WithFaceLandmarks) (c : Canvas.t)
  : Prop :=
  Canvas.width c = size /\ Canvas.height c = size
  /\ exists dx dy dw dh rest,
       let '(sx, sy, sw, sh) := crop (box (detection fd)) in
       Canvas.ops c = DrawImage image sx sy sw sh dx dy dw dh :: rest.

(** With an avatar set, the canvas is visible in place of the placeholder
    and shows that avatar; with none, the placeholder is visible and
    nothing was ever painted. *)
Definition avatar_shown (w : World) : Prop :=
  match avatarImage (globals w), faceDetection (globals w) with
  | Some image, Some fd =>
      canvasHidden (dom w) = false /\ placeholderHidden (dom w) = true
      /\ shows image fd (avatarCanvas (dom w))
  | None, None =>
      canvasHidden (dom w) = true /\ placeholderHidden (dom w) = false
      /\ Canvas.ops (avatarCanvas (dom w)) = []
  | _, _ => False
  end.

(** The parts of the state [avatar_shown] reads. *)
Definition view (w : World) :=
  (avatarImage (globals w), faceDetection (globals w),
   canvasHidden (dom w), placeholderHidden (dom w), avatarCanvas (dom w)).

(** Has the promise of session [sid] settled? *)
Definition settled (sid : nat) (w : World) : bool :=
  match session sid w with
  | Some s => negb (is_pending (promise s))
  | None => false
  end.

(** Is [cb] a callback of the loop of session [sid]? *)
Definition own (sid : nat) (cb : nat * nat) : bool := (snd cb =? sid)%nat.

(** At most one callback of session [sid] is pending, counting those of
    the running frame that are still to be called ([rest]), and a
    scheduled one has the handle the session holds in [animationId]. *)
Definition tracked (sid : nat) (rest : list (nat * nat)) (w : World) : Prop :=
  List.length (filter (own sid) rest)
  + List.length (filter (own sid) (frameCallbacks (platform w))) <= 1
  /\ forall cb, In cb (frameCallbacks (platform w)) -> snd cb = sid ->
                option_map animationId (session sid w) = Some (Some (fst cb)).

(** What the sampling loop leaves alone. *)
Definition fixed_parts (sid : nat) (w : World) :=
  (option_map (fun s => (audioUrl s, promise s)) (session sid w),
   audioPlayer (dom w), objectURLs (platform w)).

(** The clip of session [sid] is playing: its 'ended' and 'error' handlers
    are installed and its loop is [tracked]. *)
Definition playing (sid : nat) (s : Session) (w : World) : Prop :=
  option_map (fun s => (audioUrl s, promise s)) (session sid w)
  = Some (audioUrl s, promise s)
  /\ onended (audioPlayer (dom w)) = Some sid
  /\ onerror (audioPlayer (dom w)) = Some sid
  /\ tracked sid [] w.

(** No call of [playAudioWithLipSync] has had its promise rejected. *)
Definition never_rejected (w : World) : Prop :=
  Forall (fun s => promise s <> Rejected) (sessions (closures w)).

(** ** The chat message list *)

Local Open Scope string_scope.

(** [escapeHtml(text)]: the text becomes the only child of a fresh [div],
    and [innerHTML] serialises that text node, replacing [&], [<], [>] and
    the no-break space U+00A0 by character references.  A string is its
    sequence of code units, here those below 256; each is handled on its
    own. *)
Definition escape_char (c : ascii) : string :=
  match c with
  | "&"%char => "&amp;"
  | "<"%char => "&lt;"
  | ">"%char => "&gt;"
  | "160"%char => "&nbsp;"
  | _ => String c ""
  end.

Fixpoint escapeHtml (text : string) : string :=
  match text with
  | EmptyString => ""
  | String c text' => escape_char c ++ escapeHtml text'
  end.

(** A child of [chatMessages]: a message [div] with its class and markup,
    or the typing indicator held by run [chat] of the submit handler.  The
    children are kept beside the [World], in a [Page]. *)
Inductive ChatChild :=
| MessageDiv (className innerHTML : string)
| TypingIndicator (chat : nat).

Definition double_quote : string := String "034" "".

(** The [messageDiv] that [addMessage(text, role)] builds. *)
Definition messageDiv (text role : string) : ChatChild :=
  MessageDiv ("message " ++ role)
             ("<div class=" ++ double_quote ++ "message-content"
              ++ double_quote ++ ">" ++ escapeHtml text ++ "</div>").

(** [addMessage(text, role)] *)
Definition addMessage (text role : string) (chatMessages : list ChatChild)
  : list ChatChild :=
  chatMessages ++ [messageDiv text role].

(** [showTypingIndicator()], called by run [chat] of the submit handler. *)
Definition showTypingIndicator (chat : nat) (chatMessages : list ChatChild)
  : list ChatChild :=
  chatMessages ++ [TypingIndicator chat].

Definition is_indicator (chat : nat) (c : ChatChild) : bool :=
  match c with
  | TypingIndicator chat' => (chat' =? chat)%nat
  | MessageDiv _ _ => false
  end.

(** [typingIndicator.remove()] in run [chat]; removing an element that is
    no longer in the list does nothing. *)
Definition remove_indicator (chat : nat) (chatMessages : list ChatChild)
  : list ChatChild :=
  filter (fun c => negb (is_indicator chat c)) chatMessages.

(** The text the [catch] block shows; its [a] with acute accent is the
    code unit 225. *)
Definition error_text : string :=
  "Desculpe, ocorreu um erro. Verifique se o backend est"
  ++ String "225" " rodando.".

(** The [catch] block of the submit handler, on the message list. *)
Definition chat_catch (chat : nat) (chatMessages : list ChatChild)
  : list ChatChild :=
  addMessage error_text "assistant" (remove_indicator chat chatMessages).

(** What one task does to the message list, given the state [w] it starts
    in: the submit handler up to [await fetch(..)], and from the settled
    [fetch] to its next [await]. *)
Definition messages_task (e : Event) (w : World)
  (chatMessages : list ChatChild) : list ChatChild :=
  match e with
  | Submit message =>
      if (message =? "")%string then chatMessages
      else showTypingIndicator (List.length (chats (closures w)))
                               (addMessage message "user" chatMessages)
  | FetchSettled chat r _ =>
      match nth_error (chats (closures w)) chat with
      | Some {| chat_stage := AwaitFetch |} =>
          match r with
          | FetchFailed => chat_catch chat chatMessages
          | FetchOk text _ =>
              addMessage text "assistant" (remove_indicator chat chatMessages)
          end
      | _ => chatMessages
      end
  | _ => chatMessages
  end.

(** Does run [t] of the submit handler wait on a promise that was
    rejected? *)
Definition play_awaited_rejected (w : World) (t : ChatTask) : bool :=
  match chat_stage t with
  | AwaitPlay sid =>
      match session sid w with
      | Some {| promise := Rejected |} => true
      | _ => false
      end
  | _ => false
  end.

(** The microtask checkpoint on the message list: each submit handler
    whose awaited promise was rejected runs its [catch] block. *)
Definition messages_microtasks (w : World) (chatMessages : list ChatChild)
  : list ChatChild :=
  fold_left
    (fun l ct => if play_awaited_rejected w (snd ct)
                 then chat_catch (fst ct) l else l)
    (combine (seq 0 (List.length (chats (closures w)))) (chats (closures w)))
    chatMessages.

(** The page: the script's state and the children of [chatMessages]. *)
Record Page := { world : World; chatMessages : list ChatChild }.

Definition page_step (v : Variant) (e : Event) (p : Page) : Page :=
  let w := run_task v e (world p) in
  {| world := microtasks w;
     chatMessages :=
       messages_microtasks w (messages_task e (world p) (chatMessages p)) |}.

Definition page_run (v : Variant) (trace : list Event) (p : Page) : Page :=
  fold_left (fun p e => page_step v e p) trace p.

Definition initial_page : Page :=
  {| world := initial; chatMessages := [] |}.

(** Reading the character references back, as an HTML parser does with the
    four that [escapeHtml] writes. *)
Fixpoint decode_references (s : string) : string :=
  match s with
  | String "&" (String "a" (String "m" (String "p" (String ";" s')))) =>
      String "&" (decode_references s')
  | String "&" (String "l" (String "t" (String ";" s'))) =>
      String "<" (decode_references s')
  | String "&" (String "g" (String "t" (String ";" s'))) =>
      String ">" (decode_references s')
  | String "&" (String "n" (String "b" (String "s" (String "p"
      (String ";" s'))))) =>
      String "160" (decode_references s')
  | String c s' => String c (decode_references s')
  | EmptyString => ""
  end.

(** How often the character [c] occurs in [s]. *)
Definition occurrences (c : ascii) (s : string) : nat :=
  List.length (filter (Ascii.eqb c) (list_ascii_of_string s)).

(** Is run [chat] of the submit handler waiting for the backend? *)
Definition awaits_fetch (w : World) (chat : nat) : bool :=
  match nth_error (chats (closures w)) chat with
  | Some {| chat_stage := AwaitFetch |} => true
  | _ => false
  end.

Definition shows_indicator (p : Page) (chat : nat) : bool :=
  existsb (is_indicator chat) (chatMessages p).

(** A message [div] holds the two tags of its own markup and no other. *)
Definition plain_markup (c : ChatChild) : bool :=
  match c with
  | MessageDiv _ html =>
      (occurrences "<" html =? 2)%nat && (occurrences ">" html =? 2)%nat
  | TypingIndicator _ => true
  end.

Local Close Scope string_scope.
Local Open Scope float_scope.

(** ** The intensity as a function of the low-band total *)

(** The intensity [animateLipSync] computes when the first twenty bins add
    up to [t]. *)
Definition intensity_of_total (t : PrimInt63.int) : float :=
  Math_min (of_uint63 t / 20 / 50) 2.

(** Under a total of 2000 the quotient is below 2 and the clamp leaves it
    as it is; from 2000 on the quotient is at least 2 and the clamp
    replaces it by 2. *)
Definition below_cap (t : PrimInt63.int) : bool :=
  Leibniz.eqb (intensity_of_total t) (of_uint63 t / 20 / 50)
  && (of_uint63 t / 20 / 50 <? 2).

Definition at_cap (t : PrimInt63.int) : bool :=
  Leibniz.eqb (intensity_of_total t) 2 && (2 <=? of_uint63 t / 20 / 50).

Definition in_range (t : PrimInt63.int) : bool :=
  (0 <=? intensity_of_total t) && (intensity_of_total t <=? 2).

Definition rising (t : PrimInt63.int) : bool :=
  intensity_of_total t <=? intensity_of_total (PrimInt63.add t int_one).

Definition strictly_rising (t : PrimInt63.int) : bool :=
  intensity_of_total t <? intensity_of_total (PrimInt63.add t int_one).

(** * Properties *)

(** ** Numbers *)

Lemma SFcompare_antisym x y :
  SFcompare y x = option_map CompOpp (SFcompare x y).
Proof.
  destruct x as [s1|s1| |s1 m1 e1], y as [s2|s2| |s2 m2 e2];
    try destruct s1; try destruct s2; try reflexivity;
    cbn [SFcompare option_map];
    pose proof (Pos.compare_cont_antisym m1 m2 Eq) as Hp; cbn [CompOpp] in Hp;
    rewrite <- Hp, (Z.compare_antisym e1 e2);
    destruct (e1 ?= e2)%Z; cbn [CompOpp]; try reflexivity;
    rewrite CompOpp_involutive; reflexivity.
Qed.

Lemma is_nan_SF x :
  is_nan x = match Prim2SF x with S754_nan => true | _ => false end.
Proof.
  unfold is_nan. rewrite eqb_spec. unfold SFeqb.
  destruct (Prim2SF x) as [s|s| |s m e]; cbn [SFcompare negb];
    try destruct s; try reflexivity;
    rewrite Z.compare_refl, Pos.compare_cont_refl; reflexivity.
Qed.

(** [Math.max(0, v)] is never below zero. *)
Lemma Math_max_0_not_negative v : (Math_max 0 v <? 0) = false.
Proof.
  unfold Math_max.
  change (is_nan 0) with false. cbn [orb].
  destruct (is_nan v) eqn:Hn; [reflexivity|].
  destruct (0 <? v) eqn:H1.
  - rewrite ltb_spec in *. unfold SFltb in *.
    rewrite (SFcompare_antisym (Prim2SF 0) (Prim2SF v)).
    destruct (SFcompare (Prim2SF 0) (Prim2SF v)) as [[]|];
      try discriminate; reflexivity.
  - destruct (v <? 0); [reflexivity|].
    change (get_sign 0) with false. reflexivity.
Qed.

Lemma above_two x :
  (2 <=? x) = true ->
  is_nan x = false /\ (x <? 2) = false /\ (x <? 0) = false
  /\ (x =? 0) = false.
Proof.
  rewrite is_nan_SF, leb_spec, !ltb_spec, eqb_spec.
  unfold SFleb, SFltb, SFeqb.
  rewrite (SFcompare_antisym (Prim2SF 2) (Prim2SF x)).
  assert (E2 : exists m2 e2, Prim2SF 2 = S754_finite false m2 e2)
    by (do 2 eexists; reflexivity).
  destruct E2 as (m2 & e2 & E2). rewrite E2.
  change (Prim2SF 0) with (S754_zero false).
  destruct (Prim2SF x) as [s|s| |s m e]; try destruct s;
    cbn [SFcompare]; try discriminate; intros H; repeat split;
    try reflexivity.
  all: destruct (_ ?= _)%Z; try discriminate; try reflexivity;
    destruct (Pos.compare_cont _ _ _); try discriminate; reflexivity.
Qed.

(** [Math.min(x, 2)] is 2 from 2 upwards. *)
Lemma Math_min_clamps x : (2 <=? x) = true -> Math_min x 2 = 2.
Proof.
  intros H. destruct (above_two x H) as (Hn & H2 & H0 & Hz).
  unfold Math_min. rewrite Hn, H2. change (is_nan 2) with false. cbn [orb].
  destruct (2 <? x); [reflexivity|].
  unfold get_sign, is_zero. change zero with 0. rewrite Hz, H0. reflexivity.
Qed.

(** A positive number times ten is not negative (it may overflow to
    infinity). *)
Lemma mul_ten_not_negative i : (0 <? i) = true -> (i * 10 <? 0) = false.
Proof.
  rewrite !ltb_spec, mul_spec. unfold SFltb.
  change (Prim2SF 0) with (S754_zero false).
  assert (E : exists m e, Prim2SF 10 = S754_finite false m e)
    by (do 2 eexists; reflexivity).
  destruct E as (m10 & e10 & E). rewrite E.
  destruct (Prim2SF i) as [s|s| |s m e]; try destruct s;
    cbn [SFcompare]; try discriminate; intros _; try reflexivity.
  unfold SF64mul, SFmul. cbn [xorb]. unfold binary_round_aux.
  destruct (shr_fexp _ _ _ _ _) as [mrs' e'].
  destruct (shr_fexp _ _ _ _ _) as [mrs'' e''].
  destruct (shr_m mrs''); try reflexivity.
  destruct (_ <=? _)%Z; reflexivity.
Qed.

(** *** Sums of bytes are exact *)

Lemma int_of_add a b : int_of (a + b) = PrimInt63.add (int_of a) (int_of b).
Proof.
  apply Uint63.to_Z_inj. unfold int_of.
  rewrite Uint63.add_spec, !Uint63.of_Z_spec, Nat2Z.inj_add.
  apply Z.add_mod. discriminate.
Qed.

Lemma int_of_S n : int_of (S n) = PrimInt63.add (int_of n) int_one.
Proof. rewrite <- Nat.add_1_r. apply int_of_add. Qed.

Lemma all_from_spec f n : forall k,
  all_from f n (int_of k) = true ->
  forall j, (k <= j < k + n)%nat -> f (int_of j) = true.
Proof.
  induction n as [|n IH]; intros k H j Hj; [lia|].
  cbn [all_from] in H. apply andb_prop in H. destruct H as [H0 H].
  destruct (Nat.eq_dec j k) as [->|Hne]; [exact H0|].
  rewrite <- int_of_S in H. apply (IH (S k) H). lia.
Qed.

Lemma add_exact_table : all_from add_exact_row 4846 (int_of 0) = true.
Proof. vm_compute. reflexivity. Qed.

(** Every total from 2000 (an average of 100) up to the largest possible
    one maps to the cap. *)
Lemma capped_table : all_from capped 3101 (int_of 2000) = true.
Proof. vm_compute. reflexivity. Qed.

Lemma number_add a b :
  (a <= 4845)%nat -> (b <= 255)%nat -> number a + number b = number (a + b).
Proof.
  intros Ha Hb. unfold number. rewrite int_of_add.
  apply Leibniz.eqb_spec.
  apply (all_from_spec _ _ _
           (all_from_spec _ _ _ add_exact_table a ltac:(lia))).
  lia.
Qed.

Lemma elements_firstn d : forall n,
  (n <= List.length d)%nat ->
  map (element d) (seq 0 n) = map number_of_byte (firstn n d).
Proof.
  induction d as [|b d IH]; intros n Hn.
  - destruct n; [reflexivity | cbn in Hn; lia].
  - destruct n as [|n]; [reflexivity|].
    cbn [seq firstn map]. rewrite <- seq_shift, map_map.
    cbn [List.length] in Hn. rewrite <- (IH n) by lia. reflexivity.
Qed.

Lemma fold_left_elements d l a :
  fold_left (fun sum i => sum + element d i) l a
  = fold_left PrimFloat.add (map (element d) l) a.
Proof. revert a. induction l as [|i l IH]; intros a; cbn; auto. Qed.

Lemma sum_bytes_exact l : forall a,
  (a + 255 * List.length l <= 255 * 20)%nat ->
  fold_left PrimFloat.add (map number_of_byte l) (number a)
  = number (a + list_sum (map Byte.to_nat l)).
Proof.
  induction l as [|b l IH]; intros a Ha.
  - cbn. rewrite Nat.add_0_r. reflexivity.
  - cbn [map fold_left list_sum List.length] in *.
    pose proof (Byte.to_nat_bounded b) as Hb.
    change (number_of_byte b) with (number (Byte.to_nat b)).
    rewrite number_add by lia.
    rewrite IH by lia. apply (f_equal number).
    unfold list_sum. cbn [fold_right]. lia.
Qed.

(** The loop's [sum] is the integer total of the first twenty bins. *)
Lemma sum_bins_exact d :
  (20 <= List.length d)%nat -> sum_bins d = number (low_band_total d).
Proof.
  intros Hd. unfold sum_bins, low_band_total.
  rewrite fold_left_elements, elements_firstn by exact Hd.
  change 0 with (number 0). rewrite sum_bytes_exact; [reflexivity|].
  rewrite length_firstn. lia.
Qed.

Lemma low_band_total_bounded d : (low_band_total d <= 255 * 20)%nat.
Proof.
  unfold low_band_total.
  assert (H : forall l,
             (list_sum (map Byte.to_nat l) <= 255 * List.length l)%nat).
  { induction l as [|b l IH]; [cbn; lia|].
    pose proof (Byte.to_nat_bounded b).
    unfold list_sum in *. cbn [map fold_right List.length]. lia. }
  specialize (H (firstn 20 d)). rewrite length_firstn in H. lia.
Qed.

(** From an average of 100 on, the intensity is the cap. *)
Lemma speakingIntensity_capped d :
  (20 <= List.length d)%nat -> (2000 <= low_band_total d)%nat ->
  speakingIntensity d = 2.
Proof.
  intros Hd Ht. unfold speakingIntensity, average.
  rewrite sum_bins_exact by exact Hd.
  pose proof (low_band_total_bounded d) as Hb.
  apply Leibniz.eqb_spec.
  apply (all_from_spec _ _ _ capped_table). lia.
Qed.

(** ** Drawing *)

Ltac crop_cases :=
  match goal with
  | |- context [crop ?b] =>
      let sx := fresh "sx" in let sy := fresh "sy" in
      let sw := fresh "sw" in let sh := fresh "sh" in
      destruct (crop b) as [[[sx sy] sw] sh] eqn:?
  end.

Ltac draw_cases :=
  repeat match goal with
    | |- context [match ?x with Some _ => _ | None => _ end] =>
        destruct x eqn:?
    | |- context [if ?b then _ else _] => destruct b eqn:?
    end.

(** [drawAvatar] reads nothing of the closures. *)
Lemma drawAvatar_with_closures v i f w :
  drawAvatar v i (with_closures f w)
  = map_completion (with_closures f) (drawAvatar v i w).
Proof.
  destruct v; cbn [drawAvatar]; unfold drawAvatar_app, drawAvatar_overlay;
    cbn [globals with_closures];
    destruct (avatarImage (globals w)), (faceDetection (globals w));
    try reflexivity; crop_cases; draw_cases; reflexivity.
Qed.

(** The rest pose never throws. *)
Lemma drawAvatar_0_returns v w : exists w', drawAvatar v 0 w = Normal w'.
Proof.
  destruct v; cbn [drawAvatar]; unfold drawAvatar_app, drawAvatar_overlay;
    destruct (avatarImage (globals w)), (faceDetection (globals w));
    try (eexists; reflexivity); crop_cases;
    change (0 <? 0) with false; cbv iota; eexists; reflexivity.
Qed.

(** C3. For every intensity, [drawAvatar] called while [avatarImage] or
    [faceDetection] is unset returns normally and leaves the canvas and
    every other part of the state as it was. *)
Theorem drawAvatar_unset_noop (v : Variant) (i : float) (w : World) :
  avatarImage (globals w) = None \/ faceDetection (globals w) = None ->
  drawAvatar v i w = Normal w.
Proof.
  intros [H|H]; destruct v; cbn [drawAvatar];
    unfold drawAvatar_app, drawAvatar_overlay; rewrite H;
    try reflexivity; destruct (avatarImage (globals w)); reflexivity.
Qed.

Lemma drawAvatar_unset_noop_witness :
  avatarImage (globals initial) = None
  /\ drawAvatar Part000 2 initial = Normal initial.
Proof.
  split; [reflexivity|].
  apply (drawAvatar_unset_noop Part000 2 initial). left. reflexivity.
Defined.

Lemma getByteFrequencyData_length freq : forall arr,
  List.length (getByteFrequencyData freq arr) = List.length arr.
Proof.
  induction freq as [|f freq IH]; intros [|a arr]; cbn; auto.
Qed.

Lemma then_schedule_dom sid c :
  dom (world_of (then_schedule sid c)) = dom (world_of c).
Proof. destruct c; reflexivity. Qed.

Lemma map_completion_dom f c :
  (forall w, dom (f w) = dom w) ->
  dom (world_of (map_completion f c)) = dom (world_of c).
Proof. intros H. destruct c; cbn; apply H. Qed.

(** C2, as stated, fails: [drawAvatar] does not clamp.  With the sample
    avatar, intensity 3 paints the image into a larger rectangle than
    intensity 2 does in [app.js] (212 against 208 pixels wide), so that the
    canvas corner shows a different point of the photo; in [part_000] it
    paints a taller ellipse (radius 30 against 20), which covers the canvas
    point (100, 157) that the smaller one leaves out. *)
Lemma drawAvatar_not_clamped :
  (2 <=? 3) = true
  /\ avatarCanvas (dom (world_of (drawAvatar AppJs 3
                                   (with_avatar photo face initial))))
     <> avatarCanvas (dom (world_of (drawAvatar AppJs 2
                                      (with_avatar photo face initial))))
  /\ avatarCanvas (dom (world_of (drawAvatar Part000 3
                                   (with_avatar photo face initial))))
     <> avatarCanvas (dom (world_of (drawAvatar Part000 2
                                      (with_avatar photo face initial))))
  /\ (exists x3 y3 x2 y2,
        option_map (fun o => source_point o 0 0)
                   (first_op (world_of (drawAvatar AppJs 3
                                          (with_avatar photo face initial))))
        = Some (Some (x3, y3))
        /\ option_map (fun o => source_point o 0 0)
                      (first_op (world_of (drawAvatar AppJs 2
                                             (with_avatar photo face initial))))
           = Some (Some (x2, y2))
        /\ (x2 <? x3) = true /\ (y2 <? y3) = true)
  /\ option_map (fun o => inside_ellipse o 100 157)
                (last_op (world_of (drawAvatar Part000 3
                                      (with_avatar photo face initial))))
     = Some true
  /\ option_map (fun o => inside_ellipse o 100 157)
                (last_op (world_of (drawAvatar Part000 2
                                      (with_avatar photo face initial))))
     = Some false.
Proof.
  split; [reflexivity|]. split; [|split; [|split; [|split]]].
  - intros H.
    apply (f_equal (fun c => match Canvas.ops c with
                             | [DrawImage _ _ _ _ _ _ _ dw _] =>
                                 Leibniz.eqb dw 212
                             | _ => false
                             end)) in H.
    vm_compute in H. discriminate H.
  - intros H.
    apply (f_equal (fun c => match Canvas.ops c with
                             | [_; FillEllipse _ _ _ _ _ radiusY _ _ _] =>
                                 Leibniz.eqb radiusY 30
                             | _ => false
                             end)) in H.
    vm_compute in H. discriminate H.
  - vm_compute. repeat eexists.
  - vm_compute. reflexivity.
  - vm_compute. reflexivity.
Qed.

(** C5, as stated, fails: only the origin is clamped.  For a face at the
    right edge of a 400 pixel wide photo the region starts at 250 and is
    200 wide, so it ends at 450, outside the image, in both variants. *)
Lemma crop_exceeds_image :
  Canvas.ops (avatarCanvas (dom (world_of
    (drawAvatar AppJs 0 (with_avatar photo edge_face initial)))))
  = [DrawImage photo 250 10 200 220 (-0) (-0) 200 200]
  /\ Canvas.ops (avatarCanvas (dom (world_of
       (drawAvatar Part000 0 (with_avatar photo edge_face initial)))))
     = [DrawImage photo 250 10 200 220 0 0 200 200]
  /\ (250 + 200 <=? Image.width photo) = false.
Proof. repeat split; vm_compute; reflexivity. Qed.

(** C5, amended.  [drawAvatar] paints from the face box expanded by
    padding = 0.5 * box.width on every side, with the origin clamped at 0:
    sx and sy are never negative.  The size, box.width + 2 * padding by
    box.height + 2 * padding, is not clamped, so the region may extend past
    the right and bottom edges of the image. *)
Theorem crop_origin_clamped (v : Variant) (i : float) (w : World)
  (image : Image.t) (fd : WithFaceLandmarks) :
  avatarImage (globals w) = Some image ->
  faceDetection (globals w) = Some fd ->
  let b := box (detection fd) in
  let padding := Box.width b * 0.5 in
  exists sx sy dx dy dw dh rest,
    Canvas.ops (avatarCanvas (dom (world_of (drawAvatar v i w))))
    = DrawImage image sx sy (Box.width b + padding * 2)
                (Box.height b + padding * 2) dx dy dw dh :: rest
    /\ sx = Math_max 0 (Box.x b - padding)
    /\ sy = Math_max 0 (Box.y b - padding)
    /\ (sx <? 0) = false /\ (sy <? 0) = false.
Proof.
  intros Hi Hd b padding.
  exists (Math_max 0 (Box.x b - padding)), (Math_max 0 (Box.y b - padding)).
  destruct v; cbn [drawAvatar]; unfold drawAvatar_app, drawAvatar_overlay;
    rewrite Hi, Hd; unfold crop; fold b; fold padding;
    draw_cases; cbn; repeat eexists; apply Math_max_0_not_negative.
Qed.

Lemma crop_origin_clamped_witness :
  exists sx sy dx dy dw dh rest,
    Canvas.ops (avatarCanvas (dom (world_of
      (drawAvatar AppJs 1 (with_avatar photo face initial)))))
    = DrawImage photo sx sy (100 + 100 * 0.5 * 2) (120 + 100 * 0.5 * 2)
                dx dy dw dh :: rest
    /\ sx = Math_max 0 (80 - 100 * 0.5)
    /\ sy = Math_max 0 (60 - 100 * 0.5)
    /\ (sx <? 0) = false /\ (sy <? 0) = false.
Proof.
  apply (crop_origin_clamped AppJs 1 (with_avatar photo face initial)
                             photo face); reflexivity.
Defined.

(** C7, as stated, fails: the ellipse is not centred on the midpoint of the
    mouth corners.  On the smiling sample face the corners [mouth[0]] and
    [mouth[6]] are at height 140 while the ellipse is centred at the height
    of the inner-lip midpoint, 155 (in canvas coordinates 131.8 against
    118.2). *)
Lemma ellipse_not_at_corner_midpoint :
  nth_error smile 0 = Some (point 100 140)
  /\ nth_error smile 6 = Some (point 160 140)
  /\ exists cx cy rx ry,
       last_op (world_of (drawAvatar Part000 1
                            (with_avatar photo face initial)))
       = Some (FillEllipse 0.7 "#1a0a0a" cx cy rx ry 0 0 (Math_PI * 2))
       /\ Leibniz.eqb cy
            (Point.y (to_canvas (box (detection face))
                                (midpoint (point 100 140) (point 160 140))))
          = false.
Proof.
  split; [reflexivity|]. split; [reflexivity|].
  vm_compute. repeat eexists.
Qed.

(** C7, amended.  In the overlay variant, for every intensity > 0 and
    every mouth that has the points 0, 6, 14 and 18 with [mouth[6]] not left
    of [mouth[0]], the ellipse is centred on the midpoint of [mouth[14]] and
    [mouth[18]] (the inner-lip points) taken to canvas coordinates, and its
    horizontal radius is 0.4 times the canvas-scaled distance between the
    other pair, the corners [mouth[0]] and [mouth[6]]; the vertical radius
    is 10 times the intensity. *)
Theorem ellipse_geometry (i : float) (w : World) (image : Image.t)
  (fd : WithFaceLandmarks) (m0 m6 m14 m18 : Point.t) :
  avatarImage (globals w) = Some image ->
  faceDetection (globals w) = Some fd ->
  (0 <? i) = true ->
  nth_error (getMouth (landmarks fd)) 0 = Some m0 ->
  nth_error (getMouth (landmarks fd)) 6 = Some m6 ->
  nth_error (getMouth (landmarks fd)) 14 = Some m14 ->
  nth_error (getMouth (landmarks fd)) 18 = Some m18 ->
  let b := box (detection fd) in
  let sw := Box.width b + Box.width b * 0.5 * 2 in
  let radiusX := (Point.x m6 - Point.x m0) * (size / sw) * 0.4 in
  (radiusX <? 0) = false ->
  let centre := to_canvas b (midpoint m14 m18) in
  last_op (world_of (drawAvatar Part000 i w))
  = Some (FillEllipse 0.7 "#1a0a0a" (Point.x centre) (Point.y centre)
                      radiusX (i * 10) 0 0 (Math_PI * 2)).
Proof.
  intros Hi Hd Hpos H0 H6 H14 H18 b sw radiusX Hr centre.
  cbn [drawAvatar]. unfold drawAvatar_overlay.
  rewrite Hi, Hd, Hpos, H0, H6, H14, H18.
  unfold centre, to_canvas, crop. fold b.
  cbn beta iota zeta.
  fold sw. fold radiusX.
  rewrite Hr, (mul_ten_not_negative i Hpos), andb_false_r.
  reflexivity.
Qed.

Lemma ellipse_geometry_witness :
  last_op (world_of (drawAvatar Part000 1 (with_avatar photo face initial)))
  = Some (FillEllipse 0.7 "#1a0a0a"
            (Point.x (to_canvas (box (detection face))
                                (midpoint (point 130 150) (point 130 160))))
            (Point.y (to_canvas (box (detection face))
                                (midpoint (point 130 150) (point 130 160))))
            ((160 - 100) * (size / (100 + 100 * 0.5 * 2)) * 0.4)
            (1 * 10) 0 0 (Math_PI * 2)).
Proof.
  apply (ellipse_geometry 1 (with_avatar photo face initial) photo face
                          (point 100 140) (point 160 140)
                          (point 130 150) (point 130 160));
    reflexivity.
Defined.

(** ** Frame properties of the handlers *)

Lemma drawAvatar_only_canvas v i w :
  exists c, world_of (drawAvatar v i w) = with_avatarCanvas (fun _ => c) w.
Proof.
  destruct v; cbn [drawAvatar]; unfold drawAvatar_app, drawAvatar_overlay;
    destruct (avatarImage (globals w)), (faceDetection (globals w));
    try (exists (avatarCanvas (dom w)); destruct w as [g [] p c];
         reflexivity);
    crop_cases; draw_cases; cbn [world_of]; eexists;
    destruct w as [g [] p c]; reflexivity.
Qed.

Ltac break_match :=
  match goal with
  | |- context [match ?x with _ => _ end] => destruct x eqn:?
  end.

(** Replace a call of [drawAvatar] by the canvas it leaves. *)
Ltac draw_step :=
  match goal with
  | |- context [drawAvatar ?v ?i ?w] =>
      let c := fresh "c" in let Hc := fresh "Hc" in
      destruct (drawAvatar_only_canvas v i w) as [c Hc];
      destruct (drawAvatar v i w); cbn [world_of] in Hc; subst
  end.

Create HintDb handlers.
#[local] Hint Unfold avatar_change image_loaded image_failed detected
  detect_failed upload_catch submit chat_finally ended_handler error_handler
  play_catch after_resume install_and_play then_schedule animateLipSync
  cancelAnimationFrame revokeObjectURL createMediaElementSource
  playAudioWithLipSync_app playAudioWithLipSync_overlay : handlers.

(** Has the element its source node already? *)
Ltac source_step :=
  match goal with
  | |- context [mediaElementSource ?p] =>
      destruct (mediaElementSource p) eqn:?
  end.

(** The two outcomes of [createMediaElementSource] in a call of
    [part_000] from [w]. *)
Ltac source_cases w :=
  unfold createMediaElementSource;
  cbn [platform with_audioPlayer with_dom with_platform mediaElementSource];
  destruct (mediaElementSource (platform w)) eqn:?.

Ltac frame_solve :=
  repeat (autounfold with handlers; cbn -[atob drawAvatar];
          try draw_step; try source_step; try break_match);
  try reflexivity.

Lemma microtasks_globals w : globals (microtasks w) = globals w.
Proof. unfold microtasks. destruct (existsb _ _); reflexivity. Qed.

Lemma playAudio_chatHistory v c b w :
  chatHistory (globals (playAudioWithLipSync v c b w))
  = chatHistory (globals w).
Proof. destruct v; cbn [playAudioWithLipSync]; frame_solve. Qed.

Lemma playAudio_avatar v c b w : same_avatar w (playAudioWithLipSync v c b w).
Proof. destruct v; cbn [playAudioWithLipSync]; split; frame_solve. Qed.

Lemma animateLipSync_globals v sid f w :
  globals (world_of (animateLipSync v sid f w)) = globals w.
Proof. frame_solve. Qed.

Lemma run_frame_globals v f w : globals (run_frame v f w) = globals w.
Proof.
  unfold run_frame.
  change (globals w) with (globals (set_frameCallbacks [] w)).
  generalize (set_frameCallbacks [] w) as w0.
  induction (frameCallbacks (platform w)) as [|cb l IH]; intros w0;
    cbn [fold_left].
  - reflexivity.
  - rewrite IH. apply animateLipSync_globals.
Qed.

Lemma run_snoc v trace e w : run v (trace ++ [e]) w = step v e (run v trace w).
Proof. unfold run. rewrite fold_left_app. reflexivity. Qed.

(** ** Chat history *)

Lemma update_history_spec m t h :
  update_history m t h = slice_last 20 (h ++ exchange m t).
Proof.
  unfold update_history, exchange. rewrite <- app_assoc. cbn [app].
  destruct (20 <? _)%nat eqn:E; [reflexivity|].
  apply Nat.ltb_ge in E. unfold slice_last.
  replace (_ - 20)%nat with 0%nat by lia. reflexivity.
Qed.

Lemma slice_last_length {A} n (l : list A) :
  (List.length (slice_last n l) <= n)%nat.
Proof. unfold slice_last. rewrite length_skipn. lia. Qed.

(** What an event does to the history once the handler has run. *)
Lemma run_task_chatHistory v e w :
  chatHistory (globals (run_task v e w))
  = match e with
    | FetchSettled chat (FetchOk text _) _ =>
        match nth_error (chats (closures w)) chat with
        | Some {| message := m; chat_stage := AwaitFetch |} =>
            update_history m text (chatHistory (globals w))
        | _ => chatHistory (globals w)
        end
    | _ => chatHistory (globals w)
    end.
Proof.
  destruct e; cbn [run_task].
  all: try (frame_solve; fail).
  - unfold fetch_settled, chat_finally.
    destruct (nth_error _ _) as [[m []]|]; destruct r; try reflexivity.
    destruct (truthy _); [|reflexivity].
    cbn [globals with_chats with_closures].
    rewrite playAudio_chatHistory. reflexivity.
  - apply f_equal, run_frame_globals.
Qed.

(** C10. After any sequence of events the history holds at most 20
    entries.  The only event that changes it is a successful reply to a
    pending submit, which replaces it by the last 20 entries of the old
    history followed by the new exchange (user message, then reply): the
    most recent entries come last and the oldest are dropped. *)
Theorem chatHistory_bounded (v : Variant) (trace : list Event) (e : Event) :
  let w := run v trace initial in
  let h := chatHistory (globals w) in
  (List.length h <= 20)%nat
  /\ chatHistory (globals (step v e w))
     = match e with
       | FetchSettled chat (FetchOk text _) _ =>
           match nth_error (chats (closures w)) chat with
           | Some {| message := m; chat_stage := AwaitFetch |} =>
               slice_last 20 (h ++ exchange m text)
           | _ => h
           end
       | _ => h
       end.
Proof.
  cbv zeta. split.
  - induction trace as [|e' trace IH] using rev_ind; [cbn; lia|].
    rewrite run_snoc. unfold step.
    rewrite microtasks_globals, run_task_chatHistory.
    repeat break_match; try exact IH;
      rewrite update_history_spec; apply slice_last_length.
  - unfold step. rewrite microtasks_globals, run_task_chatHistory.
    repeat break_match; try reflexivity; apply update_history_spec.
Qed.

(** ** Avatar upload *)

Lemma microtasks_canvas w :
  avatarCanvas (dom (microtasks w)) = avatarCanvas (dom w).
Proof. unfold microtasks. destruct (existsb _ _); reflexivity. Qed.

Lemma run_task_avatar v e w : avatar_effect v e w (run_task v e w).
Proof.
  destruct e; cbn [run_task avatar_effect]; unfold same_avatar.
  all: try (split; frame_solve; fail).
  - destruct found as [d|]; [|split; frame_solve].
    unfold detected.
    destruct (nth_error _ _) as [[i []]|]; try (split; reflexivity).
    change (set_avatarImage (Some i) (set_faceDetection (Some d) w))
      with (with_avatar i d w).
    repeat split; frame_solve.
  - unfold fetch_settled, chat_finally.
    destruct (nth_error _ _) as [[m []]|]; try (split; reflexivity).
    destruct r; [split; reflexivity|].
    destruct (truthy _); [|split; reflexivity].
    cbn [globals with_chats with_closures].
    apply (playAudio_avatar v created _ (set_chatHistory _ w)).
  - rewrite run_frame_globals. split; reflexivity.
Qed.

Lemma step_avatar v e w : avatar_effect v e w (step v e w).
Proof.
  pose proof (run_task_avatar v e w) as H. unfold step.
  unfold avatar_effect, same_avatar in *.
  rewrite microtasks_globals, microtasks_canvas. exact H.
Qed.

(** C9. At every point an event can observe, [avatarImage] and
    [faceDetection] are both set or both unset.  The only event that
    changes either is a detector answer with a face for an upload awaiting
    it: that one step sets both, to the uploaded image and its detection,
    and the avatar it draws is drawn from that new pair.  Every other event,
    among them a detector answer without a face, a detector failure and an
    image that fails to load, leaves both as they were. *)
Theorem avatar_pair_atomic (v : Variant) (trace : list Event) (e : Event) :
  let w := run v trace initial in
  both_or_neither w /\ avatar_effect v e w (step v e w).
Proof.
  cbv zeta. split; [|apply step_avatar].
  induction trace as [|e' trace IH] using rev_ind; [split; reflexivity|].
  rewrite run_snoc.
  pose proof (step_avatar v e' (run v trace initial)) as H.
  unfold both_or_neither, avatar_effect, same_avatar in *.
  repeat match type of H with
         | context [match ?x with _ => _ end] => destruct x eqn:?
         end;
    try (destruct H as [-> ->]; exact IH);
    destruct H as (-> & -> & _); split; discriminate.
Qed.

(** ** Sessions: what can reach a closure *)

Lemma nth_error_update_nth_ne {A} (f : A -> A) l : forall n m,
  n <> m -> nth_error (update_nth m f l) n = nth_error l n.
Proof.
  induction l as [|a l IH]; intros [|n] [|m] H; cbn; try reflexivity;
    try congruence. apply IH. congruence.
Qed.

Lemma nth_error_update_nth_eq {A} (f : A -> A) l : forall n,
  nth_error (update_nth n f l) n = option_map f (nth_error l n).
Proof. induction l as [|a l IH]; intros [|n]; cbn; auto. Qed.

Lemma keeps_refl s : keeps s s.
Proof. split; auto. Qed.

Lemma keeps_trans s1 s2 s3 : keeps s1 s2 -> keeps s2 s3 -> keeps s1 s3.
Proof.
  intros [B1 P1] [B2 P2]. split; [auto|].
  intros H. rewrite P2, P1; auto. rewrite P1; auto.
Qed.

Lemma extends_refl l : extends l l.
Proof. intros sid s H. exists s. split; [exact H | apply keeps_refl]. Qed.

Lemma extends_trans l1 l2 l3 :
  extends l1 l2 -> extends l2 l3 -> extends l1 l3.
Proof.
  intros H12 H23 sid s H. destruct (H12 sid s H) as (s2 & E2 & K2).
  destruct (H23 sid s2 E2) as (s3 & E3 & K3).
  exists s3. split; [exact E3 | exact (keeps_trans _ _ _ K2 K3)].
Qed.

Lemma extends_update_nth l sid f :
  (forall s, nth_error l sid = Some s -> keeps s (f s)) ->
  extends l (update_nth sid f l).
Proof.
  intros Hf sid' s H. destruct (Nat.eq_dec sid' sid) as [->|Hne].
  - rewrite nth_error_update_nth_eq, H. eexists. split; [reflexivity|auto].
  - rewrite nth_error_update_nth_ne by exact Hne.
    exists s. split; [exact H | apply keeps_refl].
Qed.

Lemma extends_app l x : extends l (l ++ x).
Proof.
  intros sid s H. exists s. split; [|apply keeps_refl].
  rewrite nth_error_app1; [exact H|]. apply nth_error_Some. congruence.
Qed.

(** The updates a handler applies to its own session. *)
Lemma keeps_set_animationId id s : keeps s (set_animationId id s).
Proof. split; auto. Qed.

Lemma keeps_set_progress g s : keeps s (set_progress g s).
Proof. split; auto. Qed.

Lemma keeps_settle_promise o s : keeps s (settle_promise o s).
Proof.
  split; [auto|]. intros H. cbn. unfold settle.
  destruct (promise s); [congruence|reflexivity|reflexivity].
Qed.

Lemma keeps_new_dataArray s :
  keeps s (set_dataArray (repeat x00 frequencyBinCount) s).
Proof. split; [intros _; apply repeat_length | auto]. Qed.

Lemma keeps_getByteFrequencyData freq s :
  keeps s (set_dataArray (getByteFrequencyData freq (dataArray s)) s).
Proof.
  split; [|auto]. cbn. rewrite getByteFrequencyData_length. auto.
Qed.

Lemma sessions_extend_refl w w' :
  sessions (closures w') = sessions (closures w) -> sessions_extend w w'.
Proof. unfold sessions_extend. intros ->. apply extends_refl. Qed.

Lemma sessions_extend_trans w1 w2 w3 :
  sessions_extend w1 w2 -> sessions_extend w2 w3 -> sessions_extend w1 w3.
Proof. apply extends_trans. Qed.

Lemma update_session_extends sid f w :
  (forall s, session sid w = Some s -> keeps s (f s)) ->
  sessions_extend w (update_session sid f w).
Proof. intros H. apply extends_update_nth, H. Qed.

Lemma animateLipSync_extends v sid f w :
  sessions_extend w (world_of (animateLipSync v sid f w)).
Proof.
  unfold animateLipSync, then_schedule.
  destruct (session sid w) as [s|] eqn:Hs; [|apply extends_refl].
  apply (sessions_extend_trans _
           (update_session sid (set_dataArray
              (getByteFrequencyData f (dataArray s))) w)).
  - apply update_session_extends. intros s' Hs'.
    assert (s' = s) as -> by congruence. apply keeps_getByteFrequencyData.
  - draw_step; [|apply sessions_extend_refl; reflexivity].
    apply extends_update_nth. intros. apply keeps_set_animationId.
Qed.

Lemma resolve_extends sid w w' :
  sessions (closures w') = sessions (closures w) ->
  sessions_extend w (resolve sid w').
Proof.
  intros E. unfold sessions_extend, resolve. cbn. rewrite E.
  apply extends_update_nth. intros. apply keeps_settle_promise.
Qed.

Lemma ended_handler_extends v sid w :
  sessions_extend w (world_of (ended_handler v sid w)).
Proof.
  unfold ended_handler.
  destruct (session sid w) as [s|]; [|apply extends_refl].
  draw_step; cbn [world_of].
  - apply resolve_extends.
    destruct v, (animationId s), (audioUrl s); reflexivity.
  - apply sessions_extend_refl. destruct (animationId s); reflexivity.
Qed.

Lemma error_handler_extends v sid w :
  sessions_extend w (world_of (error_handler v sid w)).
Proof.
  unfold error_handler.
  destruct (session sid w) as [s|]; [|apply extends_refl].
  cbn [world_of]. apply resolve_extends.
  destruct v, (animationId s), (audioUrl s); reflexivity.
Qed.

Lemma install_and_play_extends sid w :
  sessions_extend w (install_and_play sid w).
Proof.
  unfold sessions_extend, install_and_play. cbn.
  eapply extends_trans; apply extends_update_nth; intros;
    [apply keeps_new_dataArray | apply keeps_set_progress].
Qed.

Lemma after_resume_extends sid w : sessions_extend w (after_resume sid w).
Proof.
  unfold after_resume. destruct (session sid w); [|apply extends_refl].
  eapply sessions_extend_trans; [|apply install_and_play_extends].
  apply sessions_extend_refl. reflexivity.
Qed.

Lemma playAudio_extends v c b w :
  sessions_extend w (playAudioWithLipSync v c b w).
Proof.
  assert (Hpush : forall s w', sessions (closures w') = sessions (closures w) ->
                               sessions_extend w (push_session s w')).
  { intros s w' E. unfold sessions_extend, push_session. cbn. rewrite E.
    apply extends_app. }
  destruct v; cbn [playAudioWithLipSync];
    unfold playAudioWithLipSync_app, playAudioWithLipSync_overlay;
    (destruct (atob b); [|apply Hpush; reflexivity]); cbn [createObjectURL].
  - match goal with |- context [push_session ?s ?w'] =>
      assert (Hp := Hpush s w'
                ltac:(cbn [globals with_platform];
                      destruct (audioContext (globals w)); reflexivity));
      set (w1 := push_session s w') in * end.
    destruct (audioContext (globals w1)) as [[]|]; try exact Hp;
      apply (sessions_extend_trans _ _ _ Hp), after_resume_extends.
  - source_cases w; [apply Hpush; reflexivity|].
    eapply sessions_extend_trans; [|apply install_and_play_extends].
    apply Hpush. reflexivity.
Qed.

Lemma run_frame_extends v f w : sessions_extend w (run_frame v f w).
Proof.
  unfold run_frame.
  assert (H0 : sessions_extend w (set_frameCallbacks [] w))
    by (apply sessions_extend_refl; reflexivity).
  revert H0. generalize (set_frameCallbacks [] w) as w0.
  induction (frameCallbacks (platform w)) as [|cb l IH]; intros w0 H0;
    cbn [fold_left]; [exact H0|].
  apply IH. apply (sessions_extend_trans _ _ _ H0), animateLipSync_extends.
Qed.

Lemma microtasks_machinery w : machinery (microtasks w) = machinery w.
Proof. unfold microtasks. destruct (existsb _ _); reflexivity. Qed.

(** No event drops a session, shrinks a data array or changes a settled
    promise. *)
Lemma step_extends v e w : sessions_extend w (step v e w).
Proof.
  unfold step.
  apply (sessions_extend_trans _ (run_task v e w));
    [|apply sessions_extend_refl;
      exact (f_equal (fun m => fst (fst m)) (microtasks_machinery _))].
  destruct e; cbn [run_task].
  all: try (apply sessions_extend_refl; frame_solve; fail).
  - unfold fetch_settled.
    destruct (nth_error _ _) as [[m []]|]; try apply extends_refl.
    destruct r; [apply sessions_extend_refl; reflexivity|].
    destruct (truthy _); [|apply sessions_extend_refl; reflexivity].
    eapply sessions_extend_trans; [|apply sessions_extend_refl; reflexivity].
    apply (sessions_extend_trans _ (set_chatHistory
             (update_history m text (chatHistory (globals w))) w));
      [apply sessions_extend_refl; reflexivity | apply playAudio_extends].
  - destruct v; [|apply extends_refl].
    destruct (session sid w) as [[? ? ? ? []]|]; try apply extends_refl.
    apply (sessions_extend_trans _ (set_audioContext (Some running) w));
      [apply sessions_extend_refl; reflexivity | apply after_resume_extends].
  - destruct (onplay _); [apply animateLipSync_extends | apply extends_refl].
  - destruct (onended _); [apply ended_handler_extends | apply extends_refl].
  - destruct (onerror _); [apply error_handler_extends | apply extends_refl].
  - destruct (session sid w) as [[? ? ? ? []]|]; try apply extends_refl.
    eapply sessions_extend_trans;
      [apply update_session_extends; intros; apply keeps_set_progress|].
    destruct fulfilled; [apply extends_refl|].
    unfold play_catch. apply resolve_extends. reflexivity.
  - apply run_frame_extends.
Qed.

Lemma run_extends v trace : forall w, sessions_extend w (run v trace w).
Proof.
  induction trace as [|e trace IH]; intros w; [apply extends_refl|].
  cbn [run fold_left].
  exact (sessions_extend_trans _ _ _ (step_extends v e w) (IH _)).
Qed.

(** A settled promise is final: once the promise of a session is fulfilled
    or rejected, no sequence of events changes it. *)
Lemma settled_is_final v trace w sid s :
  session sid w = Some s -> promise s <> Pending ->
  option_map promise (session sid (run v trace w)) = Some (promise s).
Proof.
  intros Hs Hp. destruct (run_extends v trace w sid s Hs) as (s' & E & _ & K).
  unfold session. rewrite E. cbn. rewrite (K Hp). reflexivity.
Qed.

(** ** Handlers and callbacks belong to sessions with a data array *)

Lemma known_extends w w' h : sessions_extend w w' -> known w h -> known w' h.
Proof.
  intros E H sid Hh. destruct (H sid Hh) as (s & Hs & Hb).
  destruct (E sid s Hs) as (s' & Hs' & Kb & _). exists s'. auto.
Qed.

(** A state is well formed when it extends a well-formed one and each of
    its handlers and callbacks is an old one or belongs to a known
    session. *)
Lemma well_formed_from w w' :
  well_formed w -> sessions_extend w w' ->
  (onplay (audioPlayer (dom w')) = onplay (audioPlayer (dom w))
   \/ known w' (onplay (audioPlayer (dom w')))) ->
  (onended (audioPlayer (dom w')) = onended (audioPlayer (dom w))
   \/ known w' (onended (audioPlayer (dom w')))) ->
  (onerror (audioPlayer (dom w')) = onerror (audioPlayer (dom w))
   \/ known w' (onerror (audioPlayer (dom w')))) ->
  Forall (fun cb => In cb (frameCallbacks (platform w))
                    \/ known w' (Some (snd cb)))
         (frameCallbacks (platform w')) ->
  well_formed w'.
Proof.
  intros (H1 & H2 & H3 & H4) E P1 P2 P3 Hcb. unfold well_formed.
  repeat split.
  - destruct P1 as [-> | K]; eauto using known_extends.
  - destruct P2 as [-> | K]; eauto using known_extends.
  - destruct P3 as [-> | K]; eauto using known_extends.
  - revert Hcb. apply Forall_impl. intros cb [Hin | K]; [|exact K].
    rewrite Forall_forall in H4. exact (known_extends _ _ _ E (H4 cb Hin)).
Qed.

Lemma well_formed_machinery w w' :
  machinery w' = machinery w -> well_formed w -> well_formed w'.
Proof.
  unfold machinery, well_formed, known, session.
  intros [= -> -> -> -> ->]. auto.
Qed.

Lemma Forall_old {A} (P : A -> Prop) (l : list A) :
  Forall (fun x => In x l \/ P x) l.
Proof. apply Forall_forall. auto. Qed.

Lemma animateLipSync_well_formed v sid f w :
  known w (Some sid) -> well_formed w ->
  well_formed (world_of (animateLipSync v sid f w)).
Proof.
  intros Hk H.
  apply (well_formed_from w _ H (animateLipSync_extends v sid f w));
    try (left; frame_solve; fail).
  pose proof (known_extends _ _ _ (animateLipSync_extends v sid f w) Hk) as Hk'.
  revert Hk'. unfold animateLipSync, then_schedule.
  destruct (session sid w) as [s|]; [|intros _; apply Forall_old].
  draw_step; cbn [world_of]; intros Hk'; [|apply Forall_old].
  cbn. apply Forall_app. split.
  - apply Forall_forall. auto.
  - constructor; [right; exact Hk' | constructor].
Qed.

Lemma Forall_filter_old {A} (P : A -> Prop) f (l : list A) :
  Forall (fun x => In x l \/ P x) (filter f l).
Proof. apply Forall_forall. intros x H. apply filter_In in H. tauto. Qed.

Lemma ended_handler_well_formed v sid w :
  well_formed w -> well_formed (world_of (ended_handler v sid w)).
Proof.
  intros H.
  apply (well_formed_from w _ H (ended_handler_extends v sid w));
    try (left; frame_solve; fail).
  unfold ended_handler. destruct (session sid w) as [s|]; [|apply Forall_old].
  draw_step; destruct v, (animationId s), (audioUrl s); cbn;
    apply Forall_filter_old || apply Forall_old.
Qed.

Lemma error_handler_well_formed v sid w :
  well_formed w -> well_formed (world_of (error_handler v sid w)).
Proof.
  intros H.
  apply (well_formed_from w _ H (error_handler_extends v sid w));
    try (left; frame_solve; fail).
  unfold error_handler. destruct (session sid w) as [s|]; [|apply Forall_old].
  destruct v, (animationId s), (audioUrl s); cbn;
    apply Forall_filter_old || apply Forall_old.
Qed.

Lemma install_and_play_known sid w :
  session sid w <> None -> known (install_and_play sid w) (Some sid).
Proof.
  intros Hs sid' [= <-]. unfold session, install_and_play in *. cbn.
  rewrite !nth_error_update_nth_eq.
  destruct (nth_error _ sid) as [s|]; [|congruence].
  eexists. split; reflexivity.
Qed.

Lemma install_and_play_well_formed sid w :
  session sid w <> None -> well_formed w ->
  well_formed (install_and_play sid w).
Proof.
  intros Hs H. pose proof (install_and_play_known sid w Hs) as K.
  apply (well_formed_from w _ H (install_and_play_extends sid w));
    try (right; exact K).
  apply Forall_old.
Qed.

Lemma after_resume_well_formed sid w :
  well_formed w -> well_formed (after_resume sid w).
Proof.
  intros H. unfold after_resume.
  destruct (session sid w) as [s|] eqn:E; [|exact H].
  apply install_and_play_well_formed.
  - unfold session in *. cbn. congruence.
  - revert H. apply well_formed_machinery. reflexivity.
Qed.

Lemma push_session_well_formed s w w' :
  machinery w' = machinery w -> well_formed w ->
  well_formed (push_session s w').
Proof.
  intros E H. apply (well_formed_machinery w w' E) in H.
  apply (well_formed_from w' _ H); try (left; reflexivity).
  - unfold sessions_extend, push_session. cbn. apply extends_app.
  - apply Forall_old.
Qed.

Lemma session_pushed s w :
  session (List.length (sessions (closures w))) (push_session s w) = Some s.
Proof.
  unfold session, push_session. cbn.
  rewrite nth_error_app2, Nat.sub_diag by lia. reflexivity.
Qed.

Lemma playAudio_well_formed v c b w :
  well_formed w -> well_formed (playAudioWithLipSync v c b w).
Proof.
  intros H.
  destruct v; cbn [playAudioWithLipSync];
    unfold playAudioWithLipSync_app, playAudioWithLipSync_overlay.
  - destruct (atob b); [|apply (push_session_well_formed _ w w eq_refl H)].
    cbn [createObjectURL].
    match goal with |- context [push_session ?s ?w'] =>
      assert (Hp := push_session_well_formed s w w'
                ltac:(cbn [globals with_platform];
                      destruct (audioContext (globals w)); reflexivity) H);
      set (w1 := push_session s w') in * end.
    destruct (audioContext (globals w1)) as [[]|]; try exact Hp;
      apply after_resume_well_formed, Hp.
  - destruct (atob b); [|apply (push_session_well_formed _ w w eq_refl H)].
    cbn [createObjectURL].
    source_cases w;
      [apply (push_session_well_formed _ w); [reflexivity|exact H]|].
    apply install_and_play_well_formed.
    + unfold session, push_session. cbn.
      rewrite nth_error_app2, Nat.sub_diag by lia. discriminate.
    + apply (push_session_well_formed _ w); [reflexivity|exact H].
Qed.

Lemma run_frame_well_formed v f w :
  well_formed w -> well_formed (run_frame v f w).
Proof.
  intros H. unfold run_frame.
  assert (Hcb : Forall (fun cb => known w (Some (snd cb)))
                       (frameCallbacks (platform w))) by apply H.
  assert (H0 : well_formed (set_frameCallbacks [] w)).
  { destruct H as (H1 & H2 & H3 & H4). repeat split; auto. }
  assert (E0 : sessions_extend w (set_frameCallbacks [] w))
    by (apply sessions_extend_refl; reflexivity).
  revert H0 E0. generalize (set_frameCallbacks [] w) as w0.
  induction Hcb as [|cb l Hk Hl IH]; intros w0 H0 E0; cbn [fold_left];
    [exact H0|].
  apply IH.
  - apply animateLipSync_well_formed; [|exact H0].
    exact (known_extends _ _ _ E0 Hk).
  - exact (sessions_extend_trans _ _ _ E0 (animateLipSync_extends _ _ _ _)).
Qed.

Lemma step_well_formed v e w : well_formed w -> well_formed (step v e w).
Proof.
  intros H. unfold step.
  apply (well_formed_machinery _ _ (microtasks_machinery _)).
  pose proof H as (H1 & H2 & H3 & H4).
  destruct e; cbn [run_task].
  all: try (revert H; apply well_formed_machinery; unfold machinery;
            frame_solve; fail).
  - unfold fetch_settled.
    destruct (nth_error _ _) as [[m []]|]; try exact H.
    assert (Hm : forall w', machinery w' = machinery w -> well_formed w')
      by (intros w' E; exact (well_formed_machinery w w' E H)).
    destruct r; [apply Hm; reflexivity|].
    destruct (truthy _); [|apply Hm; reflexivity].
    apply (well_formed_machinery
             (playAudioWithLipSync v created
                match audio_base64 with Some b => b | None => ""%string end
                (set_chatHistory
                   (update_history m text (chatHistory (globals w))) w)));
      [reflexivity|].
    apply playAudio_well_formed, Hm. reflexivity.
  - destruct v; [|exact H].
    destruct (session sid w) as [[? ? ? ? []]|] eqn:Hs0; try exact H.
    apply after_resume_well_formed.
    revert H. apply well_formed_machinery. reflexivity.
  - destruct (onplay _) as [sid'|] eqn:E; [|exact H].
    apply animateLipSync_well_formed; [exact H1|exact H].
  - destruct (onended _) as [sid'|] eqn:E; [|exact H].
    apply ended_handler_well_formed, H.
  - destruct (onerror _) as [sid'|] eqn:E; [|exact H].
    apply error_handler_well_formed, H.
  - pose proof (step_extends v (PlayPromise sid fulfilled) w) as E.
    unfold step in E.
    apply (sessions_extend_trans _ _ (run_task v (PlayPromise sid fulfilled) w))
      in E; [|apply sessions_extend_refl;
               exact (f_equal (fun m => fst (fst m))
                              (eq_sym (microtasks_machinery _)))].
    cbn [run_task] in E.
    apply (well_formed_from w _ H E); try (left; frame_solve; fail).
    destruct (session sid w) as [[? ? ? ? []]|]; try apply Forall_old;
      destruct fulfilled; apply Forall_old.
  - apply run_frame_well_formed, H.
Qed.

(** Every state the page can reach is well formed. *)
Lemma reachable_well_formed v trace : well_formed (run v trace initial).
Proof.
  induction trace as [|e trace IH] using rev_ind.
  - repeat split; try discriminate; constructor.
  - rewrite run_snoc. apply step_well_formed, IH.
Qed.

(** ** The sampling loop *)

Lemma scheduled_known w sid :
  well_formed w -> scheduled sid w ->
  exists s, session sid w = Some s
            /\ List.length (dataArray s) = frequencyBinCount.
Proof.
  intros (H1 & _ & _ & H4) [H | H]; [exact (H1 sid H)|].
  apply in_map_iff in H. destruct H as (cb & <- & Hin).
  rewrite Forall_forall in H4. exact (H4 cb Hin _ eq_refl).
Qed.

Lemma getByteFrequencyData_full freq : forall arr,
  List.length freq = List.length arr -> getByteFrequencyData freq arr = freq.
Proof.
  induction freq as [|f freq IH]; intros [|a arr] H; cbn in *;
    try discriminate; try reflexivity.
  rewrite IH by congruence. reflexivity.
Qed.

Lemma run_well_formed v trace : forall w,
  well_formed w -> well_formed (run v trace w).
Proof.
  induction trace as [|e trace IH]; intros w H; [exact H|].
  cbn [run fold_left]. apply IH, step_well_formed, H.
Qed.

Lemma clip_requested_well_formed v : well_formed (clip_requested v).
Proof.
  apply run_well_formed.
  apply (well_formed_machinery initial); [reflexivity|].
  apply (reachable_well_formed v []).
Qed.

(** What one iteration hands to [drawAvatar], in any well-formed state
    (every reachable state is one, and so is every state between two
    callbacks of a frame) and for any session whose loop can run. *)
Lemma animateLipSync_draws v sid freq w :
  well_formed w -> scheduled sid w ->
  List.length freq = frequencyBinCount ->
  animateLipSync v sid freq w
  = then_schedule sid
      (drawAvatar v (speakingIntensity freq)
                  (update_session sid (set_dataArray freq) w)).
Proof.
  intros Hw Hsch Hf. destruct (scheduled_known w sid Hw Hsch) as (s & Hs & Hb).
  unfold animateLipSync. rewrite Hs.
  rewrite getByteFrequencyData_full by congruence. reflexivity.
Qed.

(** C2, amended.  The clamp is in the sampling loop, not in [drawAvatar]:
    on every frame whose first twenty bins total at least 2000 (an average
    of 100, so average / 50 >= 2), [animateLipSync] leaves exactly the
    canvas that [drawAvatar(2)] paints. *)
Theorem loud_frames_draw_the_cap (v : Variant) (sid : nat) (freq : list byte)
  (w : World) :
  well_formed w -> scheduled sid w ->
  List.length freq = frequencyBinCount ->
  (2000 <= low_band_total freq)%nat ->
  avatarCanvas (dom (world_of (animateLipSync v sid freq w)))
  = avatarCanvas (dom (world_of (drawAvatar v 2 w))).
Proof.
  intros Hw Hsch Hf Hloud.
  rewrite animateLipSync_draws by assumption.
  rewrite speakingIntensity_capped
    by (try rewrite Hf; try assumption; apply Nat.leb_le; reflexivity).
  rewrite then_schedule_dom. unfold update_session, with_sessions.
  rewrite drawAvatar_with_closures, map_completion_dom; reflexivity.
Qed.

Lemma loud_frames_draw_the_cap_witness :
  scheduled 0 (clip_requested AppJs)
  /\ avatarCanvas (dom (world_of (animateLipSync AppJs 0 loud
                                   (clip_requested AppJs))))
     = avatarCanvas (dom (world_of (drawAvatar AppJs 2
                                      (clip_requested AppJs)))).
Proof.
  split; [left; reflexivity|].
  apply (loud_frames_draw_the_cap AppJs 0 loud (clip_requested AppJs)).
  - apply clip_requested_well_formed.
  - left. reflexivity.
  - reflexivity.
  - apply Nat.leb_le. vm_compute. reflexivity.
Defined.

(** The clamp, total by total. *)
Lemma below_cap_table : all_from below_cap 2000 (int_of 0) = true.
Proof. vm_compute. reflexivity. Qed.

Lemma at_cap_table : all_from at_cap (255 * 20 - 1999) (int_of 2000) = true.
Proof. vm_compute. reflexivity. Qed.

(** C4. On every iteration of the sampling loop, that is on every run of
    [animateLipSync] in a session that has its 128-bin data array, the
    intensity handed to [drawAvatar] is min(total / 20 / 50, 2), where
    total is the integer sum of the first twenty frequency bytes.  Said
    without the minimum: under a total of 2000 it is the quotient
    total / 20 / 50 itself, which is below 2; from a total of 2000 on (an
    average of 100 or more) the quotient is at least 2 and the intensity
    is exactly 2; and it is 0 when the twenty bins are all zero. *)
Theorem sampling_intensity (v : Variant) (sid : nat) (s : Session)
  (freq : list byte) (w : World) :
  session sid w = Some s ->
  List.length (dataArray s) = frequencyBinCount ->
  List.length freq = frequencyBinCount ->
  let total := low_band_total freq in
  let quotient := number total / 20 / 50 in
  exists i,
    animateLipSync v sid freq w
    = then_schedule sid
        (drawAvatar v i (update_session sid (set_dataArray freq) w))
    /\ i = Math_min quotient 2
    /\ ((total < 2000)%nat -> i = quotient /\ (quotient <? 2) = true)
    /\ ((2000 <= total)%nat -> i = 2 /\ (2 <=? quotient) = true)
    /\ (total = 0%nat -> i = 0).
Proof.
  intros Hs Hd Hf. cbv zeta.
  assert (E : speakingIntensity freq
              = intensity_of_total (int_of (low_band_total freq))).
  { unfold speakingIntensity, average.
    rewrite sum_bins_exact; [reflexivity|].
    rewrite Hf. apply Nat.leb_le. reflexivity. }
  pose proof (low_band_total_bounded freq) as Hb.
  exists (speakingIntensity freq). split; [|split; [|split; [|split]]].
  - unfold animateLipSync. rewrite Hs.
    rewrite getByteFrequencyData_full by congruence. reflexivity.
  - exact E.
  - intros Ht.
    pose proof (all_from_spec _ _ _ below_cap_table
                  (low_band_total freq) ltac:(lia)) as H.
    apply andb_prop in H. destruct H as [H1 H2].
    split; [|exact H2]. rewrite E. apply Leibniz.eqb_spec, H1.
  - intros Ht.
    pose proof (all_from_spec _ _ _ at_cap_table
                  (low_band_total freq) ltac:(lia)) as H.
    apply andb_prop in H. destruct H as [H1 H2].
    split; [|exact H2]. rewrite E. apply Leibniz.eqb_spec, H1.
  - intros Ht. rewrite E, Ht. vm_compute. reflexivity.
Qed.

Lemma sampling_intensity_witness :
  (exists i,
     animateLipSync Part000 0 blast (clip_requested Part000)
     = then_schedule 0
         (drawAvatar Part000 i
            (update_session 0 (set_dataArray blast) (clip_requested Part000)))
     /\ i = 2)
  /\ (exists i,
        animateLipSync AppJs 0 murmur (clip_requested AppJs)
        = then_schedule 0
            (drawAvatar AppJs i
               (update_session 0 (set_dataArray murmur)
                               (clip_requested AppJs)))
        /\ i = 1).
Proof.
  split.
  - destruct (sampling_intensity Part000 0
                {| audioUrl := None; animationId := None; dataArray := silent;
                   promise := Pending; progress := PlayRequested |}
                blast (clip_requested Part000))
      as (i & H1 & _ & _ & H2 & _);
      [vm_compute; reflexivity | reflexivity | reflexivity |].
    exists i. split; [exact H1|]. apply H2. vm_compute. lia.
  - destruct (sampling_intensity AppJs 0
                {| audioUrl := Some 0%nat; animationId := None;
                   dataArray := silent;
                   promise := Pending; progress := PlayRequested |}
                murmur (clip_requested AppJs))
      as (i & H1 & _ & H2 & _);
      [vm_compute; reflexivity | reflexivity | reflexivity |].
    exists i. split; [exact H1|].
    destruct H2 as [H2 _]; [vm_compute; lia|]. rewrite H2.
    vm_compute. reflexivity.
Defined.

(** ** A session whose executor threw *)

Lemma animateLipSync_stuck v sid sid' f w :
  sid <> sid' -> stuck sid w ->
  stuck sid (world_of (animateLipSync v sid' f w)).
Proof.
  intros Hne [(s & Hs & Hp & Hg) (H1 & H2 & H3 & H4)].
  unfold stuck, idle, animateLipSync, then_schedule.
  destruct (session sid' w) as [s'|]; [|cbn; eauto 10].
  draw_step; cbn -[nth_error]; unfold session; cbn;
    rewrite ?nth_error_update_nth_ne by exact Hne;
    (split; [eauto|]); repeat split; auto.
  apply Forall_app. split; [assumption|]. repeat constructor. cbn. congruence.
Qed.

Lemma stuck_machinery sid w w' :
  machinery w' = machinery w -> stuck sid w -> stuck sid w'.
Proof.
  unfold machinery, stuck, idle, session. intros [= -> -> -> -> ->]. auto.
Qed.

Lemma run_frame_stuck v sid f w : stuck sid w -> stuck sid (run_frame v f w).
Proof.
  intros H. unfold run_frame.
  assert (Hcb : Forall (fun cb => snd cb <> sid) (frameCallbacks (platform w)))
    by apply H.
  assert (H0 : stuck sid (set_frameCallbacks [] w)).
  { destruct H as [Hs (H1 & H2 & H3 & H4)]. repeat split; auto. }
  revert H0. generalize (set_frameCallbacks [] w) as w0.
  induction Hcb as [|cb l Hne Hl IH]; intros w0 H0; cbn [fold_left];
    [exact H0|].
  apply IH, animateLipSync_stuck; auto.
Qed.

Lemma ended_handler_stuck v sid sid' w :
  sid <> sid' -> stuck sid w -> stuck sid (world_of (ended_handler v sid' w)).
Proof.
  intros Hne [(s & Hs & Hp & Hg) (H1 & H2 & H3 & H4)].
  unfold stuck, idle, ended_handler.
  destruct (session sid' w) as [s'|]; [|cbn; eauto 10].
  draw_step; destruct v, (animationId s'), (audioUrl s');
    cbn -[nth_error]; unfold session; cbn;
    rewrite ?nth_error_update_nth_ne by exact Hne;
    (split; [eauto|]); repeat split; auto;
    apply Forall_forall; intros cb Hin; apply filter_In in Hin;
    rewrite Forall_forall in H4; apply H4, Hin.
Qed.

Lemma error_handler_stuck v sid sid' w :
  sid <> sid' -> stuck sid w -> stuck sid (world_of (error_handler v sid' w)).
Proof.
  intros Hne [(s & Hs & Hp & Hg) (H1 & H2 & H3 & H4)].
  unfold stuck, idle, error_handler.
  destruct (session sid' w) as [s'|]; [|cbn; eauto 10].
  destruct v, (animationId s'), (audioUrl s');
    cbn -[nth_error]; unfold session; cbn;
    rewrite ?nth_error_update_nth_ne by exact Hne;
    (split; [eauto|]); repeat split; auto;
    apply Forall_forall; intros cb Hin; apply filter_In in Hin;
    rewrite Forall_forall in H4; apply H4, Hin.
Qed.

Lemma install_and_play_stuck sid sid' w :
  sid <> sid' -> stuck sid w -> stuck sid (install_and_play sid' w).
Proof.
  intros Hne [(s & Hs & Hp & Hg) (H1 & H2 & H3 & H4)].
  unfold stuck, idle, install_and_play, session in *. cbn.
  rewrite !nth_error_update_nth_ne by exact Hne.
  split; [eauto|]. repeat split; auto; congruence.
Qed.

Lemma after_resume_stuck sid sid' w :
  sid <> sid' -> stuck sid w -> stuck sid (after_resume sid' w).
Proof.
  intros Hne H. unfold after_resume.
  destruct (session sid' w); [|exact H].
  apply install_and_play_stuck; [exact Hne|].
  revert H. apply stuck_machinery. reflexivity.
Qed.

Lemma playAudio_stuck v c b sid w :
  stuck sid w -> stuck sid (playAudioWithLipSync v c b w).
Proof.
  intros H.
  assert (Hlt : sid <> List.length (sessions (closures w))).
  { destruct H as [(s & Hs & _) _]. unfold session in Hs.
    apply Nat.lt_neq, nth_error_Some. congruence. }
  assert (Hpush : forall s' w', machinery w' = machinery w ->
                                stuck sid (push_session s' w')).
  { intros s' w' E.
    destruct (stuck_machinery sid w w' E H) as [(s & Hs & Hp) Hi].
    split; [|exact Hi]. exists s. split; [|exact Hp].
    unfold session, push_session in *. cbn.
    rewrite nth_error_app1; [exact Hs|]. apply nth_error_Some. congruence. }
  destruct v; cbn [playAudioWithLipSync];
    unfold playAudioWithLipSync_app, playAudioWithLipSync_overlay.
  - destruct (atob b); [|apply Hpush; reflexivity].
    cbn [createObjectURL].
    match goal with |- context [push_session ?s ?w'] =>
      assert (Hp := Hpush s w'
                ltac:(cbn [globals with_platform];
                      destruct (audioContext (globals w)); reflexivity));
      set (w1 := push_session s w') in * end.
    destruct (audioContext (globals w1)) as [[]|]; try exact Hp;
      apply after_resume_stuck; auto.
  - destruct (atob b); [|apply Hpush; reflexivity].
    cbn [createObjectURL].
    source_cases w; [apply Hpush; reflexivity|].
    apply install_and_play_stuck; [exact Hlt|].
    apply Hpush. reflexivity.
Qed.

Lemma session_progress_ne sid sid' w s s' :
  session sid w = Some s -> session sid' w = Some s' ->
  progress s <> progress s' -> sid <> sid'.
Proof. intros H H' Hne ->. congruence. Qed.

Lemma step_stuck v e sid w : stuck sid w -> stuck sid (step v e w).
Proof.
  intros H. unfold step.
  apply (stuck_machinery sid _ _ (microtasks_machinery _)).
  pose proof H as [(s & Hs & Hp & Hg) (H1 & H2 & H3 & H4)].
  destruct e; cbn [run_task].
  all: try (revert H; apply stuck_machinery; unfold machinery; frame_solve;
            fail).
  - (* FetchSettled *)
    unfold fetch_settled.
    destruct (nth_error _ _) as [[m []]|]; try exact H.
    assert (Hm : forall w', machinery w' = machinery w -> stuck sid w')
      by (intros w' E; exact (stuck_machinery sid w w' E H)).
    destruct r; [apply Hm; reflexivity|].
    destruct (truthy _); [|apply Hm; reflexivity].
    apply (stuck_machinery sid
             (playAudioWithLipSync v created
                match audio_base64 with Some b => b | None => ""%string end
                (set_chatHistory
                   (update_history m text (chatHistory (globals w))) w)));
      [reflexivity|].
    apply playAudio_stuck, Hm. reflexivity.
  - (* ResumeSettled *)
    destruct v; [|exact H].
    destruct (session sid0 w) as [[? ? ? ? []]|] eqn:Hs0; try exact H.
    apply after_resume_stuck.
    + eapply session_progress_ne; eauto. rewrite Hg. discriminate.
    + revert H. apply stuck_machinery. reflexivity.
  - destruct (onplay _) as [sid'|] eqn:E; [|exact H].
    apply animateLipSync_stuck; [congruence|exact H].
  - destruct (onended _) as [sid'|] eqn:E; [|exact H].
    apply ended_handler_stuck; [congruence|exact H].
  - destruct (onerror _) as [sid'|] eqn:E; [|exact H].
    apply error_handler_stuck; [congruence|exact H].
  - (* PlayPromise *)
    destruct (session sid0 w) as [[? ? ? ? []]|] eqn:Hs0; try exact H.
    assert (Hne : sid <> sid0)
      by (eapply session_progress_ne; eauto; rewrite Hg; discriminate).
    unfold stuck, idle, play_catch, session in *.
    destruct fulfilled; cbn; rewrite ?nth_error_update_nth_ne by exact Hne;
      (split; [eauto|]); auto.
  - apply run_frame_stuck, H.
Qed.

(** ** One loop at a time *)

Lemma drawAvatar_returns v i w :
  can_draw v w = true ->
  exists c, drawAvatar v i w = Normal (with_avatarCanvas (fun _ => c) w).
Proof.
  intros H.
  destruct (drawAvatar_only_canvas v i w) as [c Hc]. exists c.
  destruct (drawAvatar v i w) as [w'|w'] eqn:E; cbn [world_of] in Hc;
    [congruence|]. exfalso.
  destruct v; cbn [drawAvatar] in E;
    unfold drawAvatar_app, drawAvatar_overlay, can_draw in *.
  - destruct (avatarImage (globals w)), (faceDetection (globals w));
      try discriminate;
      destruct (crop _) as [[[sx sy] sw] sh]; discriminate.
  - destruct (avatarImage (globals w)), (faceDetection (globals w));
      try discriminate.
    destruct (crop _) as [[[sx sy] sw] sh].
    destruct (0 <? i) eqn:Hi; [|discriminate].
    destruct (nth_error _ 14); [|discriminate].
    destruct (nth_error _ 18); [|discriminate].
    destruct (nth_error _ 6); [|discriminate].
    destruct (nth_error _ 0); [|discriminate].
    apply negb_true_iff in H.
    rewrite H, (mul_ten_not_negative i Hi), andb_false_r in E. discriminate.
Qed.

Lemma can_draw_globals v w w' :
  globals w' = globals w -> can_draw v w' = can_draw v w.
Proof. unfold can_draw. intros ->. reflexivity. Qed.

Lemma animateLipSync_schedules v sid f w :
  can_draw v w = true -> session sid w <> None ->
  let w' := world_of (animateLipSync v sid f w) in
  frameCallbacks (platform w')
  = frameCallbacks (platform w) ++ [(nextHandle (platform w), sid)]
  /\ globals w' = globals w
  /\ session sid w' <> None.
Proof.
  intros Hd Hs. unfold animateLipSync.
  destruct (session sid w) as [s|] eqn:E; [|congruence].
  match goal with |- context [drawAvatar v ?i ?w1] =>
    destruct (drawAvatar_returns v i w1) as [c Hc];
      [rewrite <- Hd; apply can_draw_globals; reflexivity | rewrite Hc] end.
  cbn. repeat split. unfold session in *. cbn.
  rewrite !nth_error_update_nth_eq. rewrite E. discriminate.
Qed.

Lemma microtasks_keeps w :
  globals (microtasks w) = globals w /\ platform (microtasks w) = platform w
  /\ sessions (closures (microtasks w)) = sessions (closures w).
Proof. unfold microtasks. destruct (existsb _ _); auto. Qed.

Lemma step_frame_one_loop v sid f w :
  loop_ready v sid w -> one_loop sid w ->
  loop_ready v sid (step v (AnimationFrame f) w)
  /\ one_loop sid (step v (AnimationFrame f) w).
Proof.
  intros [Hd Hs] [h Hh]. unfold step. cbn [run_task]. unfold run_frame.
  rewrite Hh. cbn [fold_left snd].
  destruct (microtasks_keeps
              (world_of (animateLipSync v sid (f sid)
                                        (set_frameCallbacks [] w))))
    as (Eg & Ep & Es).
  destruct (animateLipSync_schedules v sid (f sid) (set_frameCallbacks [] w))
    as (Ec & Eg' & Es'); [exact Hd | exact Hs |].
  unfold loop_ready, one_loop, session in *.
  rewrite Ep, Es, Ec, (can_draw_globals v w _)
    by (rewrite Eg, Eg'; reflexivity).
  repeat split; auto. eexists. reflexivity.
Qed.

Lemma frames_one_loop v sid frames : forall w,
  loop_ready v sid w -> one_loop sid w ->
  one_loop sid (run v (map AnimationFrame frames) w).
Proof.
  induction frames as [|f frames IH]; intros w Hr Ho; [exact Ho|].
  cbn [map run fold_left].
  destruct (step_frame_one_loop v sid f w Hr Ho) as [Hr' Ho'].
  apply IH; assumption.
Qed.

(** A call schedules nothing and cancels nothing. *)
Lemma playAudio_keeps_callbacks v created b w :
  frameCallbacks (platform (playAudioWithLipSync v created b w))
  = frameCallbacks (platform w).
Proof. destruct v; cbn [playAudioWithLipSync]; frame_solve. Qed.


(** A second call in [app.js] while the first session's loop is scheduled
    (callback 1 of session 0): it returns with that callback still pending
    although the audio source has been swapped, and once the new clip's
    'play' signal fires two loops are scheduled, frame after frame. *)
Lemma second_call_leaves_first_loop :
  let w1 := run AppJs (one_reply ++ [MediaPlay loud])
                (with_avatar photo face initial) in
  let w2 := playAudioWithLipSync AppJs running "AAAA" w1 in
  frameCallbacks (platform w1) = [(1, 0)]%nat
  /\ frameCallbacks (platform w2) = [(1, 0)]%nat
  /\ audio_src (audioPlayer (dom w1)) = Some 0%nat
  /\ audio_src (audioPlayer (dom w2)) = Some 1%nat
  /\ frameCallbacks (platform (run AppJs [MediaPlay loud] w2))
     = [(1, 0); (2, 1)]%nat
  /\ frameCallbacks
       (platform (run AppJs [MediaPlay loud; AnimationFrame (fun _ => loud)]
                      w2))
     = [(3, 0); (4, 1)]%nat.
Proof. cbv zeta. repeat split; vm_compute; reflexivity. Qed.

Lemma playAudio_can_draw v c b w :
  can_draw v (playAudioWithLipSync v c b w) = can_draw v w.
Proof.
  destruct (playAudio_avatar v c b w) as [Hi Hf].
  unfold can_draw. rewrite Hi, Hf. reflexivity.
Qed.

Lemma extends_session w w' sid :
  sessions_extend w w' -> session sid w <> None -> session sid w' <> None.
Proof.
  intros He Hs. destruct (session sid w) as [s|] eqn:E; [|congruence].
  destruct (He sid s E) as (s' & Hs' & _). unfold session. congruence.
Qed.

Lemma step_frame_two_loops v sid sid' f w :
  can_draw v w = true -> session sid w <> None -> session sid' w <> None ->
  two_loops sid sid' w ->
  let w' := step v (AnimationFrame f) w in
  can_draw v w' = true /\ session sid w' <> None /\ session sid' w' <> None
  /\ two_loops sid sid' w'.
Proof.
  intros Hd Hs Hs' (h & h' & Hh). cbv zeta. unfold step. cbn [run_task].
  unfold run_frame. rewrite Hh. cbn [fold_left snd].
  set (w0 := set_frameCallbacks [] w).
  destruct (animateLipSync_schedules v sid (f sid) w0) as (Ec & Eg & Es);
    [exact Hd | exact Hs |].
  set (w1 := world_of (animateLipSync v sid (f sid) w0)) in *.
  assert (Hs1 : session sid' w1 <> None).
  { apply (extends_session w0); [|exact Hs'].
    apply animateLipSync_extends. }
  destruct (animateLipSync_schedules v sid' (f sid') w1) as (Ec' & Eg' & Es');
    [rewrite <- Hd; apply can_draw_globals; exact Eg | exact Hs1 |].
  set (w2 := world_of (animateLipSync v sid' (f sid') w1)) in *.
  destruct (microtasks_keeps w2) as (Mg & Mp & Ms).
  unfold two_loops, session in *. rewrite Mp, Ms.
  rewrite (can_draw_globals v w (microtasks w2))
    by (rewrite Mg, Eg', Eg; reflexivity).
  repeat split; try assumption.
  - apply (extends_session w1 w2 sid); [|exact Es].
    apply animateLipSync_extends.
  - rewrite Ec', Ec. cbn. eexists. eexists. reflexivity.
Qed.

Lemma frames_two_loops v sid sid' frames : forall w,
  can_draw v w = true -> session sid w <> None -> session sid' w <> None ->
  two_loops sid sid' w ->
  two_loops sid sid' (run v (map AnimationFrame frames) w).
Proof.
  induction frames as [|f frames IH]; intros w Hd Hs Hs' Ht; [exact Ht|].
  cbn [map run fold_left].
  destruct (step_frame_two_loops v sid sid' f w Hd Hs Hs' Ht)
    as (Hd1 & Hs1 & Hs1' & Ht1).
  apply IH; assumption.
Qed.

(** C8 fails in both variants: [playAudioWithLipSync] has no teardown.
    A call leaves the pending animation-frame callbacks exactly as they
    were, whatever the payload.  So when a loop of session [sid] is
    scheduled as the call is made (in a well-formed state, and with an
    avatar [drawAvatar] can draw, or none), that loop goes on scheduling,
    frame after frame; and once 'play' fires, the loop of the session
    [sid'] whose handler is then installed runs beside it: two callbacks
    are pending after that signal and after every later frame.  In
    [app.js] the second loop is the new session's; in [part_000], where a
    second call is rejected before it installs its handlers, it is a second
    loop of the first session. *)
Theorem play_cancels_nothing (v : Variant) (created : AudioContextState)
  (b : string) (w : World) (sid sid' h : nat) (freq : list byte)
  (frames : list (nat -> list byte)) :
  let w2 := playAudioWithLipSync v created b w in
  frameCallbacks (platform w2) = frameCallbacks (platform w)
  /\ (well_formed w -> can_draw v w = true -> session sid w <> None ->
      frameCallbacks (platform w) = [(h, sid)] ->
      one_loop sid (run v (map AnimationFrame frames) w2)
      /\ (onplay (audioPlayer (dom w2)) = Some sid' ->
          two_loops sid sid'
            (run v (MediaPlay freq :: map AnimationFrame frames) w2))).
Proof.
  cbv zeta. split; [apply playAudio_keeps_callbacks|].
  intros Hw Hd Hs Hq.
  set (w2 := playAudioWithLipSync v created b w).
  assert (Hd2 : can_draw v w2 = true)
    by (unfold w2; rewrite playAudio_can_draw; exact Hd).
  assert (Hs2 : session sid w2 <> None)
    by (apply (extends_session w); [apply playAudio_extends | exact Hs]).
  assert (Hq2 : frameCallbacks (platform w2) = [(h, sid)])
    by (unfold w2; rewrite playAudio_keeps_callbacks; exact Hq).
  split.
  - apply frames_one_loop; [split; assumption|]. exists h. exact Hq2.
  - intros Hon.
    assert (Hs2' : session sid' w2 <> None).
    { destruct (playAudio_well_formed v created b w Hw) as (Hk & _).
      destruct (Hk sid' Hon) as (s' & Hs' & _).
      fold w2 in Hs'. congruence. }
    cbn [run fold_left].
    fold (run v (map AnimationFrame frames) (step v (MediaPlay freq) w2)).
    unfold step at 1. cbn [run_task]. rewrite Hon.
    destruct (animateLipSync_schedules v sid' freq w2 Hd2 Hs2')
      as (Ec & Eg & Es).
    set (w3 := world_of (animateLipSync v sid' freq w2)) in *.
    destruct (microtasks_keeps w3) as (Mg & Mp & Ms).
    apply frames_two_loops.
    + rewrite (can_draw_globals v w2) by (rewrite Mg, Eg; reflexivity).
      exact Hd2.
    + unfold session. rewrite Ms.
      apply (extends_session w2 w3 sid); [|exact Hs2].
      apply animateLipSync_extends.
    + unfold session. rewrite Ms. exact Es.
    + unfold two_loops. rewrite Mp, Ec, Hq2. cbn.
      eexists. eexists. reflexivity.
Qed.

Lemma play_cancels_nothing_witness :
  (let w := run AppJs
                (one_reply ++ [MediaPlay loud; MediaPlay loud; MediaEnded])
                (with_avatar photo face initial) in
   let w2 := playAudioWithLipSync AppJs running "AAAA" w in
   option_map promise (session 0 w) = Some Fulfilled
   /\ inputDisabled (dom w) = false
   /\ frameCallbacks (platform w) = [(1, 0)]%nat
   /\ frameCallbacks (platform w2) = [(1, 0)]%nat
   /\ two_loops 0 1
        (run AppJs (MediaPlay loud
                      :: map AnimationFrame [fun _ => loud; fun _ => silent])
             w2))
  /\ (let w := run Part000 (one_reply ++ [MediaPlay loud])
                   (with_avatar photo face initial) in
      let w2 := playAudioWithLipSync Part000 running "AAAA" w in
      frameCallbacks (platform w2) = [(1, 0)]%nat
      /\ option_map promise (session 1 w2) = Some Rejected
      /\ two_loops 0 0
           (run Part000
                (MediaPlay loud
                   :: map AnimationFrame [fun _ => loud; fun _ => silent])
                w2)).
Proof.
  assert (Hw : forall v trace,
             well_formed (run v trace (with_avatar photo face initial))).
  { intros v trace. apply run_well_formed.
    apply (well_formed_machinery initial); [reflexivity|].
    apply (reachable_well_formed v []). }
  cbv zeta. split.
  - split; [vm_compute; reflexivity|]. split; [vm_compute; reflexivity|].
    split; [vm_compute; reflexivity|].
    destruct (play_cancels_nothing AppJs running "AAAA"
                (run AppJs
                     (one_reply
                        ++ [MediaPlay loud; MediaPlay loud; MediaEnded])
                     (with_avatar photo face initial))
                0 1 1 loud [fun _ => loud; fun _ => silent]) as [H1 H2].
    split; [rewrite H1; vm_compute; reflexivity|].
    apply H2; try apply Hw; vm_compute; try reflexivity; discriminate.
  - destruct (play_cancels_nothing Part000 running "AAAA"
                (run Part000 (one_reply ++ [MediaPlay loud])
                     (with_avatar photo face initial))
                0 0 1 loud [fun _ => loud; fun _ => silent]) as [H1 H2].
    split; [rewrite H1; vm_compute; reflexivity|].
    split; [vm_compute; reflexivity|].
    apply H2; try apply Hw; vm_compute; try reflexivity; discriminate.
Defined.

(** ** Malformed payloads *)

Lemma run_stuck v sid trace : forall w,
  stuck sid w -> stuck sid (run v trace w).
Proof.
  induction trace as [|e trace IH]; intros w H; [exact H|].
  cbn [run fold_left]. apply IH, step_stuck, H.
Qed.

Lemma well_formed_idle w :
  well_formed w -> idle (List.length (sessions (closures w))) w.
Proof.
  assert (K : forall h, known w h ->
                        h <> Some (List.length (sessions (closures w)))).
  { intros h Hk E. destruct (Hk _ E) as (s & Hs & _). unfold session in Hs.
    apply (Nat.lt_irrefl (List.length (sessions (closures w)))).
    apply nth_error_Some. congruence. }
  intros (H1 & H2 & H3 & H4). unfold idle. repeat split; auto.
  revert H4. apply Forall_impl. intros cb H E.
  exact (K _ H (f_equal Some E)).
Qed.

(** C1 fails on a malformed payload, in every state the page can reach.
    When [atob] rejects the payload, the promise returned by [app.js] is
    still pending after any further sequence of events: nothing installed
    can resolve it.  The promise returned by [part_000] is rejected, and
    stays so. *)
Theorem malformed_payload_never_resolves (created : AudioContextState)
  (base64Audio : string) (before after : list Event) :
  atob base64Audio = None ->
  (let w := run AppJs before initial in
   option_map promise
     (session (List.length (sessions (closures w)))
              (run AppJs after
                   (playAudioWithLipSync AppJs created base64Audio w)))
   = Some Pending)
  /\ (let w := run Part000 before initial in
      option_map promise
        (session (List.length (sessions (closures w)))
                 (run Part000 after
                      (playAudioWithLipSync Part000 created base64Audio w)))
      = Some Rejected).
Proof.
  intros Hbad. cbv zeta. split.
  - set (w := run AppJs before initial).
    assert (H : stuck (List.length (sessions (closures w)))
                      (playAudioWithLipSync AppJs created base64Audio w)).
    { cbn [playAudioWithLipSync]. unfold playAudioWithLipSync_app.
      rewrite Hbad. split.
      - eexists. split; [apply session_pushed|]. split; reflexivity.
      - apply (well_formed_idle w), reachable_well_formed. }
    destruct (run_stuck AppJs _ after _ H) as [(s & Hs & Hp & _) _].
    rewrite Hs. cbn. rewrite Hp. reflexivity.
  - cbn [playAudioWithLipSync]. unfold playAudioWithLipSync_overlay.
    rewrite Hbad.
    apply (settled_is_final Part000 after _ _
                            (new_session None Rejected Threw));
      [apply session_pushed | discriminate].
Qed.

Lemma malformed_payload_never_resolves_witness :
  atob "!" = None
  /\ option_map promise
       (session 0 (run AppJs [MediaPlay loud; MediaEnded; MediaError]
                       (playAudioWithLipSync AppJs running "!" initial)))
     = Some Pending
  /\ option_map promise
       (session 0 (run Part000 [MediaPlay loud; MediaEnded; MediaError]
                       (playAudioWithLipSync Part000 running "!" initial)))
     = Some Rejected.
Proof.
  split; [reflexivity|].
  apply (malformed_payload_never_resolves
           running "!" [] [MediaPlay loud; MediaEnded; MediaError]).
  reflexivity.
Defined.

(** ** Releasing the object URL *)

Lemma run_frame_objectURLs v f w :
  objectURLs (platform (run_frame v f w)) = objectURLs (platform w).
Proof.
  unfold run_frame.
  change (objectURLs (platform w))
    with (objectURLs (platform (set_frameCallbacks [] w))).
  generalize (set_frameCallbacks [] w) as w0.
  induction (frameCallbacks (platform w)) as [|cb l IH]; intros w0;
    cbn [fold_left]; [reflexivity|].
  rewrite IH. frame_solve.
Qed.

Lemma microtasks_platform w : platform (microtasks w) = platform w.
Proof. unfold microtasks. destruct (existsb _ _); reflexivity. Qed.

(** In [part_000] no event takes a URL out of the table. *)
Lemma overlay_step_objectURLs e w :
  exists fresh,
    objectURLs (platform (step Part000 e w))
    = fresh ++ objectURLs (platform w).
Proof.
  unfold step. rewrite microtasks_platform.
  destruct e; cbn [run_task];
    try (exists []; frame_solve; fail).
  - unfold avatar_change.
    destruct (negb file); [exists []; reflexivity|].
    destruct (negb _); [exists []; reflexivity|].
    cbn. eexists [_]. reflexivity.
  - unfold fetch_settled, chat_finally.
    destruct (nth_error _ _) as [[m []]|]; try (exists []; reflexivity).
    destruct r; [exists []; reflexivity|].
    destruct (truthy _); [|exists []; reflexivity].
    cbn [playAudioWithLipSync]. unfold playAudioWithLipSync_overlay.
    destruct (atob _); [|exists []; reflexivity].
    unfold createMediaElementSource. cbn.
    destruct (mediaElementSource _); cbn; eexists [_]; reflexivity.
  - exists []. apply run_frame_objectURLs.
Qed.

Lemma not_in_filtered {A} (key : A -> nat) h l :
  ~ In h (map key (filter (fun x => negb (key x =? h)%nat) l)).
Proof.
  intros H. apply in_map_iff in H. destruct H as (x & <- & H).
  apply filter_In in H. destruct H as [_ H].
  rewrite Nat.eqb_refl in H. discriminate.
Qed.

(** What the 'ended' and 'error' handlers do in both variants: the
    callback recorded in [animationId] is cancelled, 'ended' draws the rest
    pose and 'error' leaves the canvas alone, and the promise is fulfilled
    unless it was settled already.  [app.js] also revokes [audioUrl]. *)
Lemma handlers_settle v sid w s :
  session sid w = Some s ->
  let we := world_of (ended_handler v sid w) in
  let wr := world_of (error_handler v sid w) in
  (forall h, animationId s = Some h ->
             ~ In h (map fst (frameCallbacks (platform we)))
             /\ ~ In h (map fst (frameCallbacks (platform wr))))
  /\ avatarCanvas (dom we) = avatarCanvas (dom (world_of (drawAvatar v 0 w)))
  /\ avatarCanvas (dom wr) = avatarCanvas (dom w)
  /\ option_map promise (session sid we)
     = Some (settle Fulfilled (promise s))
  /\ option_map promise (session sid wr)
     = Some (settle Fulfilled (promise s))
  /\ (v = AppJs ->
      forall u, audioUrl s = Some u ->
                ~ In u (objectURLs (platform we))
                /\ ~ In u (objectURLs (platform wr))).
Proof.
  intros Hs. cbv zeta. unfold ended_handler, error_handler. rewrite Hs.
  set (w1 := set_speaking false (cancelAnimationFrame (animationId s) w)).
  assert (Hc : avatarCanvas (dom (world_of (drawAvatar v 0 w1)))
               = avatarCanvas (dom (world_of (drawAvatar v 0 w)))).
  { assert (Hg : globals w1 = globals w)
      by (unfold w1; destruct (animationId s); reflexivity).
    assert (Hd : avatarCanvas (dom w1) = avatarCanvas (dom w))
      by (unfold w1; destruct (animationId s); reflexivity).
    destruct v; cbn [drawAvatar];
      unfold drawAvatar_app, drawAvatar_overlay; rewrite Hg;
      destruct (avatarImage (globals w)), (faceDetection (globals w));
      cbn [world_of]; rewrite ?Hd; try reflexivity;
      crop_cases; change (0 <? 0) with false; reflexivity. }
  destruct (drawAvatar_0_returns v w1) as [w' Hw'].
  destruct (drawAvatar_only_canvas v 0 w1) as [c Hw1].
  rewrite Hw' in Hc, Hw1 |- *. cbn [world_of] in Hc, Hw1. subst w'.
  unfold w1 in *. clear w1 Hw'.
  assert (Hp : forall w2, sessions (closures w2) = sessions (closures w) ->
                 option_map promise (session sid (resolve sid w2))
                 = Some (settle Fulfilled (promise s))).
  { intros w2 E. unfold session, resolve in *. cbn.
    rewrite nth_error_update_nth_eq, E, Hs. reflexivity. }
  split; [|split; [|split; [|split; [|split]]]].
  - intros h Hh. rewrite Hh.
    split; destruct v, (audioUrl s); cbn; apply (not_in_filtered fst).
  - rewrite <- Hc. destruct v, (animationId s), (audioUrl s); reflexivity.
  - destruct v, (animationId s), (audioUrl s); reflexivity.
  - cbn [world_of]. apply Hp.
    destruct v, (animationId s), (audioUrl s); reflexivity.
  - cbn [world_of]. apply Hp.
    destruct v, (animationId s), (audioUrl s); reflexivity.
  - intros -> u Hu. rewrite Hu.
    split; destruct (animationId s); cbn;
      intros H; apply filter_In in H; destruct H as [_ H];
      rewrite Nat.eqb_refl in H; discriminate.
Qed.

(** C6 fails in [part_000] on the release of the object URL.  Its 'ended'
    and 'error' handlers leave the table of live object URLs as it is, and
    so does every other event of that variant: after a clip has played to
    its end, or failed, the URL made for it is still live, while the
    promise is fulfilled and the loop is cancelled.  [app.js] revokes the
    URL in both handlers. *)
Theorem overlay_keeps_object_url :
  (forall sid w,
      objectURLs (platform (world_of (ended_handler Part000 sid w)))
      = objectURLs (platform w)
      /\ objectURLs (platform (world_of (error_handler Part000 sid w)))
         = objectURLs (platform w))
  /\ (forall e w, exists fresh,
         objectURLs (platform (step Part000 e w))
         = fresh ++ objectURLs (platform w))
  /\ objectURLs (platform (played Part000 MediaEnded)) = [0%nat]
  /\ objectURLs (platform (played Part000 MediaError)) = [0%nat]
  /\ objectURLs (platform (played AppJs MediaEnded)) = []
  /\ objectURLs (platform (played AppJs MediaError)) = []
  /\ option_map promise (session 0 (played Part000 MediaEnded))
     = Some Fulfilled
  /\ frameCallbacks (platform (played Part000 MediaEnded)) = [].
Proof.
  split; [|split].
  - intros sid w. split; frame_solve.
  - apply overlay_step_objectURLs.
  - repeat split; vm_compute; reflexivity.
Qed.

(** * Further properties *)

(** ** The intensity is a number between 0 and 2 and follows the energy *)

Lemma in_range_table : all_from in_range (255 * 20 + 1) (int_of 0) = true.
Proof. vm_compute. reflexivity. Qed.

Lemma rising_table : all_from rising (255 * 20) (int_of 0) = true.
Proof. vm_compute. reflexivity. Qed.

Lemma strictly_rising_table : all_from strictly_rising 2000 (int_of 0) = true.
Proof. vm_compute. reflexivity. Qed.

(** The order of binary64 values, case by case on their signs, exponents
    and mantissas. *)
Ltac order_cases x y z :=
  destruct x as [s1|s1| |s1 m1 e1], y as [s2|s2| |s2 m2 e2],
           z as [s3|s3| |s3 m3 e3];
  cbn [SFcompare]; try discriminate; try reflexivity;
  try (destruct s1, s2, s3; cbn; intros; try discriminate; reflexivity);
  try (destruct s1, s2; cbn; intros; try discriminate; reflexivity);
  try (destruct s1, s3; cbn; intros; try discriminate; reflexivity);
  try (destruct s2, s3; cbn; intros; try discriminate; reflexivity);
  destruct s1, s2, s3; try discriminate; try reflexivity;
  change (Pos.compare_cont Eq) with Pos.compare;
  repeat match goal with
    | |- context [(?a ?= ?b)%Z] => destruct (Z.compare_spec a b)
    | |- context [(?a ?= ?b)%positive] => destruct (Pos.compare_spec a b)
    end;
  cbn; intros; subst; try discriminate; try reflexivity; try lia.

Lemma SFleb_trans x y z :
  SFleb x y = true -> SFleb y z = true -> SFleb x z = true.
Proof. unfold SFleb. order_cases x y z. Qed.

Lemma SFltb_leb_trans x y z :
  SFltb x y = true -> SFleb y z = true -> SFltb x z = true.
Proof. unfold SFleb, SFltb. order_cases x y z. Qed.

Lemma SFleb_refl x y : SFleb x y = true -> SFleb x x = true.
Proof.
  unfold SFleb.
  destruct x as [s1|s1| |s1 m1 e1]; cbn [SFcompare];
    try discriminate; try reflexivity.
  - destruct s1; reflexivity.
  - intros _. destruct s1; rewrite Z.compare_refl;
      change (Pos.compare_cont Eq) with Pos.compare;
      rewrite Pos.compare_refl; reflexivity.
Qed.

Lemma leb_trans x y z :
  (x <=? y) = true -> (y <=? z) = true -> (x <=? z) = true.
Proof. rewrite !leb_spec. apply SFleb_trans. Qed.

Lemma ltb_leb_trans x y z :
  (x <? y) = true -> (y <=? z) = true -> (x <? z) = true.
Proof. rewrite !ltb_spec, leb_spec. apply SFltb_leb_trans. Qed.

Lemma leb_refl x y : (x <=? y) = true -> (x <=? x) = true.
Proof. rewrite !leb_spec. apply SFleb_refl. Qed.

Lemma intensity_total d :
  (20 <= List.length d)%nat ->
  speakingIntensity d = intensity_of_total (int_of (low_band_total d)).
Proof.
  intros Hd. unfold speakingIntensity, average.
  rewrite sum_bins_exact by exact Hd. reflexivity.
Qed.

Lemma intensity_of_total_in_range t :
  (t <= 255 * 20)%nat -> in_range (int_of t) = true.
Proof.
  intros Ht. apply (all_from_spec _ _ _ in_range_table). lia.
Qed.

Lemma intensity_of_total_rising n : forall t,
  (t + n <= 255 * 20)%nat ->
  (intensity_of_total (int_of t) <=? intensity_of_total (int_of (t + n)))
  = true.
Proof.
  induction n as [|n IH]; intros t Ht.
  - rewrite Nat.add_0_r.
    pose proof (intensity_of_total_in_range t ltac:(lia)) as H.
    apply andb_prop in H. destruct H as [_ H]. exact (leb_refl _ _ H).
  - apply leb_trans with (intensity_of_total (int_of (S t))).
    + rewrite int_of_S.
      apply (all_from_spec _ _ _ rising_table t). lia.
    + replace (t + S n)%nat with (S t + n)%nat by lia. apply IH. lia.
Qed.

(** X6. Whatever the analyser holds, the intensity [animateLipSync]
    computes from a data array of at least twenty bins is a number between
    0 and 2, and so never NaN. *)
Theorem intensity_in_range (d : list byte) :
  (20 <= List.length d)%nat ->
  (0 <=? speakingIntensity d) = true /\ (speakingIntensity d <=? 2) = true.
Proof.
  intros Hd. rewrite intensity_total by exact Hd.
  apply andb_prop, intensity_of_total_in_range, low_band_total_bounded.
Qed.

Lemma intensity_in_range_witness :
  (0 <=? speakingIntensity loud) = true
  /\ (speakingIntensity loud <=? 2) = true.
Proof. apply (intensity_in_range loud). vm_compute. lia. Defined.

(** X7. The intensity follows the energy of the low band: a larger total
    of the first twenty bins never gives a smaller intensity, and below the
    cap (a total under 2000) a larger total gives a strictly larger
    intensity. *)
Theorem intensity_monotone (d d' : list byte) :
  (20 <= List.length d)%nat -> (20 <= List.length d')%nat ->
  (low_band_total d <= low_band_total d')%nat ->
  (speakingIntensity d <=? speakingIntensity d') = true
  /\ ((low_band_total d < low_band_total d')%nat ->
      (low_band_total d < 2000)%nat ->
      (speakingIntensity d <? speakingIntensity d') = true).
Proof.
  intros Hd Hd' Hle. rewrite !intensity_total by assumption.
  pose proof (low_band_total_bounded d') as Hb.
  split.
  - replace (low_band_total d')
      with (low_band_total d + (low_band_total d' - low_band_total d))%nat
      by lia.
    apply intensity_of_total_rising. lia.
  - intros Hlt H2.
    apply ltb_leb_trans
      with (intensity_of_total (int_of (S (low_band_total d)))).
    + rewrite int_of_S.
      apply (all_from_spec _ _ _ strictly_rising_table (low_band_total d)).
      lia.
    + replace (low_band_total d')
        with (S (low_band_total d)
              + (low_band_total d' - S (low_band_total d)))%nat by lia.
      apply intensity_of_total_rising. lia.
Qed.

Lemma intensity_monotone_witness :
  (speakingIntensity silent <=? speakingIntensity loud) = true
  /\ (speakingIntensity silent <? speakingIntensity loud) = true.
Proof.
  assert (H : (20 <= List.length silent)%nat
              /\ (20 <= List.length loud)%nat
              /\ (low_band_total silent < low_band_total loud)%nat
              /\ (low_band_total silent < 2000)%nat)
    by (vm_compute; lia).
  destruct H as (H1 & H2 & H3 & H4).
  destruct (intensity_monotone silent loud H1 H2) as [Ha Hb]; [lia|].
  split; [exact Ha | exact (Hb H3 H4)].
Defined.

Local Close Scope float_scope.

(** ** Invariants of the reachable states *)

Lemma run_invariant (P : World -> Prop) v :
  P initial -> (forall e w, P w -> P (step v e w)) ->
  forall trace, P (run v trace initial).
Proof.
  intros H0 Hs trace.
  induction trace as [|e trace IH] using rev_ind; [exact H0|].
  rewrite run_snoc. apply Hs, IH.
Qed.

Lemma exchanges_length l : List.length (exchanges l) = (2 * List.length l)%nat.
Proof.
  induction l as [|p l IH]; [reflexivity|].
  change (exchanges (p :: l))
    with (exchange (fst p) (snd p) ++ exchanges l).
  rewrite length_app, IH. cbn. lia.
Qed.

Lemma exchanges_app l l' : exchanges (l ++ l') = exchanges l ++ exchanges l'.
Proof. apply flat_map_app. Qed.

Lemma update_history_exchanges m t l :
  (List.length l <= 10)%nat ->
  update_history m t (exchanges l)
  = exchanges (slice_last 10 (l ++ [(m, t)])).
Proof.
  intros Hl. rewrite update_history_spec.
  change (exchange m t) with (exchanges [(m, t)]).
  rewrite <- exchanges_app. unfold slice_last.
  rewrite exchanges_length, !length_app. cbn [List.length].
  destruct (Nat.eq_dec (List.length l) 10) as [E|E].
  - rewrite E. destruct l as [|p l]; [discriminate|]. reflexivity.
  - replace (2 * _ - 20)%nat with 0%nat by lia.
    replace (_ - 10)%nat with 0%nat by lia. reflexivity.
Qed.

(** X9. After any sequence of events the history is a sequence of at most
    ten whole exchanges, each a user entry followed by an assistant entry:
    trimming never splits an exchange, and the roles alternate. *)
Theorem chatHistory_whole_exchanges (v : Variant) (trace : list Event) :
  exists l, chatHistory (globals (run v trace initial)) = exchanges l
            /\ (List.length l <= 10)%nat.
Proof.
  apply (run_invariant
           (fun w => exists l, chatHistory (globals w) = exchanges l
                               /\ (List.length l <= 10)%nat)).
  - exists []. split; [reflexivity | cbn; lia].
  - intros e w (l & Hl & Hn). unfold step.
    rewrite microtasks_globals, run_task_chatHistory.
    repeat break_match; try (exists l; split; assumption).
    rewrite Hl, update_history_exchanges by exact Hn.
    eexists. split; [reflexivity | apply slice_last_length].
Qed.

Lemma run_frame_keeps {A} (f : World -> A) v freq w :
  (forall l w, f (set_frameCallbacks l w) = f w) ->
  (forall sid fr w, f (world_of (animateLipSync v sid fr w)) = f w) ->
  f (run_frame v freq w) = f w.
Proof.
  intros Hs Ha. unfold run_frame.
  transitivity (f (set_frameCallbacks [] w)); [|apply Hs].
  generalize (set_frameCallbacks [] w) as w0.
  induction (frameCallbacks (platform w)) as [|cb l IH]; intros w0;
    cbn [fold_left]; [reflexivity|].
  rewrite IH. apply Ha.
Qed.

Lemma microtasks_uploads w :
  uploads (closures (microtasks w)) = uploads (closures w).
Proof. unfold microtasks. destruct (existsb _ _); reflexivity. Qed.

Lemma animateLipSync_uploads v sid f w :
  uploads (closures (world_of (animateLipSync v sid f w)))
  = uploads (closures w).
Proof. frame_solve. Qed.

Lemma playAudio_uploads v c b w :
  uploads (closures (playAudioWithLipSync v c b w)) = uploads (closures w).
Proof. destruct v; cbn [playAudioWithLipSync]; frame_solve. Qed.

Lemma playAudio_globals_models v c b w :
  isModelLoaded (globals (playAudioWithLipSync v c b w))
  = isModelLoaded (globals w).
Proof. destruct v; cbn [playAudioWithLipSync]; frame_solve. Qed.

Lemma update_nth_nil {A} n (f : A -> A) : update_nth n f [] = [].
Proof. destruct n; reflexivity. Qed.

Lemma step_models_first v e w : models_first w -> models_first (step v e w).
Proof.
  unfold models_first, step. rewrite microtasks_globals, microtasks_uploads.
  destruct (isModelLoaded (globals w)) eqn:E.
  - intros _ H. exfalso. revert H.
    destruct e; cbn [run_task].
    all: try (frame_solve; congruence).
    + unfold fetch_settled, chat_finally.
      destruct (nth_error _ _) as [[m []]|]; try congruence.
      destruct r; [cbn; congruence|].
      destruct (truthy _); [|cbn; congruence].
      cbn [globals with_chats with_closures].
      rewrite playAudio_globals_models. cbn. congruence.
    + rewrite run_frame_globals. congruence.
  - intros H. destruct (H eq_refl) as (Hu & Hi & Hf). clear H.
    destruct e; cbn [run_task].
    all: try (intros _; frame_solve; repeat split; assumption).
    + intros _. unfold avatar_change. rewrite E.
      destruct file; cbn; repeat split; assumption.
    + intros _. unfold image_loaded. rewrite Hu, nth_error_nil.
      repeat split; assumption.
    + intros _. unfold image_failed. rewrite Hu, nth_error_nil.
      repeat split; assumption.
    + intros _. unfold detected. rewrite Hu, nth_error_nil.
      repeat split; assumption.
    + intros _. unfold detect_failed. rewrite Hu, nth_error_nil.
      repeat split; assumption.
    + intros _. pose proof (run_task_avatar v (FetchSettled chat r created) w)
        as [Hi' Hf'].
      cbn [run_task] in Hi', Hf'. rewrite Hi', Hf'.
      repeat split; try assumption.
      unfold fetch_settled, chat_finally.
      destruct (nth_error _ _) as [[m []]|]; try assumption.
      destruct r; [exact Hu|].
      destruct (truthy _); [|exact Hu].
      cbn [closures with_chats with_closures uploads].
      rewrite playAudio_uploads. exact Hu.
    + intros _. rewrite run_frame_globals.
      rewrite (run_frame_keeps (fun w => uploads (closures w)));
        [repeat split; assumption | reflexivity |].
      intros. apply animateLipSync_uploads.
Qed.

Lemma run_task_isModelLoaded v e w :
  isModelLoaded (globals w) = true ->
  isModelLoaded (globals (run_task v e w)) = true.
Proof.
  intros H. destruct e; cbn [run_task].
  all: try (frame_solve; exact H).
  - unfold fetch_settled, chat_finally.
    destruct (nth_error _ _) as [[m []]|]; try exact H.
    destruct r; [exact H|].
    destruct (truthy _); [|exact H].
    cbn [globals with_chats with_closures].
    rewrite playAudio_globals_models. exact H.
  - rewrite run_frame_globals. exact H.
Qed.

(** X10. An upload is started, and an avatar set, only once the face
    models are loaded; and in whatever state the models are loaded, every
    event leaves them loaded, also a later load that reports a failure. *)
Theorem avatar_needs_models (v : Variant) (trace : list Event) (e : Event)
  (w' : World) :
  let w := run v trace initial in
  (uploads (closures w) <> [] \/ avatarImage (globals w) <> None ->
   isModelLoaded (globals w) = true)
  /\ (isModelLoaded (globals w') = true ->
      isModelLoaded (globals (step v e w')) = true).
Proof.
  cbv zeta. split.
  - intros H.
    pose proof (run_invariant models_first v) as Hinv.
    destruct (isModelLoaded (globals (run v trace initial))) eqn:E;
      [reflexivity|].
    destruct (Hinv ltac:(intros _; repeat split; reflexivity)
                   (step_models_first v) trace E) as (Hu & Hi & _).
    destruct H; contradiction.
  - intros E. unfold step. rewrite microtasks_globals.
    apply run_task_isModelLoaded, E.
Qed.

Lemma avatar_needs_models_witness :
  isModelLoaded (globals (run AppJs [ModelsLoaded true; AvatarChange true]
                              initial)) = true
  /\ isModelLoaded
       (globals (step AppJs (ModelsLoaded false)
                      (run AppJs [ModelsLoaded true] initial))) = true.
Proof.
  destruct (avatar_needs_models AppJs [ModelsLoaded true; AvatarChange true]
              (ModelsLoaded false) (run AppJs [ModelsLoaded true] initial))
    as [H1 H2].
  split.
  - apply H1. left. vm_compute. discriminate.
  - apply H2. vm_compute. reflexivity.
Defined.

Lemma playAudio_input v c b w :
  inputDisabled (dom (playAudioWithLipSync v c b w)) = inputDisabled (dom w)
  /\ chats (closures (playAudioWithLipSync v c b w)) = chats (closures w).
Proof. destruct v; cbn [playAudioWithLipSync]; split; frame_solve. Qed.

Lemma animateLipSync_input v sid f w :
  (inputDisabled (dom (world_of (animateLipSync v sid f w))),
   chats (closures (world_of (animateLipSync v sid f w))))
  = (inputDisabled (dom w), chats (closures w)).
Proof. frame_solve. Qed.

Lemma existsb_update_nth {A} (p : A -> bool) f : forall l n,
  (forall a, p (f a) = true) -> n < List.length l ->
  existsb p (update_nth n f l) = true.
Proof.
  induction l as [|a l IH]; intros n Hf Hn; [cbn in Hn; lia|].
  destruct n; cbn; [rewrite Hf; reflexivity|].
  rewrite IH; [apply orb_true_r | exact Hf | cbn in Hn; lia].
Qed.

Lemma run_task_input v e w :
  input_released w -> input_released (run_task v e w).
Proof.
  unfold input_released. intros H.
  destruct e; cbn [run_task].
  all: try (frame_solve; exact H).
  - unfold submit. destruct (_ =? "")%string; [exact H|].
    intros _. cbn. rewrite existsb_app. cbn. apply orb_true_r.
  - unfold fetch_settled, chat_finally.
    destruct (nth_error _ _) as [[m []]|] eqn:En; try exact H.
    destruct r; [discriminate|].
    destruct (truthy _); [|discriminate].
    intros _. cbn [closures with_chats with_closures chats].
    rewrite (proj2 (playAudio_input _ _ _ _)).
    apply existsb_update_nth; [reflexivity|].
    apply nth_error_Some. cbn. congruence.
  - pose proof (run_frame_keeps
                  (fun w => (inputDisabled (dom w), chats (closures w)))
                  v freq w (fun _ _ => eq_refl) (animateLipSync_input v))
      as Hk.
    cbn beta in Hk. injection Hk as -> ->. exact H.
Qed.

Lemma microtasks_input w : input_released w -> input_released (microtasks w).
Proof.
  unfold input_released, microtasks. intros H.
  destruct (existsb (play_awaited_settled w) _); [cbn; discriminate|].
  exact H.
Qed.

(** X11. Whenever every run of the submit handler has reached its
    [finally] block, the message input and the send button are enabled:
    the form stays disabled only while a request or its playback is in
    flight. *)
Theorem input_enabled_when_done (v : Variant) (trace : list Event) :
  let w := run v trace initial in
  forallb (fun t => negb (in_flight t)) (chats (closures w)) = true ->
  inputDisabled (dom w) = false.
Proof.
  cbv zeta. intros Hd.
  pose proof (run_invariant input_released v) as Hinv.
  destruct (inputDisabled (dom (run v trace initial))) eqn:E;
    [|reflexivity].
  specialize (Hinv ltac:(discriminate)
                   (fun e w H => microtasks_input _ (run_task_input v e w H))
                   trace E).
  apply existsb_exists in Hinv. destruct Hinv as (t & Ht & Hf).
  rewrite forallb_forall in Hd. specialize (Hd t Ht).
  rewrite Hf in Hd. discriminate.
Qed.

Lemma input_enabled_when_done_witness :
  inputDisabled
    (dom (run Part000 [Submit "hi"%string; FetchSettled 0 FetchFailed running]
              initial)) = false.
Proof.
  apply (input_enabled_when_done Part000
           [Submit "hi"%string; FetchSettled 0 FetchFailed running]).
  vm_compute. reflexivity.
Defined.

(** ** The canvas shows the current avatar *)

Lemma avatar_shown_view w w' :
  view w' = view w -> avatar_shown w -> avatar_shown w'.
Proof.
  unfold view, avatar_shown. intros H.
  injection H as -> -> -> -> ->. exact (fun H => H).
Qed.

Lemma drawAvatar_shows v i w image fd :
  avatarImage (globals w) = Some image ->
  faceDetection (globals w) = Some fd ->
  shows image fd (avatarCanvas (dom (world_of (drawAvatar v i w)))).
Proof.
  intros Hi Hf. unfold shows.
  destruct v; cbn [drawAvatar]; unfold drawAvatar_app, drawAvatar_overlay;
    rewrite Hi, Hf; crop_cases; draw_cases; cbn;
    repeat split; repeat eexists.
Qed.

Lemma drawAvatar_unset v i w :
  avatarImage (globals w) = None -> drawAvatar v i w = Normal w.
Proof.
  intros H.
  destruct v; cbn [drawAvatar]; unfold drawAvatar_app, drawAvatar_overlay;
    rewrite H; reflexivity.
Qed.

Lemma drawAvatar_avatar_shown v i w :
  avatar_shown w -> avatar_shown (world_of (drawAvatar v i w)).
Proof.
  intros H.
  destruct (avatarImage (globals w)) as [image|] eqn:Hi;
    [|rewrite (drawAvatar_unset v i w Hi); exact H].
  destruct (drawAvatar_only_canvas v i w) as [c Hc].
  pose proof (drawAvatar_shows v i w image) as Hs.
  unfold avatar_shown in *. rewrite Hc in *. cbn in *. rewrite Hi in *.
  destruct (faceDetection (globals w)) as [fd|]; [|contradiction].
  specialize (Hs fd eq_refl eq_refl).
  destruct H as (H1 & H2 & _).
  split; [exact H1 | split; [exact H2 | exact Hs]].
Qed.

Lemma view_then_schedule sid c :
  view (world_of (then_schedule sid c)) = view (world_of c).
Proof. destruct c; reflexivity. Qed.

Lemma animateLipSync_shown v sid f w :
  avatar_shown w -> avatar_shown (world_of (animateLipSync v sid f w)).
Proof.
  intros H. unfold animateLipSync. destruct (session sid w); [|exact H].
  apply (avatar_shown_view _ _ (view_then_schedule _ _)).
  apply drawAvatar_avatar_shown.
  exact (avatar_shown_view w _ eq_refl H).
Qed.

Lemma ended_handler_shown v sid w :
  avatar_shown w -> avatar_shown (world_of (ended_handler v sid w)).
Proof.
  intros H. unfold ended_handler. destruct (session sid w) as [s|]; [|exact H].
  assert (H0 : avatar_shown
                 (set_speaking false
                    (cancelAnimationFrame (animationId s) w))).
  { refine (avatar_shown_view w _ _ H). frame_solve. }
  apply (drawAvatar_avatar_shown v 0) in H0 as Hd.
  destruct (drawAvatar v 0 _) as [w'|w']; cbn [world_of] in *; [|exact Hd].
  refine (avatar_shown_view w' _ _ Hd).
  destruct v; frame_solve.
Qed.

Lemma error_handler_shown v sid w :
  avatar_shown w -> avatar_shown (world_of (error_handler v sid w)).
Proof.
  intros H. refine (avatar_shown_view w _ _ H). destruct v; frame_solve.
Qed.

Lemma playAudio_view v c b w : view (playAudioWithLipSync v c b w) = view w.
Proof. destruct v; cbn [playAudioWithLipSync]; frame_solve. Qed.

Lemma microtasks_view w : view (microtasks w) = view w.
Proof. unfold microtasks. destruct (existsb _ _); reflexivity. Qed.

Lemma run_frame_shown v freq w :
  avatar_shown w -> avatar_shown (run_frame v freq w).
Proof.
  intros H. unfold run_frame.
  pose proof (avatar_shown_view w (set_frameCallbacks [] w) eq_refl H) as H0.
  revert H0. generalize (set_frameCallbacks [] w) as w0.
  induction (frameCallbacks (platform w)) as [|cb l IH]; intros w0 H0;
    cbn [fold_left]; [exact H0|].
  apply IH, animateLipSync_shown, H0.
Qed.

Lemma step_avatar_shown v e w : avatar_shown w -> avatar_shown (step v e w).
Proof.
  intros H. unfold step.
  apply (avatar_shown_view _ _ (microtasks_view _)).
  destruct e; cbn [run_task].
  all: try (refine (avatar_shown_view w _ _ H); frame_solve; fail).
  - unfold detected.
    destruct (nth_error _ _) as [[i []]|]; try exact H.
    destruct found as [d|];
      [|refine (avatar_shown_view w _ _ H); reflexivity].
    pose proof (drawAvatar_shows v 0
                  (set_avatarImage (Some i) (set_faceDetection (Some d) w))
                  i d eq_refl eq_refl) as Hs.
    destruct (drawAvatar_only_canvas v 0
                (set_avatarImage (Some i) (set_faceDetection (Some d) w)))
      as [c Hc].
    destruct (drawAvatar_0_returns v
                (set_avatarImage (Some i) (set_faceDetection (Some d) w)))
      as [w' Hw'].
    rewrite Hw' in *. cbn [world_of] in *. subst w'.
    unfold avatar_shown. cbn.
    split; [reflexivity | split; [reflexivity | exact Hs]].
  - refine (avatar_shown_view w _ _ H).
    unfold fetch_settled, chat_finally.
    destruct (nth_error _ _) as [[m []]|]; try reflexivity.
    destruct r; [reflexivity|].
    destruct (truthy _); [|reflexivity].
    exact (playAudio_view v created _ (set_chatHistory _ w)).
  - destruct (onplay _); [apply animateLipSync_shown|]; exact H.
  - destruct (onended _); [apply ended_handler_shown|]; exact H.
  - apply run_frame_shown, H.
Qed.

(** X12. In every reachable state the canvas agrees with the avatar: while
    none is set the placeholder is visible, the canvas is hidden and
    nothing has been painted on it; once one is set the canvas is visible,
    measures 200 by 200, and the first thing painted on it is the current
    [avatarImage] with the crop of the current [faceDetection], whatever
    frames, clips and further uploads came in between. *)
Theorem canvas_shows_avatar (v : Variant) (trace : list Event) :
  avatar_shown (run v trace initial).
Proof.
  apply run_invariant; [|apply step_avatar_shown].
  repeat split.
Qed.

(** ** The submit handler and the promise it awaits *)

Lemma animateLipSync_chats v sid f w :
  chats (closures (world_of (animateLipSync v sid f w))) = chats (closures w).
Proof. frame_solve. Qed.

Lemma run_task_keeps_await v e w c m sid :
  nth_error (chats (closures w)) c
  = Some {| message := m; chat_stage := AwaitPlay sid |} ->
  nth_error (chats (closures (run_task v e w))) c
  = Some {| message := m; chat_stage := AwaitPlay sid |}.
Proof.
  intros H. destruct e; cbn [run_task].
  all: try (frame_solve; exact H).
  - unfold submit. destruct (_ =? "")%string; [exact H|].
    cbn. rewrite nth_error_app1; [exact H|].
    apply nth_error_Some. congruence.
  - unfold fetch_settled, chat_finally.
    destruct (nth_error _ chat) as [[m' []]|] eqn:En; try exact H.
    assert (Hne : c <> chat) by (intros ->; congruence).
    destruct r.
    + cbn. rewrite nth_error_update_nth_ne by exact Hne. exact H.
    + destruct (truthy _); cbn [closures with_chats with_closures chats].
      * rewrite nth_error_update_nth_ne by exact Hne.
        rewrite (proj2 (playAudio_input _ _ _ _)). exact H.
      * cbn. rewrite nth_error_update_nth_ne by exact Hne. exact H.
  - rewrite (run_frame_keeps (fun w => chats (closures w)));
      [exact H | reflexivity | apply animateLipSync_chats].
Qed.

Lemma microtasks_sessions w :
  sessions (closures (microtasks w)) = sessions (closures w).
Proof. unfold microtasks. destruct (existsb _ _); reflexivity. Qed.

Lemma microtasks_await w c sid m :
  nth_error (chats (closures w)) c
  = Some {| message := m; chat_stage := AwaitPlay sid |} ->
  nth_error (chats (closures (microtasks w))) c
  = Some {| message := m;
            chat_stage := if settled sid (microtasks w) then ChatDone
                          else AwaitPlay sid |}
  /\ (settled sid (microtasks w) = true ->
      inputDisabled (dom (microtasks w)) = false).
Proof.
  intros H.
  assert (Hs : settled sid (microtasks w)
               = play_awaited_settled w
                   {| message := m; chat_stage := AwaitPlay sid |}).
  { unfold settled, session. rewrite microtasks_sessions. reflexivity. }
  rewrite Hs. unfold microtasks.
  destruct (existsb _ _) eqn:Ex.
  - cbn. rewrite nth_error_map, H. cbn.
    split; [|reflexivity].
    destruct (session sid w) as [s|]; [|reflexivity].
    destruct (is_pending (promise s)); reflexivity.
  - rewrite H.
    assert (Hf : play_awaited_settled w
                   {| message := m; chat_stage := AwaitPlay sid |} = false).
    { destruct (play_awaited_settled w _) eqn:Ep; [|reflexivity].
      rewrite <- Ex. symmetry. apply existsb_exists.
      eexists. split; [eapply nth_error_In, H | exact Ep]. }
    rewrite Hf. split; [reflexivity | discriminate].
Qed.

(** X13. A submit handler suspended at [await playAudioWithLipSync(..)]
    stays suspended over every event that leaves the promise pending, and
    runs to its end in the very step in which the promise settles, which
    enables the input again. *)
Theorem reply_waits_for_clip (v : Variant) (e : Event) (w : World)
  (c sid : nat) (m : string) :
  nth_error (chats (closures w)) c
  = Some {| message := m; chat_stage := AwaitPlay sid |} ->
  let w' := step v e w in
  nth_error (chats (closures w')) c
  = Some {| message := m;
            chat_stage := if settled sid w' then ChatDone
                          else AwaitPlay sid |}
  /\ (settled sid w' = true -> inputDisabled (dom w') = false).
Proof.
  intros H. cbv zeta. unfold step.
  apply microtasks_await, run_task_keeps_await, H.
Qed.

Lemma reply_waits_for_clip_witness :
  nth_error (chats (closures (step AppJs MediaEnded (clip_requested AppJs)))) 0
  = Some {| message := "hi"; chat_stage := ChatDone |}
  /\ inputDisabled (dom (step AppJs MediaEnded (clip_requested AppJs)))
     = false.
Proof.
  destruct (reply_waits_for_clip AppJs MediaEnded (clip_requested AppJs)
              0 0 "hi"%string) as [H1 H2].
  - vm_compute. reflexivity.
  - split.
    + rewrite H1. vm_compute. reflexivity.
    + apply H2. vm_compute. reflexivity.
Defined.

(** ** A clip from [play] to [ended] *)

Lemma session_update_session sid sid' f w :
  session sid (update_session sid' f w)
  = if (sid =? sid')%nat then option_map f (session sid w)
    else session sid w.
Proof.
  unfold session, update_session. cbn.
  destruct (Nat.eqb_spec sid sid') as [->|Hne].
  - apply nth_error_update_nth_eq.
  - apply nth_error_update_nth_ne, Hne.
Qed.

Lemma animateLipSync_effect v sid' f w :
  let w' := world_of (animateLipSync v sid' f w) in
  (forall sid, fixed_parts sid w' = fixed_parts sid w)
  /\ ((frameCallbacks (platform w') = frameCallbacks (platform w)
       /\ forall sid, option_map animationId (session sid w')
                      = option_map animationId (session sid w))
      \/ (exists h,
            frameCallbacks (platform w')
            = frameCallbacks (platform w) ++ [(h, sid')]
            /\ option_map animationId (session sid' w') = Some (Some h)
            /\ forall sid, sid <> sid' ->
                           option_map animationId (session sid w')
                           = option_map animationId (session sid w))).
Proof.
  cbv zeta. unfold animateLipSync.
  destruct (session sid' w) as [s|] eqn:Es;
    [|split; [reflexivity | left; split; reflexivity]].
  set (w1 := update_session sid' _ w).
  assert (H1 : forall sid, fixed_parts sid w1 = fixed_parts sid w).
  { intros sid. unfold fixed_parts, w1. rewrite session_update_session.
    destruct (Nat.eqb_spec sid sid') as [->|]; [|reflexivity].
    rewrite Es. reflexivity. }
  assert (H2 : forall sid, option_map animationId (session sid w1)
                           = option_map animationId (session sid w)).
  { intros sid. unfold w1. rewrite session_update_session.
    destruct (Nat.eqb_spec sid sid') as [->|]; [|reflexivity].
    rewrite Es. reflexivity. }
  assert (H3 : session sid' w1 <> None).
  { unfold w1. rewrite session_update_session, Nat.eqb_refl, Es. discriminate. }
  assert (H4 : frameCallbacks (platform w1) = frameCallbacks (platform w))
    by reflexivity.
  clearbody w1.
  destruct (drawAvatar_only_canvas v (speakingIntensity
              (getByteFrequencyData f (dataArray s))) w1) as [c Hc].
  destruct (drawAvatar v _ w1) as [w2|w2]; cbn [world_of] in Hc; subst w2.
  - split.
    + intros sid. rewrite <- H1. unfold fixed_parts. cbn.
      rewrite session_update_session.
      destruct (Nat.eqb_spec sid sid') as [->|]; [|reflexivity].
      change (session sid' _) with (session sid' w1).
      destruct (session sid' w1); reflexivity.
    + right. eexists. split; [cbn; rewrite <- H4; reflexivity|]. split.
      * cbn. rewrite session_update_session, Nat.eqb_refl.
        change (session sid' _) with (session sid' w1).
        destruct (session sid' w1); [reflexivity | contradiction].
      * intros sid Hne. rewrite <- H2. cbn.
        rewrite session_update_session.
        destruct (Nat.eqb_spec sid sid'); [contradiction | reflexivity].
  - split; [exact H1 | left; split; [exact H4 | exact H2]].
Qed.

Lemma filter_none {A} (p : A -> bool) l :
  List.length (filter p l) = 0 -> forall a, In a l -> p a = false.
Proof.
  intros H a Ha. destruct (p a) eqn:E; [|reflexivity].
  assert (Hin : In a (filter p l)) by (apply filter_In; split; assumption).
  destruct (filter p l); [contradiction | discriminate].
Qed.

Lemma own_eq sid h : own sid (h, sid) = true.
Proof. apply Nat.eqb_refl. Qed.

Lemma own_ne sid sid' h : sid' <> sid -> own sid (h, sid') = false.
Proof. intros H. apply Nat.eqb_neq, H. Qed.

Lemma animateLipSync_tracked v sid sid' h f rest w :
  tracked sid ((h, sid') :: rest) w ->
  tracked sid rest (world_of (animateLipSync v sid' f w)).
Proof.
  intros [Hc Ht]. cbn [filter] in Hc.
  destruct (animateLipSync_effect v sid' f w)
    as [_ [[E1 E2]|(h' & E1 & E2 & E3)]].
  - split.
    + rewrite E1. destruct (own sid (h, sid')); cbn [List.length] in Hc; lia.
    + intros cb Hin Hs. rewrite E2. rewrite E1 in Hin. apply Ht; assumption.
  - destruct (Nat.eq_dec sid' sid) as [->|Hne].
    + rewrite own_eq in Hc. cbn [List.length] in Hc.
      assert (H0 : List.length
                     (filter (own sid) (frameCallbacks (platform w))) = 0)
        by lia.
      split.
      * rewrite E1, filter_app, length_app, H0. cbn [filter].
        rewrite own_eq. cbn [List.length]. lia.
      * intros cb Hin Hs. rewrite E1 in Hin. apply in_app_or in Hin.
        destruct Hin as [Hin|[<-|[]]]; [|exact E2].
        apply (filter_none _ _ H0) in Hin. destruct cb as [hc sc].
        cbn [snd] in Hs. subst sc. rewrite own_eq in Hin. discriminate.
    + rewrite own_ne in Hc by exact Hne.
      split.
      * rewrite E1, filter_app, length_app. cbn [filter].
        rewrite own_ne by exact Hne. cbn [List.length]. lia.
      * intros cb Hin Hs. rewrite E3 by congruence.
        rewrite E1 in Hin. apply in_app_or in Hin.
        destruct Hin as [Hin|[<-|[]]]; [apply Ht; assumption|].
        cbn in Hs. contradiction.
Qed.

Lemma run_frame_tracked v sid freq w :
  tracked sid [] w -> tracked sid [] (run_frame v freq w).
Proof.
  intros [Hc Ht]. unfold run_frame.
  assert (H0 : tracked sid (frameCallbacks (platform w))
                       (set_frameCallbacks [] w)).
  { split; [cbn in *; lia | intros cb []]. }
  clear Hc Ht. revert H0. generalize (set_frameCallbacks [] w) as w0.
  generalize (frameCallbacks (platform w)) as l.
  induction l as [|[h sid'] l IH]; intros w0 H0;
    cbn [fold_left]; [exact H0|].
  apply IH. cbn [snd]. apply (animateLipSync_tracked v sid sid' h).
  exact H0.
Qed.

Lemma run_frame_fixed v sid freq w :
  fixed_parts sid (run_frame v freq w) = fixed_parts sid w.
Proof.
  apply (run_frame_keeps (fixed_parts sid)); [reflexivity|].
  intros sid' fr w0. apply (animateLipSync_effect v sid' fr w0).
Qed.

Lemma microtasks_tracked sid w :
  tracked sid [] w -> tracked sid [] (microtasks w).
Proof.
  unfold microtasks. destruct (existsb _ _); intros H; exact H.
Qed.

Lemma microtasks_fixed sid w :
  fixed_parts sid (microtasks w) = fixed_parts sid w.
Proof. unfold microtasks. destruct (existsb _ _); reflexivity. Qed.

Lemma frames_playing v sid s freqs : forall w,
  playing sid s w -> playing sid s (run v (map AnimationFrame freqs) w).
Proof.
  induction freqs as [|f freqs IH]; intros w H; [exact H|].
  cbn [map run fold_left]. apply IH. clear IH.
  destruct H as (H1 & H2 & H3 & H4). unfold step. cbn [run_task].
  pose proof (microtasks_fixed sid (run_frame v f w)) as Hm.
  rewrite run_frame_fixed in Hm. unfold fixed_parts in Hm.
  injection Hm as Hm1 Hm2 Hm3.
  unfold playing. rewrite Hm1, Hm2.
  repeat split; try assumption.
  - apply microtasks_tracked, run_frame_tracked, H4.
  - apply microtasks_tracked, run_frame_tracked, H4.
Qed.

Lemma filter_own_nil sid l :
  Forall (fun cb => snd cb <> sid) l -> filter (own sid) l = [].
Proof.
  induction 1 as [|[h s'] l Hcb _ IH]; [reflexivity|].
  cbn [filter]. rewrite own_ne by exact Hcb. exact IH.
Qed.

Lemma play_starts_playing v sid s f0 w :
  session sid w = Some s ->
  onplay (audioPlayer (dom w)) = Some sid ->
  onended (audioPlayer (dom w)) = Some sid ->
  onerror (audioPlayer (dom w)) = Some sid ->
  Forall (fun cb => snd cb <> sid) (frameCallbacks (platform w)) ->
  playing sid s (step v (MediaPlay f0) w)
  /\ objectURLs (platform (step v (MediaPlay f0) w)) = objectURLs (platform w).
Proof.
  intros Hs Hp He Hr Hn. unfold step. cbn [run_task]. rewrite Hp.
  pose proof (microtasks_fixed sid (world_of (animateLipSync v sid f0 w)))
    as Hm.
  rewrite (proj1 (animateLipSync_effect v sid f0 w) sid) in Hm.
  unfold fixed_parts in Hm. injection Hm as Hm1 Hm2 Hm3.
  unfold playing. rewrite Hm1, Hm2, Hm3, Hs.
  repeat split; try assumption; try reflexivity.
  all: apply microtasks_tracked, (animateLipSync_tracked v sid sid 0).
  all: split; [|intros cb Hin Hc; rewrite Forall_forall in Hn;
                 destruct (Hn cb Hin Hc)].
  all: cbn [filter]; rewrite own_eq, (filter_own_nil _ _ Hn); cbn; lia.
Qed.

Lemma cancel_own sid id w :
  (forall cb, In cb (frameCallbacks (platform w)) -> snd cb = sid ->
              id = Some (fst cb)) ->
  Forall (fun cb => snd cb <> sid)
         (frameCallbacks (platform (cancelAnimationFrame id w))).
Proof.
  intros H. apply Forall_forall. intros cb Hin Hs.
  destruct id as [h|]; cbn in Hin.
  - apply filter_In in Hin. destruct Hin as [Hin Hf].
    specialize (H cb Hin Hs). injection H as ->.
    rewrite Nat.eqb_refl in Hf. discriminate.
  - specialize (H cb Hin Hs). discriminate.
Qed.

Lemma microtasks_outcome w :
  frameCallbacks (platform (microtasks w)) = frameCallbacks (platform w)
  /\ speaking (dom (microtasks w)) = speaking (dom w)
  /\ sessions (closures (microtasks w)) = sessions (closures w)
  /\ objectURLs (platform (microtasks w)) = objectURLs (platform w).
Proof. unfold microtasks. destruct (existsb _ _); repeat split. Qed.

Lemma session_resolve sid w :
  option_map promise (session sid (resolve sid w))
  = option_map (fun s => settle Fulfilled (promise s)) (session sid w).
Proof.
  unfold resolve. rewrite session_update_session, Nat.eqb_refl.
  destruct (session sid w); reflexivity.
Qed.

Lemma playing_ends v sid s signal w :
  playing sid s w ->
  signal = MediaEnded \/ signal = MediaError ->
  let w' := step v signal w in
  Forall (fun cb => snd cb <> sid) (frameCallbacks (platform w'))
  /\ speaking (dom w') = false
  /\ option_map promise (session sid w') = Some (settle Fulfilled (promise s))
  /\ objectURLs (platform w')
     = match v, audioUrl s with
       | AppJs, Some u =>
           filter (fun u' => negb (u' =? u)%nat) (objectURLs (platform w))
       | _, _ => objectURLs (platform w)
       end.
Proof.
  intros (Hs & He & Hr & _ & Ht) Hsig. cbv zeta. unfold step.
  destruct (microtasks_outcome (run_task v signal w)) as (-> & -> & Em & ->).
  unfold session at 1. rewrite Em. fold (session sid (run_task v signal w)).
  destruct (session sid w) as [s1|] eqn:Es; [|discriminate].
  cbn [option_map] in Hs, Ht. injection Hs as Hu Hp.
  assert (Hc : Forall (fun cb => snd cb <> sid)
                 (frameCallbacks
                    (platform (cancelAnimationFrame (animationId s1) w)))).
  { apply cancel_own. intros cb Hin Hcb. specialize (Ht cb Hin Hcb).
    congruence. }
  destruct Hsig as [-> | ->]; cbn [run_task].
  - rewrite He. unfold ended_handler. rewrite Es.
    destruct (drawAvatar_0_returns v
                (set_speaking false
                   (cancelAnimationFrame (animationId s1) w))) as [w2 Hw2].
    destruct (drawAvatar_only_canvas v 0
                (set_speaking false
                   (cancelAnimationFrame (animationId s1) w))) as [c Hcv].
    rewrite Hw2 in *. cbn [world_of] in *. subst w2.
    rewrite session_resolve.
    split; [destruct v, (audioUrl s1); exact Hc|].
    split; [destruct v, (audioUrl s1); reflexivity|].
    split.
    + replace (session sid _) with (session sid w)
        by (destruct v, (audioUrl s1), (animationId s1); reflexivity).
      rewrite Es. cbn. rewrite Hp. reflexivity.
    + rewrite <- Hu.
      destruct v, (audioUrl s1), (animationId s1); reflexivity.
  - rewrite Hr. unfold error_handler. rewrite Es. cbn [world_of].
    rewrite session_resolve.
    split; [destruct v, (audioUrl s1); exact Hc|].
    split; [destruct v, (audioUrl s1); reflexivity|].
    split.
    + replace (session sid _) with (session sid w)
        by (destruct v, (audioUrl s1), (animationId s1); reflexivity).
      rewrite Es. cbn. rewrite Hp. reflexivity.
    + rewrite <- Hu.
      destruct v, (audioUrl s1), (animationId s1); reflexivity.
Qed.

Lemma frames_objectURLs v freqs : forall w,
  objectURLs (platform (run v (map AnimationFrame freqs) w))
  = objectURLs (platform w).
Proof.
  induction freqs as [|f freqs IH]; intros w; [reflexivity|].
  cbn [map run fold_left]. unfold run in IH. rewrite IH.
  unfold step. cbn [run_task].
  rewrite (proj2 (proj2 (proj2 (microtasks_outcome _)))).
  apply (run_frame_keeps (fun w => objectURLs (platform w)));
    [reflexivity|].
  intros sid fr w0.
  pose proof (proj1 (animateLipSync_effect v sid fr w0) sid) as H.
  unfold fixed_parts in H. congruence.
Qed.

(** X14. A clip from start to end.  Session [sid] has installed its
    handlers and none of its callbacks is pending.  Then 'play' fires, any
    number of display frames pass, and 'ended' or 'error' fires.
    Afterwards no callback of the session is left, so its loop has
    stopped; the speaking highlight is off; the promise is fulfilled, or
    keeps the outcome it had; and in [app.js] the clip's object URL is no
    longer live, while [part_000], which binds the URL to no name, leaves
    the table of live URLs as it was. *)
Theorem clip_runs_to_its_end (v : Variant) (sid : nat) (s : Session)
  (f0 : list byte) (freqs : list (nat -> list byte)) (signal : Event)
  (w : World) :
  session sid w = Some s ->
  onplay (audioPlayer (dom w)) = Some sid ->
  onended (audioPlayer (dom w)) = Some sid ->
  onerror (audioPlayer (dom w)) = Some sid ->
  Forall (fun cb => snd cb <> sid) (frameCallbacks (platform w)) ->
  signal = MediaEnded \/ signal = MediaError ->
  let w' := run v (MediaPlay f0 :: map AnimationFrame freqs ++ [signal]) w in
  Forall (fun cb => snd cb <> sid) (frameCallbacks (platform w'))
  /\ speaking (dom w') = false
  /\ option_map promise (session sid w') = Some (settle Fulfilled (promise s))
  /\ match v, audioUrl s with
     | AppJs, Some u => ~ In u (objectURLs (platform w'))
     | _, _ => objectURLs (platform w') = objectURLs (platform w)
     end.
Proof.
  intros Hs Hp He Hr Hn Hsig. cbv zeta.
  change (MediaPlay f0 :: map AnimationFrame freqs ++ [signal])
    with ([MediaPlay f0] ++ map AnimationFrame freqs ++ [signal]).
  unfold run. rewrite !fold_left_app. cbn [fold_left].
  fold (run v (map AnimationFrame freqs) (step v (MediaPlay f0) w)).
  destruct (play_starts_playing v sid s f0 w Hs Hp He Hr Hn) as [H1 U1].
  pose proof (frames_objectURLs v freqs (step v (MediaPlay f0) w)) as U2.
  apply (frames_playing v sid s freqs) in H1.
  destruct (playing_ends v sid s signal _ H1 Hsig) as (R1 & R2 & R3 & R4).
  repeat split; try assumption.
  rewrite R4, U2, U1.
  destruct v; [|reflexivity]. destruct (audioUrl s) as [u|]; [|reflexivity].
  intros Hin. apply filter_In in Hin. destruct Hin as [_ Hin].
  rewrite Nat.eqb_refl in Hin. discriminate.
Qed.

Lemma clip_runs_to_its_end_witness :
  let w' := run AppJs (MediaPlay loud
                         :: map AnimationFrame [fun _ => loud; fun _ => silent]
                         ++ [MediaEnded])
                (clip_requested AppJs) in
  Forall (fun cb => snd cb <> 0) (frameCallbacks (platform w'))
  /\ speaking (dom w') = false
  /\ option_map promise (session 0 w') = Some Fulfilled
  /\ ~ In 0 (objectURLs (platform w')).
Proof.
  apply (clip_runs_to_its_end AppJs 0
           {| audioUrl := Some 0; animationId := None; dataArray := silent;
              promise := Pending; progress := PlayRequested |}
           loud [fun _ => loud; fun _ => silent] MediaEnded
           (clip_requested AppJs)).
  - vm_compute. reflexivity.
  - vm_compute. reflexivity.
  - vm_compute. reflexivity.
  - vm_compute. reflexivity.
  - vm_compute. constructor.
  - left. reflexivity.
Defined.

(** ** Drawing, promises and the suspended context *)

(** X8. In every reachable state, a run of [animateLipSync] that the
    'play' handler or a pending callback can start draws with an intensity
    between 0 and 2, whatever the analyser delivers: the session's data
    array is there and has its 128 bins. *)
Theorem loop_intensity_in_range (v : Variant) (trace : list Event)
  (sid : nat) (freq : list byte) :
  let w := run v trace initial in
  scheduled sid w ->
  exists s,
    session sid w = Some s
    /\ let d := getByteFrequencyData freq (dataArray s) in
       animateLipSync v sid freq w
       = then_schedule sid
           (drawAvatar v (speakingIntensity d)
                       (update_session sid (set_dataArray d) w))
       /\ (0 <=? speakingIntensity d)%float = true
       /\ (speakingIntensity d <=? 2)%float = true.
Proof.
  cbv zeta. intros Hs.
  destruct (scheduled_known _ sid (reachable_well_formed v trace) Hs)
    as (s & Es & Hl).
  exists s. split; [exact Es|]. split.
  - unfold animateLipSync. rewrite Es. reflexivity.
  - apply intensity_in_range. rewrite getByteFrequencyData_length, Hl.
    unfold frequencyBinCount. lia.
Qed.

Lemma loop_intensity_in_range_witness :
  exists s,
    session 0 (run AppJs one_reply initial) = Some s
    /\ let d := getByteFrequencyData [x64; x64] (dataArray s) in
       animateLipSync AppJs 0 [x64; x64] (run AppJs one_reply initial)
       = then_schedule 0
           (drawAvatar AppJs (speakingIntensity d)
                       (update_session 0 (set_dataArray d)
                                       (run AppJs one_reply initial)))
       /\ (0 <=? speakingIntensity d)%float = true
       /\ (speakingIntensity d <=? 2)%float = true.
Proof.
  apply (loop_intensity_in_range AppJs one_reply 0 [x64; x64]).
  left. vm_compute. reflexivity.
Defined.

(** X15. With an avatar set, what [drawAvatar] leaves on the canvas
    depends on the avatar and the intensity alone, not on what was painted
    before: every call starts from a cleared canvas. *)
Theorem drawAvatar_forgets_canvas (v : Variant) (i : float) (w w' : World) :
  same_avatar w w' ->
  avatarImage (globals w) <> None -> faceDetection (globals w) <> None ->
  avatarCanvas (dom (world_of (drawAvatar v i w')))
  = avatarCanvas (dom (world_of (drawAvatar v i w))).
Proof.
  intros [Hi Hf] Hni Hnf.
  destruct v; cbn [drawAvatar]; unfold drawAvatar_app, drawAvatar_overlay;
    rewrite Hi, Hf;
    destruct (avatarImage (globals w)); try contradiction;
    destruct (faceDetection (globals w)); try contradiction;
    crop_cases; draw_cases; reflexivity.
Qed.

Lemma drawAvatar_forgets_canvas_witness :
  avatarCanvas (dom (world_of
    (drawAvatar Part000 0
       (world_of (drawAvatar Part000 2 (with_avatar photo face initial))))))
  = avatarCanvas (dom (world_of
      (drawAvatar Part000 0 (with_avatar photo face initial)))).
Proof.
  apply (drawAvatar_forgets_canvas Part000 0
           (with_avatar photo face initial)
           (world_of (drawAvatar Part000 2 (with_avatar photo face initial)))).
  - split; vm_compute; reflexivity.
  - discriminate.
  - discriminate.
Defined.

(** X16. Once the promise of a call of [playAudioWithLipSync] has settled,
    no later event changes its outcome, and the session is never
    dropped. *)
Theorem promise_settles_once (v : Variant) (trace : list Event) (w : World)
  (sid : nat) (s : Session) :
  session sid w = Some s -> promise s <> Pending ->
  option_map promise (session sid (run v trace w)) = Some (promise s).
Proof. apply settled_is_final. Qed.

Lemma promise_settles_once_witness :
  option_map promise
    (session 0 (run AppJs [MediaError; MediaPlay loud; MediaEnded]
                    (played AppJs MediaEnded)))
  = Some Fulfilled.
Proof.
  apply (promise_settles_once AppJs [MediaError; MediaPlay loud; MediaEnded]
           (played AppJs MediaEnded) 0
           {| audioUrl := Some 0; animationId := Some 1; dataArray := loud;
              promise := Fulfilled; progress := PlayRequested |}).
  - vm_compute. reflexivity.
  - discriminate.
Defined.

(** X17. [app.js] with a suspended audio context: the call stops at
    [await audioContext.resume()] before touching [audioPlayer] or the
    speaking highlight; when the resume settles, the source is set to the
    clip's object URL, the three handlers are installed, the highlight is
    on, and the promise is still pending. *)
Theorem suspended_context_defers_playback (created : AudioContextState)
  (b : string) (bytes : list byte) (w : World) :
  atob b = Some bytes ->
  audioContext (globals w) = Some suspended
  \/ (audioContext (globals w) = None /\ created = suspended) ->
  let sid := List.length (sessions (closures w)) in
  let w1 := playAudioWithLipSync AppJs created b w in
  let w2 := run_task AppJs (ResumeSettled sid) w1 in
  (audioPlayer (dom w1) = audioPlayer (dom w)
   /\ speaking (dom w1) = speaking (dom w)
   /\ option_map progress (session sid w1) = Some AwaitingResume)
  /\ (audioPlayer (dom w2)
      = {| audio_src := Some (nextObjectURL (platform w));
           onplay := Some sid; onended := Some sid; onerror := Some sid |}
      /\ speaking (dom w2) = true
      /\ audioContext (globals w2) = Some running
      /\ option_map (fun s => (promise s, progress s, dataArray s))
                    (session sid w2)
         = Some (Pending, PlayRequested, repeat x00 frequencyBinCount)).
Proof.
  intros Ha Hc. cbv zeta. cbn [playAudioWithLipSync run_task].
  assert (Hs : forall (l : list Session) x,
             nth_error (l ++ [x]) (List.length l) = Some x).
  { intros. rewrite nth_error_app2, Nat.sub_diag by lia. reflexivity. }
  assert (Hu : forall (l : list Session) x f,
             update_nth (List.length l) f (l ++ [x]) = l ++ [f x]).
  { induction l as [|a l IH]; intros; cbn; [|rewrite IH]; reflexivity. }
  destruct w as [[h ai fd ml ac] d p [ss us cs]]. cbn in Hc.
  unfold playAudioWithLipSync_app. rewrite Ha.
  destruct Hc as [->|[-> ->]];
    cbn -[repeat frequencyBinCount]; unfold session;
    cbn -[repeat frequencyBinCount]; rewrite Hs;
    cbn -[repeat frequencyBinCount];
    unfold after_resume, install_and_play, session;
    cbn -[repeat frequencyBinCount]; rewrite Hs;
    cbn -[repeat frequencyBinCount]; rewrite !Hu, Hs;
    cbn -[repeat frequencyBinCount].
  all: repeat split.
Qed.

Lemma suspended_context_defers_playback_witness :
  speaking (dom (playAudioWithLipSync AppJs suspended "AAAA" initial)) = false
  /\ speaking
       (dom (run_task AppJs (ResumeSettled 0)
                      (playAudioWithLipSync AppJs suspended "AAAA" initial)))
     = true.
Proof.
  destruct (suspended_context_defers_playback suspended "AAAA"
              [x00; x00; x00] initial) as [(_ & H1 & _) (_ & H2 & _)].
  - reflexivity.
  - right. split; reflexivity.
  - split; [exact H1 | exact H2].
Defined.

Local Open Scope string_scope.

(** ** Escaping and the chat message list *)

(** X2. Escaping loses nothing: reading the character references back
    gives the text, so two different texts never have the same escaped
    form. *)
Theorem escapeHtml_round_trip (text : string) :
  decode_references (escapeHtml text) = text.
Proof.
  induction text as [|c text IH]; [reflexivity|].
  cbn [escapeHtml].
  destruct c as [[] [] [] [] [] [] [] []]; cbn; rewrite IH; reflexivity.
Qed.

Lemma occurrences_app c a b :
  occurrences c (a ++ b) = (occurrences c a + occurrences c b)%nat.
Proof.
  unfold occurrences. induction a as [|x a IH]; [reflexivity|].
  cbn. destruct (Ascii.eqb c x); cbn; rewrite IH; reflexivity.
Qed.

Lemma escapeHtml_no_angle text :
  occurrences "<" (escapeHtml text) = 0%nat
  /\ occurrences ">" (escapeHtml text) = 0%nat.
Proof.
  induction text as [|c text [IH1 IH2]]; [split; reflexivity|].
  cbn [escapeHtml]. rewrite !occurrences_app, IH1, IH2.
  destruct c as [[] [] [] [] [] [] [] []]; split; reflexivity.
Qed.

Lemma addMessage_plain text role l :
  forallb plain_markup l = true ->
  forallb plain_markup (addMessage text role l) = true.
Proof.
  intros H. unfold addMessage, messageDiv. rewrite forallb_app, H.
  cbn [forallb plain_markup].
  rewrite !occurrences_app.
  destruct (escapeHtml_no_angle text) as [-> ->]. reflexivity.
Qed.

Lemma remove_indicator_plain c l :
  forallb plain_markup l = true ->
  forallb plain_markup (remove_indicator c l) = true.
Proof.
  intros H. unfold remove_indicator. rewrite forallb_forall in *.
  intros x Hx. apply filter_In in Hx. apply H, Hx.
Qed.

Lemma messages_task_plain e w l :
  forallb plain_markup l = true ->
  forallb plain_markup (messages_task e w l) = true.
Proof.
  intros H. destruct e; cbn [messages_task]; try exact H.
  - destruct (_ =? "")%string; [exact H|].
    unfold showTypingIndicator.
    rewrite forallb_app, addMessage_plain by exact H. reflexivity.
  - destruct (nth_error _ _) as [[m []]|]; try exact H.
    destruct r; unfold chat_catch;
      apply addMessage_plain, remove_indicator_plain, H.
Qed.

Lemma messages_microtasks_plain w l :
  forallb plain_markup l = true ->
  forallb plain_markup (messages_microtasks w l) = true.
Proof.
  unfold messages_microtasks. revert l.
  induction (combine _ _) as [|ct cts IH]; intros l H; [exact H|].
  cbn [fold_left]. apply IH.
  destruct (play_awaited_rejected w (snd ct)); [|exact H].
  apply addMessage_plain, remove_indicator_plain, H.
Qed.

Lemma page_run_snoc v trace e p :
  page_run v (trace ++ [e]) p = page_step v e (page_run v trace p).
Proof. unfold page_run. rewrite fold_left_app. reflexivity. Qed.

Lemma page_world v trace :
  world (page_run v trace initial_page) = run v trace initial.
Proof.
  induction trace as [|e trace IH] using rev_ind; [reflexivity|].
  rewrite page_run_snoc, run_snoc. cbn. rewrite IH. reflexivity.
Qed.

(** X1. The escaped form of a text holds no [<] and no [>]: it cannot
    open or close a tag. *)
Theorem escapeHtml_writes_no_tag (text : string) :
  occurrences "<" (escapeHtml text) = 0%nat
  /\ occurrences ">" (escapeHtml text) = 0%nat.
Proof. apply escapeHtml_no_angle. Qed.

(** X3. After any sequence of events, every message in the chat list
    holds exactly the opening and the closing tag of its own markup:
    neither what the user typed nor what the backend answered adds a tag to
    the page. *)
Theorem messages_hold_no_foreign_markup (v : Variant) (trace : list Event) :
  forallb plain_markup (chatMessages (page_run v trace initial_page)) = true.
Proof.
  induction trace as [|e trace IH] using rev_ind; [reflexivity|].
  rewrite page_run_snoc. cbn [page_step chatMessages].
  apply messages_microtasks_plain, messages_task_plain, IH.
Qed.

Lemma awaits_fetch_microtasks w c :
  awaits_fetch (microtasks w) c = awaits_fetch w c.
Proof.
  unfold awaits_fetch, microtasks.
  destruct (existsb _ _); [|reflexivity].
  cbn. rewrite nth_error_map.
  destruct (nth_error _ c) as [[m g]|]; [|reflexivity].
  unfold play_awaited_settled. cbn. destruct g; try reflexivity.
  destruct (session sid w) as [s|]; [|reflexivity].
  destruct (is_pending (promise s)); reflexivity.
Qed.

Lemma run_task_chats v e w :
  match e with
  | Submit _ | FetchSettled _ _ _ => True
  | _ => chats (closures (run_task v e w)) = chats (closures w)
  end.
Proof.
  destruct e; cbn [run_task]; try exact I.
  all: try (frame_solve; fail).
  apply (run_frame_keeps (fun w => chats (closures w)));
    [reflexivity | apply animateLipSync_chats].
Qed.

Lemma existsb_indicator_add c text role l :
  existsb (is_indicator c) (addMessage text role l)
  = existsb (is_indicator c) l.
Proof.
  unfold addMessage. rewrite existsb_app. cbn. rewrite !orb_false_r.
  reflexivity.
Qed.

Lemma existsb_indicator_remove c c' l :
  existsb (is_indicator c) (remove_indicator c' l)
  = negb (c =? c')%nat && existsb (is_indicator c) l.
Proof.
  unfold remove_indicator. induction l as [|x l IH]; cbn.
  - apply eq_sym, andb_false_r.
  - destruct x as [cl html|c0]; cbn; [exact IH|].
    destruct (Nat.eqb_spec c0 c') as [->|H0]; cbn.
    + rewrite IH. rewrite (Nat.eqb_sym c' c).
      destruct (c =? c')%nat; reflexivity.
    + rewrite IH. destruct (Nat.eqb_spec c0 c) as [->|H1]; cbn.
      * destruct (Nat.eqb_spec c c'); [contradiction | reflexivity].
      * reflexivity.
Qed.

Lemma run_task_indicator v e w l c :
  (forall c, existsb (is_indicator c) l = awaits_fetch w c) ->
  existsb (is_indicator c) (messages_task e w l)
  = awaits_fetch (run_task v e w) c.
Proof.
  intros H.
  pose proof (run_task_chats v e w) as Hc.
  destruct e; cbn [messages_task];
    try (unfold awaits_fetch in *; rewrite Hc; apply H).
  - cbn [run_task]. unfold submit.
    destruct (_ =? "")%string; [apply H|].
    unfold showTypingIndicator. rewrite existsb_app, existsb_indicator_add, H.
    unfold awaits_fetch. cbn.
    destruct (Nat.lt_trichotomy c (List.length (chats (closures w))))
      as [Hlt|[->|Hgt]].
    + rewrite nth_error_app1 by exact Hlt.
      destruct (Nat.eqb_spec (List.length (chats (closures w))) c); [lia|].
      rewrite !orb_false_r. reflexivity.
    + rewrite nth_error_app2, Nat.sub_diag, Nat.eqb_refl by lia.
      cbn. apply orb_true_r.
    + rewrite nth_error_app2 by lia.
      destruct (c - _) as [|[|k]] eqn:E; [lia| |];
        cbn; rewrite orb_false_r;
        (destruct (Nat.eqb_spec (List.length (chats (closures w))) c);
         [lia|]);
        rewrite orb_false_r;
        (replace (nth_error (chats (closures w)) c) with (@None ChatTask)
          by (symmetry; apply nth_error_None; lia)); reflexivity.
  - cbn [run_task]. unfold fetch_settled, chat_finally.
    destruct (nth_error (chats (closures w)) chat) as [[m g]|] eqn:En;
      [|apply H].
    destruct g; try apply H.
    assert (Hr : existsb (is_indicator c)
                   (addMessage "" "" (remove_indicator chat l))
                 = negb (c =? chat)%nat && awaits_fetch w c).
    { rewrite existsb_indicator_add, existsb_indicator_remove, H.
      reflexivity. }
    unfold chat_catch.
    destruct r; rewrite existsb_indicator_add in *; rewrite Hr;
      unfold awaits_fetch;
      [|destruct (truthy _)];
      cbn [closures with_chats with_closures chats set_chatHistory
           with_globals setInputEnabled set_inputDisabled with_dom];
      try rewrite (proj2 (playAudio_input _ _ _ _));
      cbn [closures with_chats with_closures chats set_chatHistory
           with_globals];
      (destruct (Nat.eqb_spec c chat) as [->|Hne];
       [rewrite nth_error_update_nth_eq, En; reflexivity
       |rewrite nth_error_update_nth_ne by exact Hne; reflexivity]).
Qed.

Lemma in_combine_seq {A} (l : list A) : forall a i t,
  In (i, t) (combine (seq a (List.length l)) l) ->
  a <= i /\ nth_error l (i - a) = Some t.
Proof.
  induction l as [|x l IH]; intros a i t H; [destruct H|].
  cbn in H. destruct H as [H|H].
  - injection H as <- <-. rewrite Nat.sub_diag. split; [lia | reflexivity].
  - apply IH in H. destruct H as [Ha Hn]. split; [lia|].
    replace (i - a) with (S (i - S a)) by lia. exact Hn.
Qed.

Lemma messages_microtasks_indicator w l c :
  (forall c, existsb (is_indicator c) l = awaits_fetch w c) ->
  existsb (is_indicator c) (messages_microtasks w l) = awaits_fetch w c.
Proof.
  unfold messages_microtasks.
  pose proof (@in_combine_seq _ (chats (closures w)) 0) as Hin.
  revert l c.
  induction (combine _ _) as [|[i t] cts IH]; intros l c H; [apply H|].
  cbn [fold_left fst snd]. apply IH.
  - intros i' t' Hi. apply Hin. right. exact Hi.
  - destruct (play_awaited_rejected w t) eqn:Er; [|exact H].
    intros c'. unfold chat_catch.
    rewrite existsb_indicator_add, existsb_indicator_remove, H.
    destruct (Nat.eqb_spec c' i) as [->|]; [|reflexivity].
    cbn. destruct (Hin i t (or_introl eq_refl)) as [_ Hn].
    rewrite Nat.sub_0_r in Hn. unfold awaits_fetch. rewrite Hn.
    unfold play_awaited_rejected in Er. destruct t as [m []]; cbn in *;
      try discriminate; reflexivity.
Qed.

(** X4. After any sequence of events, the typing indicator of a run of the
    submit handler is in the chat list exactly while that run waits for
    the backend: it is shown from the submit on, and gone once the answer
    or the failure has been handled. *)
Theorem typing_indicator_while_fetching (v : Variant) (trace : list Event)
  (chat : nat) :
  let p := page_run v trace initial_page in
  shows_indicator p chat = awaits_fetch (world p) chat.
Proof.
  cbv zeta. revert chat.
  induction trace as [|e trace IH] using rev_ind; intros chat.
  - cbn. unfold awaits_fetch. cbn. rewrite nth_error_nil. reflexivity.
  - rewrite page_run_snoc. unfold shows_indicator in *.
    cbn [page_step world chatMessages].
    rewrite awaits_fetch_microtasks.
    apply messages_microtasks_indicator. intros c.
    apply run_task_indicator, IH.
Qed.

Lemma nth_error_in_combine_seq {A} (l : list A) : forall a i t,
  nth_error l i = Some t ->
  In (a + i, t) (combine (seq a (List.length l)) l).
Proof.
  induction l as [|x l IH]; intros a i t H; [destruct i; discriminate|].
  destruct i as [|i]; cbn in *.
  - injection H as <-. left. rewrite Nat.add_0_r. reflexivity.
  - right. rewrite <- Nat.add_succ_comm. apply IH, H.
Qed.

Lemma catches_keep_messages w (cts : list (nat * ChatTask)) x : forall l,
  In x l -> (forall c, is_indicator c x = false) ->
  In x (fold_left
          (fun l ct => if play_awaited_rejected w (snd ct)
                       then chat_catch (fst ct) l else l) cts l).
Proof.
  induction cts as [|ct cts IH]; intros l H Hx; [exact H|].
  cbn [fold_left]. apply IH; [|exact Hx].
  destruct (play_awaited_rejected w (snd ct)); [|exact H].
  unfold chat_catch, addMessage, remove_indicator.
  apply in_or_app. left. apply filter_In. split; [exact H|].
  rewrite Hx. reflexivity.
Qed.

Lemma catches_end_in_error w (cts : list (nat * ChatTask)) d : forall l,
  last l d = messageDiv error_text "assistant"
  \/ (exists ct, In ct cts /\ play_awaited_rejected w (snd ct) = true) ->
  last (fold_left
          (fun l ct => if play_awaited_rejected w (snd ct)
                       then chat_catch (fst ct) l else l) cts l) d
  = messageDiv error_text "assistant".
Proof.
  induction cts as [|ct cts IH]; intros l H.
  - destruct H as [H|(ct & [] & _)]. exact H.
  - cbn [fold_left]. apply IH.
    destruct (play_awaited_rejected w (snd ct)) eqn:E.
    + left. unfold chat_catch, addMessage. apply last_last.
    + destruct H as [H|(ct' & [<-|Hin] & Hr)];
        [left; exact H | congruence | right; exists ct'; split; assumption].
Qed.

(** X5. In [part_000], a reply whose audio payload [atob] refuses is shown
    and then followed by the error message: the rejected promise takes the
    submit handler through its [catch] block after the reply was added.
    The handler ends in that same step and the input is enabled again. *)
Theorem rejected_clip_shows_reply_then_error (p : Page) (chat : nat)
  (m text b : string) (created : AudioContextState) :
  nth_error (chats (closures (world p))) chat
  = Some {| message := m; chat_stage := AwaitFetch |} ->
  b <> "" -> atob b = None ->
  let p' := page_step Part000
              (FetchSettled chat (FetchOk text (Some b)) created) p in
  In (messageDiv text "assistant") (chatMessages p')
  /\ last (chatMessages p') (TypingIndicator chat)
     = messageDiv error_text "assistant"
  /\ nth_error (chats (closures (world p'))) chat
     = Some {| message := m; chat_stage := ChatDone |}
  /\ inputDisabled (dom (world p')) = false.
Proof.
  intros Hc Hb Ha. cbv zeta. cbn [page_step world chatMessages].
  set (w := world p) in *.
  set (w1 := run_task Part000 _ w).
  set (sid := List.length (sessions (closures w))).
  assert (Ht : truthy (Some b) = true).
  { cbn. destruct (String.eqb_spec b ""); [contradiction | reflexivity]. }
  assert (H1 : nth_error (chats (closures w1)) chat
               = Some {| message := m; chat_stage := AwaitPlay sid |}).
  { unfold w1. cbn [run_task]. unfold fetch_settled. rewrite Hc, Ht.
    cbn [closures with_chats with_closures chats].
    rewrite nth_error_update_nth_eq.
    cbn [playAudioWithLipSync]. unfold playAudioWithLipSync_overlay.
    rewrite Ha. cbn. rewrite Hc. reflexivity. }
  assert (H2 : option_map promise (session sid w1) = Some Rejected).
  { unfold w1. cbn [run_task]. unfold fetch_settled. rewrite Hc, Ht.
    cbn [playAudioWithLipSync]. unfold playAudioWithLipSync_overlay.
    rewrite Ha. unfold session, push_session. cbn.
    rewrite nth_error_app2, Nat.sub_diag by (unfold sid; lia).
    reflexivity. }
  assert (H3 : play_awaited_rejected w1
                 {| message := m; chat_stage := AwaitPlay sid |} = true).
  { unfold play_awaited_rejected. cbn [chat_stage].
    destruct (session sid w1) as [[u a d pr g]|]; [|discriminate].
    cbn in H2. injection H2 as ->. reflexivity. }
  split; [|split].
  - apply catches_keep_messages; [|reflexivity].
    cbn [messages_task]. rewrite Hc. unfold addMessage.
    apply in_or_app. right. left. reflexivity.
  - apply catches_end_in_error. right.
    eexists. split; [exact (nth_error_in_combine_seq _ 0 chat _ H1)|].
    exact H3.
  - destruct (microtasks_await w1 chat sid m H1) as [Hd Hi].
    assert (Hs : settled sid (microtasks w1) = true).
    { unfold settled, session. rewrite microtasks_sessions.
      fold (session sid w1).
      destruct (session sid w1) as [[u a d pr g]|]; [|discriminate].
      cbn in H2. injection H2 as ->. reflexivity. }
    rewrite Hs in Hd. split; [exact Hd | exact (Hi Hs)].
Qed.

Lemma rejected_clip_shows_reply_then_error_witness :
  let p' := page_run Part000
              [Submit "hi"; FetchSettled 0 (FetchOk "yo" (Some "A")) running]
              initial_page in
  In (messageDiv "yo" "assistant") (chatMessages p')
  /\ last (chatMessages p') (TypingIndicator 0)
     = messageDiv error_text "assistant"
  /\ nth_error (chats (closures (world p'))) 0
     = Some {| message := "hi"; chat_stage := ChatDone |}
  /\ inputDisabled (dom (world p')) = false.
Proof.
  apply (rejected_clip_shows_reply_then_error
           (page_run Part000 [Submit "hi"] initial_page) 0 "hi" "yo" "A"
           running).
  - reflexivity.
  - discriminate.
  - reflexivity.
Defined.

(** ** Rejected promises *)

Lemma Forall_update_nth {A} (P : A -> Prop) f : forall l n,
  (forall a, P a -> P (f a)) -> Forall P l -> Forall P (update_nth n f l).
Proof.
  induction l as [|a l IH]; intros n Hf H; [destruct n; exact H|].
  inversion H; subst. destruct n; cbn; constructor; auto.
Qed.

Lemma update_session_never_rejected sid f w :
  (forall s, promise s <> Rejected -> promise (f s) <> Rejected) ->
  never_rejected w -> never_rejected (update_session sid f w).
Proof. intros Hf H. apply Forall_update_nth; assumption. Qed.

Lemma never_rejected_sessions w w' :
  sessions (closures w') = sessions (closures w) ->
  never_rejected w -> never_rejected w'.
Proof. unfold never_rejected. intros ->. exact (fun H => H). Qed.

Lemma settle_fulfilled_not_rejected s :
  promise s <> Rejected -> promise (settle_promise Fulfilled s) <> Rejected.
Proof. cbn. destruct (promise s); cbn; congruence. Qed.

Lemma resolve_never_rejected sid w :
  never_rejected w -> never_rejected (resolve sid w).
Proof.
  apply update_session_never_rejected, settle_fulfilled_not_rejected.
Qed.

Lemma animateLipSync_never_rejected v sid f w :
  never_rejected w -> never_rejected (world_of (animateLipSync v sid f w)).
Proof.
  intros H. unfold animateLipSync. destruct (session sid w); [|exact H].
  set (w1 := update_session sid _ w).
  assert (H1 : never_rejected w1)
    by (apply update_session_never_rejected;
        [intros s0 Hs; exact Hs | exact H]).
  clearbody w1. draw_step; cbn.
  - apply (update_session_never_rejected sid (set_animationId _));
      [intros s0 Hs; exact Hs | exact H1].
  - exact H1.
Qed.

Lemma ended_handler_never_rejected v sid w :
  never_rejected w -> never_rejected (world_of (ended_handler v sid w)).
Proof.
  intros H. unfold ended_handler. destruct (session sid w) as [s|]; [|exact H].
  draw_step; cbn [world_of].
  - apply resolve_never_rejected.
    refine (never_rejected_sessions w _ _ H).
    destruct v, (audioUrl s), (animationId s); reflexivity.
  - refine (never_rejected_sessions w _ _ H).
    destruct (animationId s); reflexivity.
Qed.

Lemma error_handler_never_rejected v sid w :
  never_rejected w -> never_rejected (world_of (error_handler v sid w)).
Proof.
  intros H. unfold error_handler. destruct (session sid w) as [s|]; [|exact H].
  cbn [world_of]. apply resolve_never_rejected.
  refine (never_rejected_sessions w _ _ H).
  destruct v, (audioUrl s), (animationId s); reflexivity.
Qed.

Lemma install_and_play_never_rejected sid w :
  never_rejected w -> never_rejected (install_and_play sid w).
Proof.
  intros H. unfold install_and_play.
  apply update_session_never_rejected; [intros s Hs; exact Hs|].
  refine (never_rejected_sessions (update_session sid _ w) _ eq_refl _).
  apply update_session_never_rejected; [intros s Hs; exact Hs | exact H].
Qed.

Lemma after_resume_never_rejected sid w :
  never_rejected w -> never_rejected (after_resume sid w).
Proof.
  intros H. unfold after_resume. destruct (session sid w); [|exact H].
  apply install_and_play_never_rejected.
  exact (never_rejected_sessions w _ eq_refl H).
Qed.

Lemma push_pending_never_rejected u g w :
  never_rejected w -> never_rejected (push_session (new_session u Pending g) w).
Proof.
  intros H. unfold never_rejected, push_session. cbn.
  apply Forall_app. split; [exact H|].
  constructor; [discriminate | constructor].
Qed.

Lemma playAudio_app_never_rejected c b w :
  never_rejected w -> never_rejected (playAudioWithLipSync AppJs c b w).
Proof.
  intros H. cbn [playAudioWithLipSync]. unfold playAudioWithLipSync_app.
  destruct (atob b); [|apply push_pending_never_rejected, H].
  destruct w as [[h ai fd ml ac] d p cl].
  destruct ac as [[]|]; [| |destruct c]; cbn [createObjectURL];
    cbn -[after_resume push_session new_session];
    try apply after_resume_never_rejected;
    apply push_pending_never_rejected; exact H.
Qed.

Lemma run_frame_never_rejected v freq w :
  never_rejected w -> never_rejected (run_frame v freq w).
Proof.
  intros H. unfold run_frame.
  pose proof (never_rejected_sessions w (set_frameCallbacks [] w) eq_refl H)
    as H0.
  revert H0. generalize (set_frameCallbacks [] w) as w0.
  induction (frameCallbacks (platform w)) as [|cb l IH]; intros w0 H0;
    cbn [fold_left]; [exact H0|].
  apply IH, animateLipSync_never_rejected, H0.
Qed.

Lemma run_task_never_rejected e w :
  never_rejected w -> never_rejected (run_task AppJs e w).
Proof.
  intros H. destruct e; cbn [run_task].
  all: try (refine (never_rejected_sessions w _ _ H); frame_solve; fail).
  - unfold fetch_settled, chat_finally.
    destruct (nth_error _ _) as [[m []]|]; try exact H.
    destruct r; [exact H|].
    destruct (truthy _); [|exact H].
    refine (never_rejected_sessions
              (playAudioWithLipSync AppJs created _ (set_chatHistory _ w))
              _ eq_refl _).
    apply playAudio_app_never_rejected. exact H.
  - destruct (session sid w) as [[u a d p []]|]; try exact H.
    apply after_resume_never_rejected. exact H.
  - destruct (onplay _); [apply animateLipSync_never_rejected|]; exact H.
  - destruct (onended _); [apply ended_handler_never_rejected|]; exact H.
  - destruct (onerror _); [apply error_handler_never_rejected|]; exact H.
  - destruct (session sid w) as [[u a d p []]|]; try exact H.
    assert (H1 : never_rejected
                   (update_session sid (set_progress PlaySettled) w))
      by (apply update_session_never_rejected;
          [intros s Hs; exact Hs | exact H]).
    destruct fulfilled; [exact H1|].
    unfold play_catch. apply resolve_never_rejected. exact H1.
  - apply run_frame_never_rejected, H.
Qed.

Lemma catches_idle w l :
  never_rejected w -> messages_microtasks w l = l.
Proof.
  intros H. unfold messages_microtasks. revert l.
  induction (combine _ _) as [|[i t] cts IH]; intros l; [reflexivity|].
  cbn [fold_left fst snd].
  replace (play_awaited_rejected w t) with false; [apply IH|].
  unfold play_awaited_rejected. destruct (chat_stage t); try reflexivity.
  destruct (session sid w) as [s|] eqn:E; [|reflexivity].
  apply nth_error_In in E. unfold never_rejected in H.
  rewrite Forall_forall in H. specialize (H s E).
  destruct s as [u a d [] g]; cbn in *; congruence.
Qed.

(** X18. In [app.js] no promise of [playAudioWithLipSync] is ever
    rejected, so the submit handler never reaches its [catch] block from
    the playback: whatever goes wrong with a clip, the only error message
    the chat list can get is the one for a failed request. *)
Theorem app_shows_no_playback_error (trace : list Event) (e : Event) :
  let p := page_run AppJs trace initial_page in
  never_rejected (world p)
  /\ chatMessages (page_step AppJs e p)
     = messages_task e (world p) (chatMessages p).
Proof.
  cbv zeta.
  assert (H : never_rejected (world (page_run AppJs trace initial_page))).
  { rewrite page_world. apply run_invariant; [constructor|].
    intros e' w H. unfold step.
    refine (never_rejected_sessions _ _ (microtasks_sessions _) _).
    apply run_task_never_rejected, H. }
  split; [exact H|].
  cbn [page_step chatMessages].
  apply catches_idle, run_task_never_rejected, H.
Qed.

(** X19. When [audioPlayer.play()] is rejected, the [catch] callback
    fulfils the promise and takes the speaking highlight off, and that is
    all: in both variants the clip's object URL stays live, no frame
    callback is cancelled and the handlers stay on [audioPlayer]. *)
Theorem play_rejection_keeps_url (v : Variant) (sid : nat) (s : Session)
  (w : World) :
  session sid w = Some s -> progress s = PlayRequested ->
  let w' := step v (PlayPromise sid false) w in
  option_map promise (session sid w') = Some (settle Fulfilled (promise s))
  /\ speaking (dom w') = false
  /\ objectURLs (platform w') = objectURLs (platform w)
  /\ frameCallbacks (platform w') = frameCallbacks (platform w)
  /\ audioPlayer (dom w') = audioPlayer (dom w).
Proof.
  intros Hs Hp. cbv zeta. unfold step.
  destruct (microtasks_outcome (run_task v (PlayPromise sid false) w))
    as (-> & -> & Em & ->).
  unfold session at 1. rewrite Em.
  fold (session sid (run_task v (PlayPromise sid false) w)).
  assert (Ea : audioPlayer (dom (microtasks
                 (run_task v (PlayPromise sid false) w)))
               = audioPlayer (dom (run_task v (PlayPromise sid false) w))).
  { unfold microtasks. destruct (existsb _ _); reflexivity. }
  rewrite Ea. cbn [run_task]. rewrite Hs.
  destruct s as [u a d p g]. cbn in Hp. subst g.
  unfold play_catch. rewrite session_resolve.
  match goal with
  | |- context [session sid (set_speaking false ?x)] =>
      change (session sid (set_speaking false x)) with (session sid x)
  end.
  rewrite session_update_session, Nat.eqb_refl, Hs.
  repeat split.
Qed.


Lemma play_rejection_keeps_url_witness :
  let w' := step AppJs (PlayPromise 0 false) (clip_requested AppJs) in
  option_map promise (session 0 w') = Some Fulfilled
  /\ speaking (dom w') = false
  /\ objectURLs (platform w') = objectURLs (platform (clip_requested AppJs))
  /\ frameCallbacks (platform w')
     = frameCallbacks (platform (clip_requested AppJs))
  /\ audioPlayer (dom w') = audioPlayer (dom (clip_requested AppJs)).
Proof.
  apply (play_rejection_keeps_url AppJs 0
           {| audioUrl := Some 0; animationId := None; dataArray := silent;
              promise := Pending; progress := PlayRequested |}
           (clip_requested AppJs)).
  - vm_compute. reflexivity.
  - reflexivity.
Defined.

(** ** The second clip of [part_000] *)

Lemma animateLipSync_source v sid f w :
  mediaElementSource (platform (world_of (animateLipSync v sid f w)))
  = mediaElementSource (platform w).
Proof.
  unfold animateLipSync. destruct (session sid w); [|reflexivity].
  draw_step; reflexivity.
Qed.

Lemma playAudio_source v c b w :
  mediaElementSource (platform w) = true ->
  mediaElementSource (platform (playAudioWithLipSync v c b w)) = true.
Proof.
  intros H. destruct v; cbn [playAudioWithLipSync];
    unfold playAudioWithLipSync_app, playAudioWithLipSync_overlay;
    destruct (atob b); try exact H; cbn [createObjectURL].
  - destruct w as [[h ai fd ml ac] d p cl].
    destruct ac as [[]|]; [| |destruct c]; cbn in *;
      unfold after_resume, session; cbn;
      try destruct (nth_error _ _); exact H.
  - unfold createMediaElementSource.
    cbn [platform with_audioPlayer with_dom with_platform
         mediaElementSource].
    rewrite H. cbn. exact H.
Qed.

Lemma step_source v e w :
  mediaElementSource (platform w) = true ->
  mediaElementSource (platform (step v e w)) = true.
Proof.
  intros H. unfold step. rewrite microtasks_platform.
  destruct e; cbn [run_task].
  all: try (repeat (autounfold with handlers; cbn -[atob drawAvatar];
                    try draw_step; try break_match);
            exact H).
  - unfold fetch_settled, chat_finally.
    destruct (nth_error _ _) as [[m []]|]; try exact H.
    destruct r; [exact H|].
    destruct (truthy _); [|exact H].
    exact (playAudio_source v created _ (set_chatHistory _ w) H).
  - rewrite (run_frame_keeps (fun w => mediaElementSource (platform w)));
      [exact H | reflexivity | apply animateLipSync_source].
Qed.

Lemma run_source v trace : forall w,
  mediaElementSource (platform w) = true ->
  mediaElementSource (platform (run v trace w)) = true.
Proof.
  induction trace as [|e trace IH]; intros w H; [exact H|].
  cbn [run fold_left]. apply IH, step_source, H.
Qed.

(** X20. [part_000] plays only its first clip.  Once a call has decoded
    its payload, every later call that decodes its payload is rejected,
    whatever happened in between: it has put a new object URL into
    [audioPlayer.src], which stays live, and then stops at
    [createMediaElementSource], so the handlers, the speaking highlight and
    the scheduled callbacks remain those it found, and [audioPlayer.play()]
    is not called. *)
Theorem overlay_plays_only_once (c1 c2 : AudioContextState) (b1 b2 : string)
  (bytes1 bytes2 : list byte) (trace : list Event) (w : World) :
  atob b1 = Some bytes1 -> atob b2 = Some bytes2 ->
  let w1 := run Part000 trace (playAudioWithLipSync Part000 c1 b1 w) in
  let sid := List.length (sessions (closures w1)) in
  let w2 := playAudioWithLipSync Part000 c2 b2 w1 in
  option_map promise (session sid w2) = Some Rejected
  /\ audio_src (audioPlayer (dom w2)) = Some (nextObjectURL (platform w1))
  /\ In (nextObjectURL (platform w1)) (objectURLs (platform w2))
  /\ onplay (audioPlayer (dom w2)) = onplay (audioPlayer (dom w1))
  /\ onended (audioPlayer (dom w2)) = onended (audioPlayer (dom w1))
  /\ onerror (audioPlayer (dom w2)) = onerror (audioPlayer (dom w1))
  /\ speaking (dom w2) = speaking (dom w1)
  /\ frameCallbacks (platform w2) = frameCallbacks (platform w1).
Proof.
  intros H1 H2. cbv zeta.
  set (w1 := run Part000 trace (playAudioWithLipSync Part000 c1 b1 w)).
  assert (Hf : mediaElementSource (platform w1) = true).
  { apply run_source. cbn [playAudioWithLipSync].
    unfold playAudioWithLipSync_overlay. rewrite H1. cbn [createObjectURL].
    unfold createMediaElementSource.
    cbn [platform with_audioPlayer with_dom with_platform
         mediaElementSource].
    destruct (mediaElementSource (platform w)) eqn:E; cbn;
      [exact E | reflexivity]. }
  clearbody w1. cbn [playAudioWithLipSync].
  unfold playAudioWithLipSync_overlay. rewrite H2. cbn [createObjectURL].
  unfold createMediaElementSource.
  cbn [platform with_audioPlayer with_dom with_platform mediaElementSource].
  rewrite Hf. unfold session, push_session. cbn.
  rewrite nth_error_app2, Nat.sub_diag by lia.
  repeat split. left. reflexivity.
Qed.

Lemma overlay_plays_only_once_witness :
  let w1 := run Part000 [MediaPlay loud; MediaEnded]
                (playAudioWithLipSync Part000 running "AAAA" initial) in
  let w2 := playAudioWithLipSync Part000 running "AAAA" w1 in
  option_map promise (session 0 w1) = Some Fulfilled
  /\ option_map promise (session 1 w2) = Some Rejected
  /\ audio_src (audioPlayer (dom w2)) = Some 1%nat
  /\ onplay (audioPlayer (dom w2)) = Some 0%nat.
Proof.
  cbv zeta.
  destruct (overlay_plays_only_once running running "AAAA" "AAAA"
              [x00; x00; x00] [x00; x00; x00] [MediaPlay loud; MediaEnded]
              initial eq_refl eq_refl) as (H1 & H2 & _ & H3 & _).
  split; [vm_compute; reflexivity|].
  split; [exact H1|].
  split; [rewrite H2; vm_compute; reflexivity|].
  rewrite H3. vm_compute. reflexivity.
Defined.
